(** * OpenFlow: the graph executor and the agent chain orchestrator

    A shallow embedding of [bot/engine.py], [bot/nodes/base.py],
    [bot/nodes/builtin.py], [bot/nodes/agent.py] and parts of
    [bot/tooling.py] and [bot/config.py], and the properties of the
    workflow engine and of the agent handler stated over it. *)

From Stdlib Require Import ZArith Ascii String Floats.SpecFloat.
From stdpp Require Import base option list relations sorting strings pretty gmap.

Set Warnings "-register-all,-clear-no-such-hyp".
Open Scope string_scope.
Open Scope list_scope.
Open Scope Z_scope.

(** ** Python values, exceptions and ordered dictionaries *)

Module Py.

(** The values that travel in parameters and payloads ([dict[str, Any]]).
    [VObj] is an instance of a class with its attributes (the message
    objects a model invocation returns). Floats are IEEE binary64. A text
    is kept as its UTF-8 bytes. *)
Inductive Value :=
| VNone
| VBool (b : bool)
| VInt (n : Z)
| VFloat (f : spec_float)
| VStr (s : string)
| VList (l : list Value)
| VDict (d : gmap string Value)
| VObj (cls : string) (attrs : gmap string Value).

(** The exception classes the code raises or lets through. *)
Inductive exn :=
| ValueError (msg : string)
| KeyError (key : string)
| RuntimeError (msg : string)
| OverflowError (msg : string)
| ImportError (msg : string)
| OtherError (msg : string).

(** A call either returns or raises. *)
Inductive outcome (A : Type) :=
| Ok (a : A)
| Raise (e : exn).
Arguments Ok {A} a.
Arguments Raise {A} e.

(** [x ← m; k] runs [k] on what [m] returns and lets an exception of [m]
    through. *)
#[global] Instance outcome_bind : MBind outcome := λ A B k m,
  match m with
  | Ok a => k a
  | Raise e => Raise e
  end.

(** A [dict] whose iteration order the code depends on: the entries in
    insertion order. A Python dict holds a key once ([odict_wf]). *)
Definition odict (V : Type) := list (string * V).

Definition odict_wf {V} (d : odict V) : Prop := NoDup (d.*1).

Fixpoint odict_get {V} (k : string) (d : odict V) : option V :=
  match d with
  | [] => None
  | (k', v) :: d' => if decide (k = k') then Some v else odict_get k d'
  end.

(** [d[k] = v]: an existing key keeps its position, a new one goes last. *)
Fixpoint odict_set {V} (k : string) (v : V) (d : odict V) : odict V :=
  match d with
  | [] => [(k, v)]
  | (k', v') :: d' =>
      if decide (k = k') then (k, v) :: d' else (k', v') :: odict_set k v d'
  end.

End Py.
Export Py.

(** ** [bot/models.py] and [bot/nodes/base.py] *)

Module Models.

Record Node := mkNode {
  id : string;
  type : string;
  params : gmap string Value;
}.

(** [created_at] is a timestamp the engine never reads; it is kept as
    seconds since the epoch. *)
Record Workflow := mkWorkflow {
  wf_id : string;
  name : string;
  nodes : list Node;
  edges : odict (list string);
  active : bool;
  created_at : Z;
}.

(** [NodeHandler = Callable[[dict, dict], dict]]: parameters and payload
    in, payload out, or an exception. *)
Definition NodeHandler : Type :=
  gmap string Value → gmap string Value → outcome (gmap string Value).

Record NodeSpec := mkNodeSpec {
  type_name : string;
  description : string;
  handler : NodeHandler;
}.

(** [NodeRegistry._nodes] *)
Definition NodeRegistry : Type := gmap string NodeSpec.

Definition register (spec : NodeSpec) (r : NodeRegistry) : NodeRegistry :=
  <[type_name spec := spec]> r.

Definition registry_get (r : NodeRegistry) (t : string) : outcome NodeSpec :=
  match r !! t with
  | Some spec => Ok spec
  | None => Raise (KeyError ("Unknown node type: " +:+ t))
  end.

End Models.
Export Models.

(** ** [bot/engine.py] *)

Module Engine.

(** One call of a node handler, as [run] makes it: the node, the payload
    handed over and what the handler did. The list of them is kept next
    to the result of [run] to speak of what was invoked and in which
    order; the code itself keeps no such list. *)
Record Invocation := mkInvocation {
  inv_node : Node;
  inv_input : gmap string Value;
  inv_result : outcome (gmap string Value);
}.

(** [WorkflowEngine._merge_parent_payloads] *)
Definition incoming_of (node_id : string) (edges : odict (list string))
  : list string :=
  (filter (λ e : string * list string, node_id ∈ e.2) edges).*1.

Definition merge_update (merged : gmap string Value)
    (results : gmap string (gmap string Value)) (source : string)
  : gmap string Value :=
  default ∅ (results !! source) ∪ merged.

Definition _merge_parent_payloads (node : Node) (edges : odict (list string))
    (results : gmap string (gmap string Value)) : gmap string Value :=
  let incoming := incoming_of (id node) edges in
  match incoming with
  | [] => ∅
  | _ => foldl (λ merged source, merge_update merged results source) ∅ incoming
  end.

(** [WorkflowEngine._topological_sort]: the dictionaries it builds. *)
Definition node_map_of (nodes : list Node) : gmap string Node :=
  foldl (λ m n, <[id n := n]> m) ∅ nodes.

Definition indegree_init (nodes : list Node) : odict Z :=
  foldl (λ d n, odict_set (id n) 0 d) [] nodes.

(** [indegree] is a [defaultdict(int)]: a missing key reads as [0]. *)
Definition indegree_at (indegree : odict Z) (k : string) : Z :=
  default 0 (odict_get k indegree).

Fixpoint count_targets (node_map : gmap string Node) (targets : list string)
    (indegree : odict Z) : outcome (odict Z) :=
  match targets with
  | [] => Ok indegree
  | target :: rest =>
      match node_map !! target with
      | None => Raise (ValueError ("Unknown target node in edges: " +:+ target))
      | Some _ =>
          count_targets node_map rest
            (odict_set target (indegree_at indegree target + 1) indegree)
      end
  end.

Fixpoint count_edges (node_map : gmap string Node) (edges : odict (list string))
    (indegree : odict Z) : outcome (odict Z) :=
  match edges with
  | [] => Ok indegree
  | (source, targets) :: rest =>
      match node_map !! source with
      | None => Raise (ValueError ("Unknown source node in edges: " +:+ source))
      | Some _ =>
          indegree' ← count_targets node_map targets indegree;
          count_edges node_map rest indegree'
      end
  end.

(** The inner [for target in edges.get(node_id, [])] of the queue loop. *)
Fixpoint relax (targets : list string) (indegree : odict Z) (queue : list string)
  : odict Z * list string :=
  match targets with
  | [] => (indegree, queue)
  | target :: rest =>
      let d := indegree_at indegree target - 1 in
      let indegree' := odict_set target d indegree in
      relax rest indegree' (if decide (d = 0) then queue ++ [target] else queue)
  end.

(** [while queue: ...]. The loop is bounded by [fuel] iterations; [None]
    says the bound was reached with the queue still non-empty. *)
Fixpoint kahn_loop (fuel : nat) (node_map : gmap string Node)
    (edges : odict (list string)) (indegree : odict Z) (queue : list string)
    (order : list Node) : option (outcome (list Node)) :=
  match queue with
  | [] => Some (Ok order)
  | node_id :: queue' =>
      match fuel with
      | O => None
      | S fuel' =>
          match node_map !! node_id with
          | None => Some (Raise (KeyError node_id))
          | Some n =>
              let '(indegree', queue'') :=
                relax (default [] (odict_get node_id edges)) indegree queue' in
              kahn_loop fuel' node_map edges indegree' queue'' (order ++ [n])
          end
      end
  end.

Definition zero_indegree (indegree : odict Z) : list string :=
  (filter (λ e : string * Z, e.2 = 0) indegree).*1.

Definition _topological_sort (nodes : list Node) (edges : odict (list string))
  : option (outcome (list Node)) :=
  let node_map := node_map_of nodes in
  match count_edges node_map edges (indegree_init nodes) with
  | Raise e => Some (Raise e)
  | Ok indegree =>
      match kahn_loop (length nodes) node_map edges indegree
              (zero_indegree indegree) [] with
      | None => None
      | Some (Raise e) => Some (Raise e)
      | Some (Ok order) =>
          if decide (length order ≠ length nodes)
          then Some (Raise (ValueError "Workflow graph has a cycle"))
          else Some (Ok order)
      end
  end.

(** The [for node in ordered_nodes] loop of [run]; [log] collects the
    handler calls made so far. *)
Fixpoint run_nodes (registry : NodeRegistry) (edges : odict (list string))
    (input_data : gmap string Value) (ordered_nodes : list Node)
    (results : gmap string (gmap string Value)) (log : list Invocation)
  : list Invocation * outcome (gmap string (gmap string Value)) :=
  match ordered_nodes with
  | [] => (log, Ok results)
  | node :: rest =>
      let parent_payload := _merge_parent_payloads node edges results in
      let parent_payload :=
        if decide (parent_payload = ∅) then input_data else parent_payload in
      match registry_get registry (type node) with
      | Raise e => (log, Raise e)
      | Ok spec =>
          let r := handler spec (params node) parent_payload in
          let log' := log ++ [mkInvocation node parent_payload r] in
          match r with
          | Raise e => (log', Raise e)
          | Ok out =>
              run_nodes registry edges input_data rest (<[id node := out]> results) log'
          end
      end
  end.

(** [WorkflowEngine.run]; the first component is the list of handler
    calls made, the second what [run] returns or raises. *)
Definition run (registry : NodeRegistry) (workflow : Workflow)
    (input_data : gmap string Value)
  : option (list Invocation * outcome (gmap string Value)) :=
  match _topological_sort (nodes workflow) (edges workflow) with
  | None => None
  | Some (Raise e) => Some ([], Raise e)
  | Some (Ok ordered_nodes) =>
      match run_nodes registry (edges workflow) input_data ordered_nodes ∅ [] with
      | (log, Raise e) => Some (log, Raise e)
      | (log, Ok results) =>
          match last ordered_nodes with
          | None => Some (log, Ok input_data)
          | Some n =>
              match results !! id n with
              | Some out => Some (log, Ok out)
              | None => Some (log, Raise (KeyError (id n)))
              end
          end
      end
  end.

End Engine.
Export Engine.

(** ** [bot/nodes/builtin.py]: the handlers without a model call *)

Module Builtin.

Definition manual_trigger_handler : NodeHandler :=
  λ _params payload, Ok payload.

Definition set_fields_handler : NodeHandler :=
  λ params payload,
    match default (VDict ∅) (params !! "fields") with
    | VDict fields => Ok (fields ∪ payload)
    | _ => Raise (ValueError "set_fields.fields must be a dictionary")
    end.

End Builtin.

(** ** Python built-ins the agent handler uses *)

Module Builtins.

Definition nl : string := String "010"%char "".

(** [isinstance(v, str)], [isinstance(v, int)] ([bool] is a subclass of
    [int]), [isinstance(v, (int, float))], [isinstance(v, list)]. *)
Definition is_str (v : Value) : bool :=
  match v with VStr _ => true | _ => false end.

Definition is_int (v : Value) : bool :=
  match v with VInt _ | VBool _ => true | _ => false end.

Definition is_number (v : Value) : bool :=
  match v with VInt _ | VBool _ | VFloat _ => true | _ => false end.

Definition is_list (v : Value) : bool :=
  match v with VList _ => true | _ => false end.

(** The integer an [int] instance stands for ([True] is [1]). *)
Definition int_value (v : Value) : Z :=
  match v with
  | VInt n => n
  | VBool true => 1
  | _ => 0
  end.

(** [float(n)] for an [int]: the nearest binary64, ties to even;
    [OverflowError] when that is not finite. *)
Definition float_of_int (n : Z) : outcome spec_float :=
  match binary_normalize 53 1024 n 0 false with
  | S754_infinity _ => Raise (OverflowError "int too large to convert to float")
  | f => Ok f
  end.

(** [float(v)] for a value that passed [isinstance(v, (int, float))]. *)
Definition py_float (v : Value) : outcome spec_float :=
  match v with
  | VFloat f => Ok f
  | _ => float_of_int (int_value v)
  end.

(** A list all of whose items are [str], as the list of the strings. *)
Definition as_str (v : Value) : option string :=
  match v with VStr s => Some s | _ => None end.

Definition as_str_list (v : Value) : option (list string) :=
  match v with
  | VList l => mapM as_str l
  | _ => None
  end.

(** A text is kept as its UTF-8 bytes. *)
Definition utf8 (bytes : list Z) : string :=
  string_of_list_ascii ((λ b, ascii_of_N (Z.to_N b)) <$> bytes).

(** The characters [str.isspace] holds of, which are the ones [str.strip]
    removes: U+0009 to U+000D, U+001C to U+0020, U+0085, U+00A0, U+1680,
    U+2000 to U+200A, U+2028, U+2029, U+202F, U+205F and U+3000. *)
Definition whitespace : list string :=
  Eval cbv in
  [
    utf8 [9]; utf8 [10]; utf8 [11]; utf8 [12]; utf8 [13]; utf8 [28];
    utf8 [29]; utf8 [30]; utf8 [31]; utf8 [32]; utf8 [194; 133];
    utf8 [194; 160]; utf8 [225; 154; 128]; utf8 [226; 128; 128];
    utf8 [226; 128; 129]; utf8 [226; 128; 130]; utf8 [226; 128; 131];
    utf8 [226; 128; 132]; utf8 [226; 128; 133]; utf8 [226; 128; 134];
    utf8 [226; 128; 135]; utf8 [226; 128; 136]; utf8 [226; 128; 137];
    utf8 [226; 128; 138]; utf8 [226; 128; 168]; utf8 [226; 128; 169];
    utf8 [226; 128; 175]; utf8 [226; 129; 159]; utf8 [227; 128; 128]
  ].

(** [s] without the prefix [prefix], when it starts with it. *)
Fixpoint strip_prefix (prefix s : string) : option string :=
  match prefix, s with
  | EmptyString, _ => Some s
  | String c prefix', String c' s' =>
      if Ascii.eqb c c' then strip_prefix prefix' s' else None
  | String _ _, EmptyString => None
  end.

(** [s] without the first of [prefixes] it starts with. *)
Fixpoint skip_any (prefixes : list string) (s : string) : option string :=
  match prefixes with
  | [] => None
  | prefix :: rest =>
      match strip_prefix prefix s with
      | Some s' => Some s'
      | None => skip_any rest s
      end
  end.

(** [s] without its first character, when that is whitespace. *)
Definition skip_space (s : string) : option string := skip_any whitespace s.

(** [s.lstrip()]; no more characters are removed than [s] has bytes. *)
Fixpoint lstrip_upto (n : nat) (s : string) : string :=
  match n with
  | O => s
  | S n' =>
      match skip_space s with
      | Some s' => lstrip_upto n' s'
      | None => s
      end
  end.

Definition lstrip (s : string) : string := lstrip_upto (String.length s) s.

(** [s.rstrip()]: [s] up to where only whitespace follows. *)
Fixpoint rstrip (s : string) : string :=
  match lstrip s with
  | EmptyString => EmptyString
  | _ =>
      match s with
      | String c s' => String c (rstrip s')
      | EmptyString => EmptyString
      end
  end.

(** [s.strip()] *)
Definition strip (s : string) : string := rstrip (lstrip s).

(** [sep.join(parts)] *)
Fixpoint join (sep : string) (parts : list string) : string :=
  match parts with
  | [] => ""
  | [p] => p
  | p :: rest => p +:+ sep +:+ join sep rest
  end.

End Builtins.
Export Builtins.

(** ** [bot/tooling.py]: the tools of an agent

    [tool_catalog] and [build_agent_tools] of [tooling.py].  A tool is kept
    as its name, its description and the function behind it, the last named
    and not run: the functions evaluate expressions, read the clock and
    fetch pages. *)

Module Tooling.

Inductive ToolFunc :=
| Calculator
| UtcTime
| HttpGet (allow_domains : list string)
| TavilySearch (max_results : Z).

Record StructuredTool := mkStructuredTool {
  tool_func : ToolFunc;
  tool_name : string;
  tool_description : string
}.

(** [tool_catalog] *)
Definition tool_catalog : list (gmap string string) :=
  [ {[ "name" := "calculator"; "description" := "Evaluate a simple math expression." ]};
    {[ "name" := "utc_time"; "description" := "Get current UTC timestamp." ]};
    {[ "name" := "http_get";
       "description" := "Fetch URL content from allowlisted domains only." ]};
    {[ "name" := "tavily_search";
       "description" := "Search the web via Tavily API (requires TAVILY_API_KEY)." ]} ].

Section build.

(** The settings of [AppConfig.agent_tool_settings]: the list [_get_csv]
    reads and the integer [_get_int] reads. *)
Variable allow_http_domains : list string.
Variable tavily_max_results : Z.

Definition tool_registry : gmap string StructuredTool :=
  {[ "calculator" :=
       mkStructuredTool Calculator "calculator"
         "Evaluate a math expression, e.g. '(42*7)/3'.";
     "utc_time" :=
       mkStructuredTool UtcTime "utc_time" "Return the current UTC timestamp.";
     "http_get" :=
       mkStructuredTool (HttpGet allow_http_domains) "http_get"
         "Fetch page text from a URL. Respects allowlist.";
     "tavily_search" :=
       mkStructuredTool (TavilySearch tavily_max_results) "tavily_search"
         "Search the web with Tavily and return compact JSON results." ]}.

(** [build_agent_tools]: the loop appends the tool of each selected name
    that the registry has. *)
Fixpoint build_agent_tools (selected : list string) : list StructuredTool :=
  match selected with
  | [] => []
  | tool_name :: rest =>
      match tool_registry !! tool_name with
      | Some tool => tool :: build_agent_tools rest
      | None => build_agent_tools rest
      end
  end.

End build.

End Tooling.

Export Tooling.

(** ** [bot/nodes/agent.py] *)

Module Agent.

(** What the agent node reads from [app_config], itself read from the
    configuration files: [agent_defaults()] in the handler and, in
    [build_agent_tools], [agent_tool_settings()]. *)
Record AgentDefaults := mkAgentDefaults {
  default_model : string;
  default_system_prompt : string;
  default_input_field : string;
  default_num_ctx : Z;
  default_num_predict : Z;
  default_temperature : spec_float;
  default_tools : list string;
  default_max_tool_calls : Z;
  tool_allow_http_domains : list string;
  tool_tavily_max_results : Z;
}.

(** What reaches the model backend in one [_run_single_agent]: the
    arguments of [ChatOllama], [create_react_agent] and [agent.invoke].
    The tools are those [build_agent_tools] resolved. *)
Record ModelCall := mkModelCall {
  call_model : string;
  call_num_ctx : Value;
  call_num_predict : Value;
  call_temperature : spec_float;
  call_tools : list StructuredTool;
  call_prompt : string;
  call_user_prompt : string;
  call_recursion_limit : Z;
}.

(** An entry of [agent_chain], as [_normalize_agent_chain] builds it. *)
Record AgentStep := mkAgentStep {
  step_name : string;
  step_system_prompt : string;
  step_model : string;
  step_tools : list string;
}.

(** The tuple [_validate_common_settings] returns. *)
Record CommonSettings := mkCommonSettings {
  cs_model : string;
  cs_input_field : string;
  cs_num_ctx : Value;
  cs_num_predict : Value;
  cs_temperature : spec_float;
  cs_max_tool_calls : Value;
}.

Definition tool_preference : string :=
  "When asked for factual, financial, company, or current-event information, " +:+
  "use available tools before answering. If a tool fails, say that clearly.".

Definition continue_prompt (original_input running_context : string) : string :=
  "Original user request:" +:+ nl +:+ original_input +:+ nl +:+ nl +:+
  "Current context from previous agents:" +:+ nl +:+ running_context +:+ nl +:+ nl +:+
  "Continue and improve the answer.".

Definition missing_dependencies : string :=
  "Missing agent dependencies. Install with: uv add langgraph langchain-ollama".

Definition missing_input_field (input_field : string) : string :=
  "langgraph_agent expected input field '" +:+ input_field +:+ "' in payload".

Definition _validate_common_settings
    (model input_field num_ctx num_predict temperature max_tool_calls : Value)
  : outcome CommonSettings :=
  match model with
  | VStr (String _ _ as model') =>
    match input_field with
    | VStr (String _ _ as input_field') =>
      if negb (is_int num_ctx) || (int_value num_ctx <=? 0)
      then Raise (ValueError "agent.num_ctx must be a positive integer")
      else if negb (is_int num_predict) || (int_value num_predict <=? 0)
      then Raise (ValueError "agent.num_predict must be a positive integer")
      else if negb (is_number temperature)
      then Raise (ValueError "agent.temperature must be a number")
      else if negb (is_int max_tool_calls) || (int_value max_tool_calls <=? 0)
      then Raise (ValueError "agent.max_tool_calls must be a positive integer")
      else
        temperature' ← py_float temperature;
        Ok (mkCommonSettings model' input_field' num_ctx num_predict
              temperature' max_tool_calls)
    | _ => Raise (ValueError "agent.input_field must be a non-empty string")
    end
  | _ => Raise (ValueError "agent.model must be a non-empty string")
  end.

(** The body of the loop of [_normalize_agent_chain] for the entry at
    position [idx]. *)
Definition normalize_agent (default_model default_prompt : string)
    (default_tools : list string) (idx : nat) (item : Value) : outcome AgentStep :=
  match item with
  | VDict item =>
      let name := default VNone (item !! "name") in
      let system_prompt := default VNone (item !! "system_prompt") in
      let model := default (VStr default_model) (item !! "model") in
      let tools := default (VList (VStr <$> default_tools)) (item !! "tools") in
      match model with
      | VStr (String _ _ as model') =>
          let system_prompt :=
            match system_prompt with
            | VNone => VStr default_prompt
            | _ => system_prompt
            end in
          match system_prompt with
          | VStr system_prompt' =>
              match as_str_list tools with
              | Some tools' =>
                  Ok (mkAgentStep
                        match name with
                        | VStr (String _ _ as name') => name'
                        | _ => "agent_" +:+ pretty (S idx)
                        end
                        system_prompt' model' tools')
              | None =>
                  Raise (ValueError
                    "Each langgraph_agent.agents[].tools must be a list of strings")
              end
          | _ =>
              Raise (ValueError
                "Each langgraph_agent.agents[].system_prompt must be a string")
          end
      | _ =>
          Raise (ValueError
            "Each langgraph_agent.agents[].model must be a non-empty string")
      end
  | _ => Raise (ValueError "langgraph_agent.agents entries must be objects")
  end.

Fixpoint normalize_agents (default_model default_prompt : string)
    (default_tools : list string) (idx : nat) (items : list Value)
  : outcome (list AgentStep) :=
  match items with
  | [] => Ok []
  | item :: rest =>
      step ← normalize_agent default_model default_prompt default_tools idx item;
      steps ← normalize_agents default_model default_prompt default_tools (S idx) rest;
      Ok (step :: steps)
  end.

Definition _normalize_agent_chain (raw_agents : Value)
    (default_model default_prompt : string) (default_tools : list string)
  : outcome (list AgentStep) :=
  match raw_agents with
  | VNone => Ok []
  | VList ((_ :: _) as items) =>
      normalize_agents default_model default_prompt default_tools 0 items
  | _ => Raise (ValueError "langgraph_agent.agents must be a non-empty list")
  end.

(** What [langgraph_agent_handler] has in hand when the configuration has
    been validated: the settings, the prompt, the tools and the chain. *)
Record Configured := mkConfigured {
  c_settings : CommonSettings;
  c_system_prompt : string;
  c_tools : list string;
  c_agent_chain : list AgentStep;
}.

(** An entry of [trace]. *)
Definition trace_entry (agent_cfg : AgentStep) (output_text : string) : Value :=
  VDict (<["name" := VStr (step_name agent_cfg)]>
        (<["model" := VStr (step_model agent_cfg)]>
        (<["tools" := VList (VStr <$> step_tools agent_cfg)]>
        (<["output" := VStr output_text]> ∅)))).

Section handler.

(** The process-wide configuration; [str] on a value that is not text; and
    the agent stack. [agent_setup] is what comes before the model is
    reached: the imports of [langchain_ollama] and [langgraph] and the
    constructors [ChatOllama] and [create_react_agent], each of which may
    raise. [agent_invoke] is [agent.invoke]. Both may depend on the calls
    made before. *)
Variable defaults : AgentDefaults.
Variable repr : Value → string.
Variable agent_setup : list ModelCall → ModelCall → outcome unit.
Variable agent_invoke : list ModelCall → ModelCall → outcome (gmap string Value).

(** [str(v)] *)
Definition py_str (v : Value) : string :=
  match v with
  | VStr s => s
  | _ => repr v
  end.

(** The text of a part of a message content, when it has one. *)
Definition part_text (item : Value) : option string :=
  match item with
  | VDict d =>
      match d !! "text" with
      | Some (VStr text) => Some text
      | _ => None
      end
  | _ => None
  end.

(** [getattr(last, "content", None)] *)
Definition content_of (last : Value) : Value :=
  match last with
  | VObj _ attrs => default VNone (attrs !! "content")
  | _ => VNone
  end.

Definition _extract_text_from_agent_result (result : gmap string Value) : string :=
  match default VNone (result !! "messages") with
  | VList ((_ :: _) as messages) =>
      let last := default VNone (list.last messages) in
      match content_of last with
      | VStr content => content
      | VList content =>
          match omap part_text content with
          | [] => py_str last
          | parts => join nl parts
          end
      | _ => py_str last
      end
  | _ => py_str (VDict result)
  end.

(** The call [_run_single_agent] prepares. *)
Definition single_agent_call (model system_prompt user_prompt : string)
    (tools : list string) (num_ctx num_predict : Value) (temperature : spec_float)
    (max_tool_calls : Value) : ModelCall :=
  let selected_tools :=
    build_agent_tools (tool_allow_http_domains defaults)
      (tool_tavily_max_results defaults) tools in
  let effective_prompt :=
    if decide ("tavily_search" ∈ tools)
    then system_prompt +:+ nl +:+ tool_preference
    else system_prompt in
  mkModelCall model num_ctx num_predict temperature selected_tools effective_prompt
    user_prompt (Z.max 8 (int_value max_tool_calls * 2 + 2)).

(** [_run_single_agent] after the calls in [history]: the calls that have
    reached the model when it is left, and the text it returns. A call
    reaches the model when the imports and the constructors before it have
    not raised. *)
Definition _run_single_agent (history : list ModelCall)
    (model system_prompt user_prompt : string)
    (tools : list string) (num_ctx num_predict : Value) (temperature : spec_float)
    (max_tool_calls : Value) : list ModelCall * outcome string :=
  let call := single_agent_call model system_prompt user_prompt tools
                num_ctx num_predict temperature max_tool_calls in
  match agent_setup history call with
  | Raise e => (history, Raise e)
  | Ok _ =>
      (history ++ [call],
       result ← agent_invoke history call;
       Ok (_extract_text_from_agent_result result))
  end.

(** [langgraph_agent_handler] up to the normalised chain: the parameters
    with their defaults, and their validation. *)
Definition configure (params : gmap string Value) : outcome Configured :=
  let model := default (VStr (default_model defaults)) (params !! "model") in
  let system_prompt :=
    default (VStr (default_system_prompt defaults)) (params !! "system_prompt") in
  let input_field :=
    default (VStr (default_input_field defaults)) (params !! "input_field") in
  let num_ctx := default (VInt (default_num_ctx defaults)) (params !! "num_ctx") in
  let num_predict :=
    default (VInt (default_num_predict defaults)) (params !! "num_predict") in
  let temperature :=
    default (VFloat (default_temperature defaults)) (params !! "temperature") in
  let tools := default (VList (VStr <$> default_tools defaults)) (params !! "tools") in
  let max_tool_calls :=
    default (VInt (default_max_tool_calls defaults)) (params !! "max_tool_calls") in
  let agents := default VNone (params !! "agents") in
  match system_prompt with
  | VStr system_prompt' =>
      match as_str_list tools with
      | Some tools' =>
          settings ← _validate_common_settings model input_field num_ctx
                       num_predict temperature max_tool_calls;
          agent_chain ← _normalize_agent_chain agents (cs_model settings)
                          system_prompt' tools';
          Ok (mkConfigured settings system_prompt' tools' agent_chain)
      | None => Raise (ValueError "langgraph_agent.tools must be a list of tool names")
      end
  | _ => Raise (ValueError "langgraph_agent.system_prompt must be a string")
  end.

(** [prompt_value = payload.get(input_field)] and the text of it. *)
Definition read_input (cfg : Configured) (payload : gmap string Value)
  : outcome string :=
  let input_field := cs_input_field (c_settings cfg) in
  match default VNone (payload !! input_field) with
  | VNone => Raise (ValueError (missing_input_field input_field))
  | prompt_value => Ok (py_str prompt_value)
  end.

(** The [for idx, agent_cfg in enumerate(agent_chain)] loop; [history]
    collects the calls that reached the model. *)
Fixpoint run_chain (settings : CommonSettings) (original_input : string)
    (agent_chain : list AgentStep) (idx : nat) (running_context : string)
    (trace : list Value) (history : list ModelCall)
  : list ModelCall * outcome (string * list Value) :=
  match agent_chain with
  | [] => (history, Ok (running_context, trace))
  | agent_cfg :: rest =>
      let step_input :=
        match idx with
        | O => running_context
        | S _ => continue_prompt original_input running_context
        end in
      let '(history', r) :=
        _run_single_agent history (step_model agent_cfg)
          (step_system_prompt agent_cfg) step_input (step_tools agent_cfg)
          (cs_num_ctx settings) (cs_num_predict settings) (cs_temperature settings)
          (cs_max_tool_calls settings) in
      match r with
      | Raise e => (history', Raise e)
      | Ok output_text =>
          let running_context :=
            match strip output_text with
            | EmptyString => running_context
            | _ => output_text
            end in
          run_chain settings original_input rest (S idx) running_context
            (trace ++ [trace_entry agent_cfg output_text]) history'
      end
  end.

(** The [try] block: the text output and the trace. *)
Definition execute (cfg : Configured) (original_input : string)
  : list ModelCall * outcome (string * list Value) :=
  let settings := c_settings cfg in
  let '(calls, r) :=
    match c_agent_chain cfg with
    | [] =>
        let '(calls, r) :=
          _run_single_agent [] (cs_model settings) (c_system_prompt cfg)
            original_input (c_tools cfg) (cs_num_ctx settings)
            (cs_num_predict settings) (cs_temperature settings)
            (cs_max_tool_calls settings) in
        (calls, output_text ← r; Ok (output_text, []))
    | agent_chain =>
        run_chain settings original_input agent_chain 0 original_input [] []
    end in
  match r with
  | Raise (ImportError _) => (calls, Raise (RuntimeError missing_dependencies))
  | _ => (calls, r)
  end.

(** The payload built after the [try]. *)
Definition merge_output (payload : gmap string Value) (cfg : Configured)
    (output_text : string) (trace : list Value) : gmap string Value :=
  let merged := payload in
  let merged := <["agent_output" := VStr output_text]> merged in
  let merged := <["agent_model" := VStr (cs_model (c_settings cfg))]> merged in
  let merged := <["agent_num_ctx" := cs_num_ctx (c_settings cfg)]> merged in
  let merged := <["agent_num_predict" := cs_num_predict (c_settings cfg)]> merged in
  let merged := <["agent_tools" := VList (VStr <$> c_tools cfg)]> merged in
  match trace with
  | [] => merged
  | _ =>
      <["agent_count" := VInt (Z.of_nat (length trace))]>
        (<["agent_trace" := VList trace]> merged)
  end.

(** [langgraph_agent_handler], with the calls that reached the model. *)
Definition langgraph_agent_handler (params payload : gmap string Value)
  : list ModelCall * outcome (gmap string Value) :=
  match configure params with
  | Raise e => ([], Raise e)
  | Ok cfg =>
      match read_input cfg payload with
      | Raise e => ([], Raise e)
      | Ok original_input =>
          match execute cfg original_input with
          | (calls, Raise e) => (calls, Raise e)
          | (calls, Ok (output_text, trace)) =>
              (calls, Ok (merge_output payload cfg output_text trace))
          end
      end
  end.

End handler.

End Agent.
Export Agent.

(** ** Texts: concatenation and whitespace *)

Lemma string_app_empty s : s +:+ "" = s.
Proof.
  induction s as [|c s IH]; [done|].
  change (String c (s +:+ "") = String c s). by rewrite IH.
Qed.

Lemma string_app_assoc s t u : (s +:+ t) +:+ u = s +:+ (t +:+ u).
Proof.
  induction s as [|c s IH]; [done|].
  change (String c ((s +:+ t) +:+ u) = String c (s +:+ (t +:+ u))). by rewrite IH.
Qed.

Lemma string_app_length s t :
  String.length (s +:+ t) = (String.length s + String.length t)%nat.
Proof.
  induction s as [|c s IH]; [done|].
  change (S (String.length (s +:+ t)) = S (String.length s + String.length t)).
  by rewrite IH.
Qed.

Lemma string_app_nil s t : s +:+ t = "" → s = "" ∧ t = "".
Proof. by destruct s. Qed.

(** A text of whitespace characters only, the empty text included. *)
Inductive blank : string → Prop :=
| blank_empty : blank ""
| blank_space w s : w ∈ whitespace → blank s → blank (w +:+ s).

(** The text neither starts nor ends with a whitespace character. *)
Definition trimmed (s : string) : Prop :=
  ∀ w, w ∈ whitespace → (∀ r, s ≠ w +:+ r) ∧ (∀ p, s ≠ p +:+ w).

Lemma strip_prefix_Some prefix s r : strip_prefix prefix s = Some r ↔ s = prefix +:+ r.
Proof.
  revert s. induction prefix as [|c prefix IH]; intros s; simpl.
  - change ("" +:+ r) with r. split; [by intros [= ->]|by intros ->].
  - change (String c prefix +:+ r) with (String c (prefix +:+ r)).
    destruct s as [|c' s]; [done|].
    destruct (Ascii.eqb c c') eqn:Hc.
    + apply Ascii.eqb_eq in Hc as ->. rewrite IH. split; [by intros ->|by intros [= ->]].
    + apply Ascii.eqb_neq in Hc. split; [done|]. by intros [= <- _].
Qed.

Lemma skip_any_Some prefixes s r :
  skip_any prefixes s = Some r → ∃ w, w ∈ prefixes ∧ s = w +:+ r.
Proof.
  induction prefixes as [|w ws IH]; simpl; [done|].
  destruct (strip_prefix w s) as [s'|] eqn:Hw.
  - intros [= ->]. exists w. split; [left|]. by apply strip_prefix_Some.
  - intros (w' & Hin & Hs)%IH. exists w'. split; [by right|done].
Qed.

Lemma skip_any_None prefixes s w r :
  skip_any prefixes s = None → w ∈ prefixes → s ≠ w +:+ r.
Proof.
  induction prefixes as [|w' ws IH]; simpl; [by intros _ ?%elem_of_nil|].
  destruct (strip_prefix w' s) as [s'|] eqn:Hw; [done|].
  intros Hnone [->|Hin]%elem_of_cons; [|by apply IH].
  intros Hs%strip_prefix_Some. by rewrite Hs in Hw.
Qed.

Ltac each_whitespace H :=
  unfold whitespace in H;
  repeat (apply elem_of_cons in H as [->|H]); [..|by apply elem_of_nil in H].

(** No whitespace character is the start of another one. *)
Lemma skip_space_app w r : w ∈ whitespace → skip_space (w +:+ r) = Some r.
Proof. intros Hw. each_whitespace Hw; reflexivity. Qed.

Lemma whitespace_nonempty w : w ∈ whitespace → (0 < String.length w)%nat.
Proof. intros Hw. each_whitespace Hw; simpl; lia. Qed.

Lemma whitespace_ne w : w ∈ whitespace → w ≠ "".
Proof. intros Hw%whitespace_nonempty ->. simpl in Hw. lia. Qed.

Lemma skip_space_Some s r : skip_space s = Some r → ∃ w, w ∈ whitespace ∧ s = w +:+ r.
Proof. apply skip_any_Some. Qed.

Lemma skip_space_None s :
  skip_space s = None ↔ ∀ w r, w ∈ whitespace → s ≠ w +:+ r.
Proof.
  split.
  - intros Hnone w r Hw. by apply (skip_any_None whitespace).
  - intros Hno. destruct (skip_space s) as [r|] eqn:Hs; [|done].
    apply skip_space_Some in Hs as (w & Hw & ->). by destruct (Hno w r Hw).
Qed.

Lemma lstrip_upto_spec n s :
  (String.length s ≤ n)%nat →
  ∃ p, blank p ∧ s = p +:+ lstrip_upto n s ∧ skip_space (lstrip_upto n s) = None.
Proof.
  revert s. induction n as [|n IH]; intros s Hlen; simpl.
  - destruct s; [|simpl in Hlen; lia]. exists "". by split_and!; [constructor|..].
  - destruct (skip_space s) as [s'|] eqn:Hs.
    + apply skip_space_Some in Hs as (w & Hw & ->).
      pose proof (whitespace_nonempty w Hw). rewrite string_app_length in Hlen.
      destruct (IH s') as (p & Hp & Heq & Hnone); [lia|].
      exists (w +:+ p). split_and!; [by constructor| |done].
      by rewrite string_app_assoc, <- Heq.
    + exists "". by split_and!; [constructor|..].
Qed.

Lemma lstrip_upto_unique n p t :
  blank p → skip_space t = None → (String.length (p +:+ t) ≤ n)%nat →
  lstrip_upto n (p +:+ t) = t.
Proof.
  intros Hp Ht. revert n. induction Hp as [|w p Hw Hp IH]; intros n Hlen.
  - change ("" +:+ t) with t. destruct n; simpl; [done|]. by rewrite Ht.
  - rewrite string_app_assoc in *. pose proof (whitespace_nonempty w Hw).
    rewrite string_app_length in Hlen.
    destruct n as [|n]; [lia|]. simpl. rewrite skip_space_app by done.
    apply IH. lia.
Qed.

Lemma lstrip_spec s :
  ∃ p, blank p ∧ s = p +:+ lstrip s ∧ skip_space (lstrip s) = None.
Proof. by apply lstrip_upto_spec. Qed.

Lemma lstrip_unique p t : blank p → skip_space t = None → lstrip (p +:+ t) = t.
Proof. intros Hp Ht. by apply lstrip_upto_unique. Qed.

Lemma lstrip_fixed t : skip_space t = None → lstrip t = t.
Proof. intros Ht. by apply (lstrip_unique "" t); [constructor|]. Qed.

Lemma lstrip_blank_app p s : blank p → lstrip (p +:+ s) = lstrip s.
Proof.
  intros Hp. destruct (lstrip_spec s) as (q & Hq & Heq & Hnone).
  rewrite Heq at 1. rewrite <- string_app_assoc. apply lstrip_unique; [|done].
  clear Heq. induction Hp as [|w p Hw Hp IH]; [done|].
  rewrite string_app_assoc. by constructor.
Qed.

Lemma blank_app p q : blank p → blank q → blank (p +:+ q).
Proof.
  induction 1 as [|w p Hw Hp IH]; intros Hq; [done|].
  rewrite string_app_assoc. constructor; [done|]. by apply IH.
Qed.

Lemma lstrip_empty s : lstrip s = "" ↔ blank s.
Proof.
  split.
  - intros Hs. destruct (lstrip_spec s) as (p & Hp & Heq & _).
    rewrite Hs, string_app_empty in Heq. by subst.
  - intros Hs. rewrite <- (string_app_empty s). by apply lstrip_unique.
Qed.

(** A non-empty blank text ends with a whitespace character. *)
Lemma blank_last s : blank s → s ≠ "" → ∃ p w, w ∈ whitespace ∧ s = p +:+ w.
Proof.
  induction 1 as [|w s Hw Hs IH]; intros Hne; [done|].
  destruct s as [|c s'] eqn:Heq.
  - exists "", w. by rewrite string_app_empty.
  - destruct IH as (p & w' & Hw' & Hp); [done|].
    exists (w +:+ p), w'. split; [done|]. by rewrite string_app_assoc, <- Hp.
Qed.

Lemma rstrip_spec s :
  ∃ tail, blank tail ∧ s = rstrip s +:+ tail ∧
          ∀ w p, w ∈ whitespace → rstrip s ≠ p +:+ w.
Proof.
  induction s as [|c s (tail & Htail & Heq & Hend)].
  - exists "". split_and!; [constructor|done|]. intros w p Hw. simpl.
    intros [_ ->]%eq_sym%string_app_nil. by apply whitespace_ne in Hw.
  - cbn [rstrip]. destruct (lstrip (String c s)) as [|c0 l] eqn:Hl.
    + exists (String c s). split_and!; [by apply lstrip_empty|done|].
      intros w p Hw [_ ->]%eq_sym%string_app_nil. by apply whitespace_ne in Hw.
    + exists tail. split_and!; [done| |].
      * change (String c s = String c (rstrip s +:+ tail)). by rewrite <- Heq.
      * intros w p Hw Hp. destruct p as [|c' p].
        -- change ("" +:+ w) with w in Hp.
           assert (blank (String c s)) as Hb%lstrip_empty; [|by rewrite Hb in Hl].
           rewrite Heq.
           change (String c (rstrip s +:+ tail)) with (String c (rstrip s) +:+ tail).
           rewrite Hp. by constructor.
        -- change (String c' p +:+ w) with (String c' (p +:+ w)) in Hp.
           injection Hp as _ Hp. by apply (Hend w p).
Qed.

Lemma rstrip_fixed s : (∀ w p, w ∈ whitespace → s ≠ p +:+ w) → rstrip s = s.
Proof.
  induction s as [|c s IH]; intros Hend; [done|]. cbn [rstrip].
  destruct (lstrip (String c s)) as [|c0 l] eqn:Hl.
  - apply lstrip_empty in Hl. destruct (blank_last _ Hl) as (p & w & Hw & Hp); [done|].
    by destruct (Hend w p Hw).
  - f_equal. apply IH. intros w p Hw ->. by apply (Hend w (String c p)).
Qed.

Lemma rstrip_empty s : rstrip s = "" ↔ blank s.
Proof.
  rewrite <- lstrip_empty. destruct s as [|c s]; [done|]. cbn [rstrip].
  by destruct (lstrip (String c s)).
Qed.

Lemma strip_empty s : strip s = "" ↔ blank s.
Proof.
  unfold strip. rewrite rstrip_empty, <- !lstrip_empty.
  destruct (lstrip_spec s) as (p & _ & _ & Hnone). by rewrite (lstrip_fixed _ Hnone).
Qed.

(** What [strip] leaves has no whitespace at either end. *)
Lemma strip_trimmed s : trimmed (strip s).
Proof.
  unfold strip. destruct (lstrip_spec s) as (p & _ & _ & Hnone).
  destruct (rstrip_spec (lstrip s)) as (tail & _ & Heq & Hend).
  intros w Hw. split; [|intros q; by apply Hend].
  intros r Hr. rewrite Hr, string_app_assoc in Heq.
  rewrite skip_space_None in Hnone. by apply (Hnone w (r +:+ tail) Hw).
Qed.

Lemma strip_fixed s : trimmed s → strip s = s.
Proof.
  intros Hs. unfold strip. rewrite lstrip_fixed.
  - apply rstrip_fixed. intros w p Hw. by destruct (Hs w Hw) as [_ ?].
  - apply skip_space_None. intros w r Hw. by destruct (Hs w Hw) as [? _].
Qed.

Lemma strip_blank_app p s : blank p → strip (p +:+ s) = strip s.
Proof. intros Hp. unfold strip. by rewrite lstrip_blank_app. Qed.

(** [strip] takes a blank text off each end. *)
Lemma strip_spec s : ∃ p q, blank p ∧ blank q ∧ s = p +:+ strip s +:+ q.
Proof.
  unfold strip. destruct (lstrip_spec s) as (p & Hp & Heq & _).
  destruct (rstrip_spec (lstrip s)) as (q & Hq & Heq' & _).
  exists p, q. split_and!; [done..|]. by rewrite <- Heq', <- Heq.
Qed.

(** ** Ordered dictionaries: reading, writing, keys *)

Section odict_facts.
Context {V : Type}.
Implicit Types (d : odict V) (k : string) (v : V).

Lemma odict_get_set k k' v d :
  odict_get k' (odict_set k v d) = if decide (k' = k) then Some v else odict_get k' d.
Proof.
  induction d as [|[k0 v0] d IH]; simpl.
  - by destruct (decide (k' = k)).
  - destruct (decide (k = k0)) as [->|Hne]; simpl.
    + by destruct (decide (k' = k0)).
    + destruct (decide (k' = k0)) as [->|Hne'].
      * by rewrite decide_False by done.
      * by rewrite IH.
Qed.

Lemma odict_set_keys k v d x :
  x ∈ (odict_set k v d).*1 ↔ x = k ∨ x ∈ d.*1.
Proof.
  induction d as [|[k0 v0] d IH]; simpl.
  - set_solver.
  - destruct (decide (k = k0)) as [->|Hne]; simpl; set_solver.
Qed.

Lemma odict_set_wf k v d : odict_wf d → odict_wf (odict_set k v d).
Proof.
  unfold odict_wf. induction d as [|[k0 v0] d IH]; simpl; intros Hd.
  - apply NoDup_singleton.
  - inversion Hd as [|?? Hnotin Hd']; subst.
    destruct (decide (k = k0)) as [->|Hne]; simpl.
    + by constructor.
    + constructor; [|by apply IH].
      rewrite odict_set_keys. naive_solver.
Qed.

Lemma odict_get_Some_elem k v d : odict_get k d = Some v → (k, v) ∈ d.
Proof.
  induction d as [|[k0 v0] d IH]; simpl; [done|].
  destruct (decide (k = k0)) as [->|Hne]; intros H.
  - inversion H; subst. by left.
  - right. by apply IH.
Qed.

Lemma odict_get_None k d : odict_get k d = None ↔ k ∉ d.*1.
Proof.
  induction d as [|[k0 v0] d IH]; simpl.
  - set_solver.
  - destruct (decide (k = k0)) as [->|Hne]; set_solver.
Qed.

Lemma odict_elem_get k v d : odict_wf d → (k, v) ∈ d → odict_get k d = Some v.
Proof.
  unfold odict_wf. induction d as [|[k0 v0] d IH]; simpl; intros Hd Hin.
  - by apply elem_of_nil in Hin.
  - inversion Hd as [|?? Hnotin Hd']; subst.
    apply elem_of_cons in Hin as [Heq|Hin].
    + inversion Heq; subst. by rewrite decide_True.
    + destruct (decide (k = k0)) as [->|Hne]; [|by apply IH].
      exfalso. apply Hnotin. apply list_elem_of_fmap. by exists (k0, v).
Qed.

End odict_facts.

(** ** The graph of a workflow *)

Module Graph.

(** The node ids of a workflow, in declaration order. *)
Definition node_ids (ns : list Node) : list string := id <$> ns.

(** [s → t]: the edge map lists [t] among the targets of [s]. *)
Definition edge (es : odict (list string)) (s t : string) : Prop :=
  ∃ ts, (s, ts) ∈ es ∧ t ∈ ts.

(** Every source and every target of the edge map is the id of a node. *)
Definition endpoints_exist (ns : list Node) (es : odict (list string)) : Prop :=
  ∀ s ts, (s, ts) ∈ es → s ∈ node_ids ns ∧ ∀ t, t ∈ ts → t ∈ node_ids ns.

(** [x] is named by the edge map, as a source or as a target, and is the
    id of no node. *)
Definition dangling (ns : list Node) (es : odict (list string)) (x : string) : Prop :=
  (x ∉ node_ids ns) ∧ ∃ s ts, (s, ts) ∈ es ∧ (x = s ∨ x ∈ ts).

(** A cycle among one or more nodes: a node reaches itself along one or
    more edges. *)
Definition cyclic (es : odict (list string)) : Prop := ∃ x, tc (edge es) x x.

Definition acyclic (es : odict (list string)) : Prop := ∀ x, ¬ tc (edge es) x x.

(** The conditions of the error taxonomy; the code raises [ValueError]
    for each and tells them apart by the message. *)
Definition UnknownNodeReference (x : string) (e : exn) : Prop :=
  e = ValueError ("Unknown source node in edges: " +:+ x) ∨
  e = ValueError ("Unknown target node in edges: " +:+ x).

Definition CyclicGraph (e : exn) : Prop :=
  e = ValueError "Workflow graph has a cycle".

End Graph.
Export Graph.

(** ** The dictionaries of [_topological_sort] *)

Section node_map.

Lemma node_map_acc_lookup (ns : list Node) (m : gmap string Node) k n :
  foldl (λ m n, <[id n := n]> m) m ns !! k = Some n →
  (n ∈ ns ∧ id n = k) ∨ m !! k = Some n.
Proof.
  revert m. induction ns as [|n0 ns IH]; simpl; intros m H; [by right|].
  apply IH in H as [[Hin Hid]|H].
  - left. split; [by right|done].
  - destruct (decide (id n0 = k)) as [<-|Hne].
    + rewrite lookup_insert_eq in H. inversion H; subst. left. split; [by left|done].
    + rewrite lookup_insert_ne in H by done. by right.
Qed.

Lemma node_map_acc_is_Some (ns : list Node) (m : gmap string Node) k :
  is_Some (foldl (λ m n, <[id n := n]> m) m ns !! k) ↔
  k ∈ node_ids ns ∨ is_Some (m !! k).
Proof.
  revert m. induction ns as [|n0 ns IH]; simpl; intros m.
  - unfold node_ids. set_solver.
  - rewrite IH. unfold node_ids. rewrite elem_of_cons.
    destruct (decide (id n0 = k)) as [<-|Hne].
    + rewrite lookup_insert_eq. naive_solver.
    + rewrite lookup_insert_ne by done. naive_solver.
Qed.

Lemma node_map_lookup ns k n :
  node_map_of ns !! k = Some n → n ∈ ns ∧ id n = k.
Proof.
  intros H. apply node_map_acc_lookup in H as [H|H]; [done|].
  by rewrite lookup_empty in H.
Qed.

Lemma node_map_is_Some ns k :
  is_Some (node_map_of ns !! k) ↔ k ∈ node_ids ns.
Proof.
  unfold node_map_of. rewrite node_map_acc_is_Some, lookup_empty.
  split; [intros [H|H]; [done|by destruct H]|by left].
Qed.

Lemma node_map_None ns k : node_map_of ns !! k = None ↔ k ∉ node_ids ns.
Proof. rewrite <- node_map_is_Some, eq_None_not_Some. done. Qed.

End node_map.

(** ** Counting in-degrees and validating the endpoints *)

(** How often [t] occurs in a target list. *)
Definition occ (t : string) (ts : list string) : nat :=
  length (filter (λ x, x = t) ts).

(** The edges into [t] (with multiplicity) from sources not yet in [done]. *)
Fixpoint pending (es : odict (list string)) (done : list string) (t : string) : nat :=
  match es with
  | [] => 0%nat
  | (s, ts) :: es' =>
      ((if decide (s ∈ done) then 0 else occ t ts) + pending es' done t)%nat
  end.

Section counting.
Implicit Types (nm : gmap string Node) (d : odict Z) (ts : list string).

Lemma occ_cons t x ts :
  occ t (x :: ts) = ((if decide (x = t) then 1 else 0) + occ t ts)%nat.
Proof. unfold occ. rewrite filter_cons. by destruct (decide (x = t)). Qed.

Lemma occ_pos t ts : t ∈ ts ↔ (0 < occ t ts)%nat.
Proof.
  induction ts as [|x ts IH].
  - split; [by intros ?%elem_of_nil|unfold occ; simpl; lia].
  - rewrite occ_cons, elem_of_cons. destruct (decide (x = t)) as [->|Hne].
    + split; [lia|by left].
    + rewrite IH. split; [intros [?|?]; [congruence|lia]|intros ?; right; lia].
Qed.

Lemma occ_zero t ts : t ∉ ts ↔ occ t ts = 0%nat.
Proof. rewrite occ_pos. lia. Qed.

Lemma indegree_at_set d k v k' :
  indegree_at (odict_set k v d) k' = if decide (k' = k) then v else indegree_at d k'.
Proof. unfold indegree_at. rewrite odict_get_set. by destruct (decide (k' = k)). Qed.

Lemma count_targets_Ok nm ts d d' :
  count_targets nm ts d = Ok d' →
  (∀ t, t ∈ ts → is_Some (nm !! t)) ∧
  (∀ k, indegree_at d' k = indegree_at d k + Z.of_nat (occ k ts)) ∧
  (odict_wf d → odict_wf d') ∧
  (∀ k, k ∈ d'.*1 ↔ k ∈ d.*1 ∨ k ∈ ts).
Proof.
  revert d. induction ts as [|t ts IH]; simpl; intros d H.
  - inversion H; subst. split_and!; try done.
    + by intros t ?%elem_of_nil.
    + intros k. unfold occ. simpl. lia.
    + intros k. set_solver.
  - destruct (nm !! t) as [n|] eqn:Hn; [|done].
    apply IH in H as (Hall & Hdeg & Hwf & Hkeys). split_and!.
    + intros t' [->|Hin]%elem_of_cons; [by rewrite Hn|by apply Hall].
    + intros k. rewrite Hdeg, indegree_at_set, occ_cons.
      destruct (decide (k = t)) as [->|Hne].
      * rewrite decide_True by done. lia.
      * rewrite decide_False by done. lia.
    + intros Hd. by apply Hwf, odict_set_wf.
    + intros k. rewrite Hkeys, odict_set_keys, elem_of_cons. naive_solver.
Qed.

Lemma count_targets_Raise nm ts d e :
  count_targets nm ts d = Raise e →
  ∃ t, t ∈ ts ∧ nm !! t = None ∧
       e = ValueError ("Unknown target node in edges: " +:+ t).
Proof.
  revert d. induction ts as [|t ts IH]; simpl; intros d H; [done|].
  destruct (nm !! t) as [n|] eqn:Hn.
  - apply IH in H as (t' & Hin & Hnone & ->). exists t'. split_and!; [by right|done..].
  - inversion H; subst. exists t. split_and!; [by left|done..].
Qed.

Lemma count_edges_Ok nm es d d' :
  count_edges nm es d = Ok d' →
  (∀ s ts, (s, ts) ∈ es → is_Some (nm !! s) ∧ ∀ t, t ∈ ts → is_Some (nm !! t)) ∧
  (∀ k, indegree_at d' k = indegree_at d k + Z.of_nat (pending es [] k)) ∧
  (odict_wf d → odict_wf d') ∧
  (∀ k, k ∈ d'.*1 ↔ k ∈ d.*1 ∨ ∃ s ts, (s, ts) ∈ es ∧ k ∈ ts).
Proof.
  revert d. induction es as [|[s ts] es IH]; simpl; intros d H.
  - inversion H; subst. split_and!; try done.
    + by intros s ts ?%elem_of_nil.
    + intros k. lia.
    + intros k. split; [by left|]. intros [?|(s & ts & ?%elem_of_nil & _)]; done.
  - destruct (nm !! s) as [n|] eqn:Hn; [|done].
    destruct (count_targets nm ts d) as [d1|e1] eqn:Hts; [|done]. simpl in H.
    apply count_targets_Ok in Hts as (Hall1 & Hdeg1 & Hwf1 & Hkeys1).
    apply IH in H as (Hall & Hdeg & Hwf & Hkeys). split_and!.
    + intros s' ts' [Heq|Hin]%elem_of_cons; [|by apply Hall].
      inversion Heq; subst. by rewrite Hn.
    + intros k. rewrite Hdeg, Hdeg1. cbn [pending]. lia.
    + intros Hd. by apply Hwf, Hwf1.
    + intros k. rewrite Hkeys, Hkeys1. split.
      * intros [[?|?]|(s' & ts' & Hin & Hk)]; [by left| |].
        -- right. exists s, ts. split; [by left|done].
        -- right. exists s', ts'. split; [by right|done].
      * intros [?|(s' & ts' & [Heq|Hin]%elem_of_cons & Hk)]; [by left; left| |].
        -- inversion Heq; subst. by left; right.
        -- right. by exists s', ts'.
Qed.

Lemma count_edges_Raise nm es d e :
  count_edges nm es d = Raise e →
  ∃ x, UnknownNodeReference x e ∧ nm !! x = None ∧
       ∃ s ts, (s, ts) ∈ es ∧ (x = s ∨ x ∈ ts).
Proof.
  revert d. induction es as [|[s ts] es IH]; simpl; intros d H; [done|].
  destruct (nm !! s) as [n|] eqn:Hn.
  - destruct (count_targets nm ts d) as [d1|e1] eqn:Hts; simpl in H.
    + apply IH in H as (x & Hx & Hnone & s' & ts' & Hin & Hor).
      exists x. split_and!; [done..|]. exists s', ts'. split; [by right|done].
    + inversion H; subst.
      apply count_targets_Raise in Hts as (t & Hin & Hnone & ->).
      exists t. split_and!; [by right|done|]. exists s, ts. split; [by left|by right].
  - inversion H; subst. exists s. split_and!; [by left|done|].
    exists s, ts. split; [by left|by left].
Qed.

End counting.

(** ** Edges that name a missing node *)

(** C4. When the edge map names, as a source or as a target, an id that no
    node of the workflow has, [run] raises the error of an unknown node
    reference, naming an id the edge map mentions and no node has, and no
    handler has been invoked. *)
Theorem run_unknown_node_reference (registry : NodeRegistry) (w : Workflow)
    (input_data : gmap string Value) (x : string) :
  dangling (nodes w) (edges w) x →
  ∃ y e, dangling (nodes w) (edges w) y ∧ UnknownNodeReference y e ∧
         run registry w input_data = Some ([], Raise e).
Proof.
  intros [Hx (s & ts & Hin & Hor)]. unfold run, _topological_sort.
  destruct (count_edges _ _ _) as [d|e] eqn:Hcount.
  - exfalso. apply count_edges_Ok in Hcount as (Hall & _).
    destruct (Hall s ts Hin) as [Hs Hts]. apply Hx, node_map_is_Some.
    destruct Hor as [->|Ht]; [done|by apply Hts].
  - apply count_edges_Raise in Hcount as (y & Hy & Hnone & Hmention).
    exists y, e. split_and!; [|done..].
    split; [by apply node_map_None|done].
Qed.

(** ** The queue loop of Kahn's algorithm *)

Section pending_facts.
Implicit Types (es : odict (list string)) (done ts : list string) (s t : string).

Lemma pending_fresh es done s t :
  s ∉ es.*1 → pending es (done ++ [s]) t = pending es done t.
Proof.
  induction es as [|[k ts] es IH]; simpl; intros Hs; [done|].
  apply not_elem_of_cons in Hs as [Hne Hs]. rewrite IH by done. f_equal.
  destruct (decide (k ∈ done)) as [Hin|Hnotin].
  - rewrite decide_True; [done|]. apply elem_of_app. by left.
  - rewrite decide_False; [done|].
    intros [?|?%list_elem_of_singleton]%elem_of_app; [done|congruence].
Qed.

Lemma pending_snoc es done s t :
  odict_wf es → s ∉ done →
  pending es done t =
  (pending es (done ++ [s]) t + occ t (default [] (odict_get s es)))%nat.
Proof.
  unfold odict_wf. induction es as [|[k ts] es IH]; simpl; intros Hwf Hs.
  - unfold occ. simpl. lia.
  - inversion Hwf as [|?? Hk Hwf']; subst.
    destruct (decide (s = k)) as [->|Hne]; simpl.
    + rewrite decide_False by done.
      rewrite decide_True by (apply elem_of_app; right; by left).
      rewrite pending_fresh by done. lia.
    + rewrite (IH Hwf' Hs).
      destruct (decide (k ∈ done)) as [Hin|Hnotin].
      * rewrite decide_True by (apply elem_of_app; by left). lia.
      * rewrite decide_False; [lia|].
        intros [?|?%list_elem_of_singleton]%elem_of_app; [done|congruence].
Qed.

Lemma pending_zero_preds es done t s ts :
  pending es done t = 0%nat → (s, ts) ∈ es → t ∈ ts → s ∈ done.
Proof.
  induction es as [|[k ts'] es IH]; simpl; intros Hz Hin Ht.
  - by apply elem_of_nil in Hin.
  - apply elem_of_cons in Hin as [Heq|Hin].
    + inversion Heq; subst. destruct (decide (k ∈ done)); [done|].
      apply occ_pos in Ht. lia.
    + apply IH; [lia|done..].
Qed.

Lemma pending_pos es done t :
  pending es done t ≠ 0%nat → ∃ s ts, (s, ts) ∈ es ∧ (s ∉ done) ∧ t ∈ ts.
Proof.
  induction es as [|[k ts] es IH]; simpl; intros Hnz; [done|].
  destruct (decide (k ∈ done)) as [Hin|Hnotin].
  - destruct IH as (s & ts' & ? & ? & ?); [lia|]. exists s, ts'. by split; [right|].
  - destruct (decide (occ t ts = 0%nat)) as [Hz|Hnz'].
    + destruct IH as (s & ts' & ? & ? & ?); [lia|]. exists s, ts'. by split; [right|].
    + exists k, ts. split_and!; [by left|done|]. apply occ_pos. lia.
Qed.

End pending_facts.

(** The inner loop lowers every in-degree by the number of times the target
    is listed, and enqueues, once, the targets that reach zero. *)
Lemma relax_spec (ts : list string) (indegree : odict Z) (queue : list string) :
  (∀ t, Z.of_nat (occ t ts) ≤ indegree_at indegree t) →
  ∃ indegree' new,
    relax ts indegree queue = (indegree', queue ++ new) ∧
    (∀ t, indegree_at indegree' t = indegree_at indegree t - Z.of_nat (occ t ts)) ∧
    NoDup new ∧
    (∀ t, t ∈ new ↔ t ∈ ts ∧ indegree_at indegree t = Z.of_nat (occ t ts)).
Proof.
  revert indegree queue. induction ts as [|t0 ts IH]; intros indegree queue Hle.
  - exists indegree, []. simpl. rewrite app_nil_r. split_and!; [done| |constructor|].
    + intros t. unfold occ. simpl. lia.
    + intros t. split; [by intros ?%elem_of_nil|by intros [?%elem_of_nil _]].
  - simpl. set (d := indegree_at indegree t0 - 1).
    set (indegree1 := odict_set t0 d indegree).
    assert (Hle1 : ∀ t, Z.of_nat (occ t ts) ≤ indegree_at indegree1 t).
    { intros t. unfold indegree1. rewrite indegree_at_set.
      specialize (Hle t). rewrite occ_cons in Hle.
      destruct (decide (t = t0)) as [->|Hne].
      - rewrite decide_True in Hle by done. unfold d. lia.
      - rewrite decide_False in Hle by done. lia. }
    destruct (IH indegree1 (if decide (d = 0) then queue ++ [t0] else queue) Hle1)
      as (indegree' & new1 & Hrel & Hdeg & Hnd & Hnew).
    assert (Hd0 : d = 0 → t0 ∉ new1).
    { intros Hd [Hin Heq]%Hnew. apply occ_pos in Hin.
      unfold indegree1 in Heq. rewrite indegree_at_set, decide_True in Heq by done. lia. }
    exists indegree', ((if decide (d = 0) then [t0] else []) ++ new1).
    split_and!.
    + rewrite Hrel. f_equal. destruct (decide (d = 0)); simpl; [|done].
      by rewrite <- app_assoc.
    + intros t. rewrite Hdeg. unfold indegree1. rewrite indegree_at_set, occ_cons.
      destruct (decide (t = t0)) as [->|Hne].
      * rewrite decide_True by done. unfold d. lia.
      * rewrite decide_False by done. lia.
    + destruct (decide (d = 0)); simpl; [|done]. constructor; [by apply Hd0|done].
    + intros t. rewrite elem_of_app, Hnew, elem_of_cons. unfold indegree1.
      rewrite indegree_at_set, occ_cons.
      destruct (decide (t = t0)) as [->|Hne].
      * rewrite !(decide_True (P := t0 = t0)) by done. split.
        -- intros [Hin|[Hin Heq]]; (split; [by left|]).
           ++ destruct (decide (d = 0)) as [Hd|]; [|by apply elem_of_nil in Hin].
              specialize (Hle1 t0). unfold indegree1 in Hle1.
              rewrite indegree_at_set, decide_True in Hle1 by done. unfold d in *. lia.
           ++ unfold d in Heq. lia.
        -- intros [_ Heq]. destruct (decide (t0 ∈ ts)) as [Hin|Hnotin].
           ++ right. split; [done|]. unfold d. lia.
           ++ left. apply occ_zero in Hnotin. rewrite decide_True; [by left|].
              unfold d. lia.
      * rewrite (decide_False (P := t0 = t)) by done. split.
        -- intros [Hin|[Hin Heq]].
           ++ destruct (decide (d = 0)); [|by apply elem_of_nil in Hin].
              apply list_elem_of_singleton in Hin. done.
           ++ split; [by right|]. lia.
        -- intros [[?|Hin] Heq]; [done|]. right. split; [done|]. lia.
Qed.

Section indegree_init.

Lemma indegree_acc (ns : list Node) (d : odict Z) :
  let d' := foldl (λ d n, odict_set (id n) 0 d) d ns in
  (odict_wf d → odict_wf d') ∧
  (∀ k, k ∈ d'.*1 ↔ k ∈ d.*1 ∨ k ∈ node_ids ns) ∧
  ((∀ k, indegree_at d k = 0) → ∀ k, indegree_at d' k = 0).
Proof.
  revert d. induction ns as [|n ns IH]; simpl; intros d.
  - split_and!; [done| |done]. intros k. unfold node_ids. set_solver.
  - destruct (IH (odict_set (id n) 0 d)) as (Hwf & Hkeys & Hzero). split_and!.
    + intros Hd. by apply Hwf, odict_set_wf.
    + intros k. rewrite Hkeys, odict_set_keys. unfold node_ids.
      rewrite elem_of_cons. naive_solver.
    + intros Hd. apply Hzero. intros k. rewrite indegree_at_set.
      by destruct (decide (k = id n)).
Qed.

Lemma indegree_init_wf ns : odict_wf (indegree_init ns).
Proof. apply (indegree_acc ns []). apply NoDup_nil_2. Qed.

Lemma indegree_init_keys ns k : k ∈ (indegree_init ns).*1 ↔ k ∈ node_ids ns.
Proof.
  destruct (indegree_acc ns []) as (_ & Hkeys & _). unfold indegree_init.
  rewrite Hkeys. split; [intros [?%elem_of_nil|?]; done|by right].
Qed.

Lemma indegree_init_zero ns k : indegree_at (indegree_init ns) k = 0.
Proof. by apply (indegree_acc ns []). Qed.

Lemma zero_indegree_NoDup (d : odict Z) : odict_wf d → NoDup (zero_indegree d).
Proof.
  intros Hd. unfold zero_indegree. eapply sublist_NoDup; [exact Hd|].
  apply fmap_sublist, sublist_filter.
Qed.

Lemma zero_indegree_elem (d : odict Z) k :
  odict_wf d → k ∈ zero_indegree d ↔ k ∈ d.*1 ∧ indegree_at d k = 0.
Proof.
  intros Hd. unfold zero_indegree, indegree_at.
  rewrite !list_elem_of_fmap. split.
  - intros ([k' v] & -> & [Hv Hin]%list_elem_of_filter). simpl in *. subst v. split.
    + by exists (k', 0).
    + by rewrite (odict_elem_get _ _ _ Hd Hin).
  - intros [([k' v] & -> & Hin) Hz]. simpl in *.
    rewrite (odict_elem_get _ _ _ Hd Hin) in Hz. simpl in Hz. subst v.
    exists (k', 0). split; [done|]. by apply list_elem_of_filter.
Qed.

End indegree_init.

Section kahn.
Variables (ns : list Node) (es : odict (list string)).
Hypothesis Hwf : odict_wf es.
Hypothesis Hvalid : endpoints_exist ns es.

(** What holds each time the [while] test is reached: the ids emitted so
    far and the queued ones are distinct node ids; the in-degree of a node
    counts the edges from sources not yet emitted; the nodes with no such
    edge are exactly the emitted and queued ones; and every emitted node
    comes after all its sources. *)
Record kahn_inv (indegree : odict Z) (queue : list string) (order : list Node)
  : Prop := {
  ki_nodup : NoDup (node_ids order ++ queue);
  ki_ids : ∀ x, x ∈ node_ids order ++ queue → x ∈ node_ids ns;
  ki_deg : ∀ t, indegree_at indegree t = Z.of_nat (pending es (node_ids order) t);
  ki_zero : ∀ t, t ∈ node_ids ns →
    (t ∈ node_ids order ++ queue ↔ pending es (node_ids order) t = 0%nat);
  ki_map : Forall (λ n, node_map_of ns !! id n = Some n) order;
  ki_sorted : ∀ l1 t l2, node_ids order = l1 ++ t :: l2 →
    ∀ s, edge es s t → s ∈ l1;
}.

Lemma targets_valid s t :
  t ∈ default [] (odict_get s es) → t ∈ node_ids ns.
Proof.
  destruct (odict_get s es) as [ts|] eqn:Hget; simpl; [|by intros ?%elem_of_nil].
  apply odict_get_Some_elem in Hget. intros Ht. by apply (Hvalid s ts).
Qed.

Lemma kahn_init indegree :
  count_edges (node_map_of ns) es (indegree_init ns) = Ok indegree →
  kahn_inv indegree (zero_indegree indegree) [].
Proof.
  intros (Hall & Hdeg & Hwfd & Hkeys)%count_edges_Ok.
  specialize (Hwfd (indegree_init_wf ns)).
  assert (Hk : ∀ k, k ∈ indegree.*1 ↔ k ∈ node_ids ns).
  { intros k. rewrite Hkeys, indegree_init_keys. split; [|by left].
    intros [?|(s & ts & Hin & Hk)]; [done|]. by apply (Hvalid s ts). }
  assert (Hd : ∀ t, indegree_at indegree t = Z.of_nat (pending es [] t)).
  { intros t. rewrite Hdeg, indegree_init_zero. lia. }
  split; simpl.
  - by apply zero_indegree_NoDup.
  - intros x [Hx _]%zero_indegree_elem; [|done]. by apply Hk.
  - done.
  - intros t Ht. rewrite zero_indegree_elem by done. rewrite Hd, Hk.
    split; [intros [_ ?]; lia|intros ->; done].
  - constructor.
  - intros l1 t l2 Heq. by destruct l1.
Qed.

Lemma kahn_step indegree s queue order :
  kahn_inv indegree (s :: queue) order →
  ∃ n indegree' queue',
    node_map_of ns !! s = Some n ∧
    relax (default [] (odict_get s es)) indegree queue = (indegree', queue') ∧
    kahn_inv indegree' queue' (order ++ [n]).
Proof.
  intros [Hnd Hids Hdeg Hzero Hmap Hsorted].
  set (done := node_ids order) in *.
  set (ts := default [] (odict_get s es)).
  assert (Hs_ids : s ∈ node_ids ns).
  { apply Hids, elem_of_app. right. by left. }
  assert (Hs_done : s ∉ done).
  { apply NoDup_app in Hnd as (_ & Hdisj & _). intros Hin.
    apply (Hdisj s Hin). by left. }
  destruct (proj2 (node_map_is_Some ns s) Hs_ids) as [n Hn].
  assert (Hidn : id n = s) by (by apply node_map_lookup in Hn as [_ ?]).
  assert (Hdone' : node_ids (order ++ [n]) = done ++ [s]).
  { unfold node_ids, done. by rewrite fmap_app, <- Hidn. }
  assert (Hsnoc : ∀ t, pending es done t =
                       (pending es (done ++ [s]) t + occ t ts)%nat).
  { intros t. by apply pending_snoc. }
  destruct (relax_spec ts indegree queue) as (indegree' & new & Hrel & Hdeg' & Hndnew & Hnew).
  { intros t. rewrite Hdeg, Hsnoc. lia. }
  assert (Hnew_ids : ∀ t, t ∈ new → t ∈ node_ids ns).
  { intros t [Ht _]%Hnew. by apply (targets_valid s). }
  assert (Hnew_fresh : ∀ t, t ∈ new → t ∉ done ++ s :: queue).
  { intros t Ht Hin. apply Hzero in Hin; [|by apply Hnew_ids].
    apply Hnew in Ht as [Ht Heq]. apply occ_pos in Ht.
    rewrite Hdeg, Hin in Heq. fold ts in Ht. lia. }
  assert (Hassoc : (done ++ [s]) ++ queue ++ new = (done ++ s :: queue) ++ new).
  { by rewrite <- !app_assoc. }
  exists n, indegree', (queue ++ new). split_and!; [done..|].
  split; rewrite ?Hdone', ?Hassoc.
  - apply NoDup_app. split_and!; [done| |done].
    intros x Hx Hxnew. by apply (Hnew_fresh x Hxnew).
  - intros x [Hx|Hx]%elem_of_app; [by apply Hids|by apply Hnew_ids].
  - intros t. rewrite Hdeg', Hdeg, Hsnoc. fold ts. lia.
  - intros t Ht.
    rewrite elem_of_app, (Hzero t Ht), Hnew, Hdeg, Hsnoc. fold ts.
    split.
    + intros [?|[_ ?]]; lia.
    + intros Hz. destruct (decide (t ∈ ts)) as [Hin|Hnotin].
      * right. split; [done|]. lia.
      * left. apply occ_zero in Hnotin. lia.
  - apply Forall_app. split; [done|]. constructor; [|constructor]. by rewrite Hidn.
  - intros l1 t l2 Heq x Hedge.
    destruct l2 as [|y l2 _] using rev_ind.
    + apply app_inj_tail in Heq as [-> ->].
      destruct Hedge as (ts' & Hin & Ht).
      eapply pending_zero_preds; [|exact Hin|exact Ht].
      apply Hzero; [done|]. apply elem_of_app. right. by left.
    + rewrite app_comm_cons, app_assoc in Heq.
      apply app_inj_tail in Heq as [Heq _].
      by apply (Hsorted l1 t l2 Heq).
Qed.

Lemma kahn_loop_spec fuel indegree queue order :
  kahn_inv indegree queue order →
  (length ns ≤ length order + fuel)%nat →
  ∃ order' indegree',
    kahn_loop fuel (node_map_of ns) es indegree queue order = Some (Ok order') ∧
    kahn_inv indegree' [] order'.
Proof.
  revert indegree queue order.
  induction fuel as [|fuel IH]; intros indegree queue order Hinv Hfuel.
  - destruct queue as [|s queue]; simpl; [by exists order, indegree|].
    exfalso. destruct Hinv as [Hnd Hids _ _ _ _].
    assert (Hlen : (length (node_ids order ++ s :: queue) ≤ length (node_ids ns))%nat).
    { apply submseteq_length, NoDup_submseteq; done. }
    unfold node_ids in Hlen.
    rewrite length_app, !length_fmap in Hlen. simpl in Hlen. lia.
  - destruct queue as [|s queue]; simpl; [by exists order, indegree|].
    destruct (kahn_step _ _ _ _ Hinv) as (n & indegree' & queue' & -> & -> & Hinv').
    apply (IH _ _ _ Hinv'). rewrite length_app. simpl. lia.
Qed.

End kahn.

(** ** What the queue loop leaves: all nodes, or none of a cycle *)

Lemma tc_last_step {A} (R : relation A) x y :
  tc R x y → ∃ z, rtc R x z ∧ R z y.
Proof.
  induction 1 as [x y Hxy|x y z Hxy _ (w & Hyw & Hwz)].
  - exists x. by split.
  - exists w. split; [by eapply rtc_l|done].
Qed.

Lemma on_cycle_pred {A} (R : relation A) x :
  tc R x x → ∃ z, R z x ∧ tc R z z.
Proof.
  intros (z & Hxz & Hzx)%tc_last_step. exists z. split; [done|].
  eapply tc_rtc_r; [by apply tc_once|done].
Qed.

Section kahn_final.
Variables (ns : list Node) (es : odict (list string)).
Hypothesis Hwf : odict_wf es.
Hypothesis Hvalid : endpoints_exist ns es.
Variables (indegree : odict Z) (order : list Node).
Hypothesis Hinv : kahn_inv ns es indegree [] order.

Lemma kahn_order_NoDup : NoDup (node_ids order).
Proof. destruct Hinv as [Hnd _ _ _ _ _]. by rewrite app_nil_r in Hnd. Qed.

Lemma kahn_order_ids x : x ∈ node_ids order → x ∈ node_ids ns.
Proof.
  destruct Hinv as [_ Hids _ _ _ _]. intros Hx. apply Hids.
  by rewrite app_nil_r.
Qed.

Lemma kahn_order_length : (length order ≤ length ns)%nat.
Proof.
  pose proof (submseteq_length (node_ids order) (node_ids ns)) as Hlen.
  unfold node_ids in Hlen at 3 4. rewrite !length_fmap in Hlen. apply Hlen.
  apply NoDup_submseteq; [apply kahn_order_NoDup|apply kahn_order_ids].
Qed.

(** A node on a cycle is never emitted: its source on the cycle would have
    to come before it, and so on down the emitted prefix. *)
Lemma kahn_cycle_excluded x : tc (edge es) x x → x ∉ node_ids order.
Proof.
  intros Hcyc Hin. apply list_elem_of_split in Hin as (l1 & l2 & Heq).
  remember (length l1) as k eqn:Hk.
  revert x l1 l2 Hcyc Heq Hk.
  induction k as [k IH] using lt_wf_ind; intros x l1 l2 Hcyc Heq Hk.
  destruct (on_cycle_pred _ _ Hcyc) as (z & Hzx & Hz).
  pose proof (ki_sorted _ _ _ _ _ Hinv l1 x l2 Heq z Hzx) as Hzin.
  apply list_elem_of_split in Hzin as (l1' & l1'' & ->).
  apply (IH (length l1')) with (x := z) (l1 := l1') (l2 := l1'' ++ x :: l2).
  - rewrite Hk, length_app. simpl. lia.
  - done.
  - by rewrite Heq, <- app_assoc.
  - done.
Qed.

(** A node left out has a source that is left out too. *)
Lemma kahn_left_out_pred t :
  t ∈ node_ids ns → t ∉ node_ids order →
  ∃ s, edge es s t ∧ s ∈ node_ids ns ∧ s ∉ node_ids order.
Proof.
  intros Ht Hnot.
  destruct (pending_pos es (node_ids order) t) as (s & ts & Hin & Hs & Hts).
  { intros Hz. apply Hnot. apply (ki_zero _ _ _ _ _ Hinv t Ht) in Hz.
    by rewrite app_nil_r in Hz. }
  exists s. split_and!.
  - by exists ts.
  - by destruct (Hvalid s ts Hin).
  - done.
Qed.

Lemma kahn_back_path k l t :
  (length ns ≤ k + length l)%nat →
  NoDup (t :: l) →
  (∀ x, x ∈ t :: l → x ∈ node_ids ns ∧ x ∉ node_ids order) →
  (∀ x, x ∈ l → tc (edge es) t x) →
  cyclic es.
Proof.
  revert l t. induction k as [|k IH]; intros l t Hlen Hnd Hout Hreach.
  - exfalso.
    assert (Hle : (length (t :: l) ≤ length (node_ids ns))%nat).
    { apply submseteq_length, NoDup_submseteq; [done|]. intros x Hx. by apply Hout. }
    unfold node_ids in Hle. rewrite length_fmap in Hle. simpl in *. lia.
  - destruct (Hout t) as [Ht Htn]; [by left|].
    destruct (kahn_left_out_pred t Ht Htn) as (s & Hst & Hs & Hsn).
    destruct (decide (s ∈ t :: l)) as [Hin|Hnotin].
    + apply elem_of_cons in Hin as [->|Hin].
      * exists t. by apply tc_once.
      * exists s. eapply tc_l; [exact Hst|by apply Hreach].
    + apply (IH (t :: l) s).
      * simpl. lia.
      * by constructor.
      * intros x [->|Hx]%elem_of_cons; [done|by apply Hout].
      * intros x [->|Hx]%elem_of_cons; [by apply tc_once|].
        eapply tc_l; [exact Hst|by apply Hreach].
Qed.

(** Without a cycle every node is emitted. *)
Lemma kahn_complete t : acyclic es → t ∈ node_ids ns → t ∈ node_ids order.
Proof.
  intros Hacyc Ht. destruct (decide (t ∈ node_ids order)) as [|Hnot]; [done|].
  exfalso. destruct (kahn_back_path (length ns) [] t) as [x Hx].
  - simpl. lia.
  - constructor; [by intros ?%elem_of_nil|constructor].
  - intros x ->%list_elem_of_singleton. done.
  - by intros x ?%elem_of_nil.
  - by apply (Hacyc x).
Qed.

End kahn_final.

(** ** [_topological_sort] as a whole *)

Definition cycle_error : exn := ValueError "Workflow graph has a cycle".

Lemma count_edges_valid ns es d d' :
  count_edges (node_map_of ns) es d = Ok d' → endpoints_exist ns es.
Proof.
  intros (Hall & _)%count_edges_Ok s ts Hin. destruct (Hall s ts Hin) as [Hs Hts].
  split; [by apply node_map_is_Some|]. intros t Ht. by apply node_map_is_Some, Hts.
Qed.

Lemma topological_sort_valid ns es :
  odict_wf es → endpoints_exist ns es →
  ∃ order indegree,
    kahn_inv ns es indegree [] order ∧
    _topological_sort ns es =
      Some (if decide (length order ≠ length ns) then Raise cycle_error else Ok order).
Proof.
  intros Hwf Hvalid. unfold _topological_sort.
  destruct (count_edges _ _ _) as [indegree|e] eqn:Hcount.
  - apply (kahn_init ns es Hvalid) in Hcount.
    destruct (kahn_loop_spec ns es Hwf Hvalid (length ns) _ _ _ Hcount)
      as (order & indegree' & -> & Hinv); [simpl; lia|].
    exists order, indegree'. split; [done|]. by destruct (decide _).
  - exfalso. apply count_edges_Raise in Hcount as (x & _ & Hnone & s & ts & Hin & Hor).
    apply node_map_None in Hnone. apply Hnone.
    destruct (Hvalid s ts Hin) as [Hs Hts]. destruct Hor as [->|Ht]; [done|by apply Hts].
Qed.

Lemma topological_sort_Ok ns es order :
  odict_wf es → _topological_sort ns es = Some (Ok order) →
  endpoints_exist ns es ∧
  ∃ indegree, kahn_inv ns es indegree [] order ∧ length order = length ns.
Proof.
  intros Hwf Hsort.
  assert (Hvalid : endpoints_exist ns es).
  { unfold _topological_sort in Hsort.
    destruct (count_edges _ _ _) as [indegree|e] eqn:Hcount; [|done].
    by eapply count_edges_valid. }
  split; [done|].
  destruct (topological_sort_valid ns es Hwf Hvalid) as (order' & indegree & Hinv & Heq).
  rewrite Heq in Hsort. destruct (decide _) as [|Hlen]; [done|].
  inversion Hsort; subst. exists indegree. split; [done|]. lia.
Qed.

(** The bound on the queue loop is never reached. *)
Lemma topological_sort_total ns es : odict_wf es → is_Some (_topological_sort ns es).
Proof.
  intros Hwf. unfold _topological_sort.
  destruct (count_edges _ _ _) as [indegree|e] eqn:Hcount; [|done].
  pose proof (count_edges_valid _ _ _ _ Hcount) as Hvalid.
  apply (kahn_init ns es Hvalid) in Hcount.
  destruct (kahn_loop_spec ns es Hwf Hvalid (length ns) _ _ _ Hcount)
    as (order & indegree' & -> & Hinv); [simpl; lia|].
  by destruct (decide _).
Qed.

Lemma run_total registry w input_data :
  odict_wf (edges w) → is_Some (run registry w input_data).
Proof.
  intros Hwf. unfold run.
  destruct (topological_sort_total (nodes w) (edges w) Hwf) as [[order|e] ->]; [|done].
  destruct (run_nodes _ _ _ _ _ _) as [log [results|e]]; [|done].
  destruct (last order) as [n|]; [|done]. by destruct (results !! id n).
Qed.

(** ** Cyclic graphs *)

(** C3. When the edge map names only existing nodes and has a cycle,
    [run] raises the cycle error and no handler has been invoked. *)
Theorem run_cyclic_graph (registry : NodeRegistry) (w : Workflow)
    (input_data : gmap string Value) :
  odict_wf (edges w) →
  endpoints_exist (nodes w) (edges w) →
  cyclic (edges w) →
  ∃ e, CyclicGraph e ∧ run registry w input_data = Some ([], Raise e).
Proof.
  intros Hwf Hvalid [x Hx]. exists cycle_error. split; [done|].
  destruct (topological_sort_valid _ _ Hwf Hvalid) as (order & indegree & Hinv & Heq).
  unfold run. rewrite Heq.
  pose proof (kahn_cycle_excluded _ _ _ _ Hinv x Hx) as Hnot.
  assert (Hx_id : x ∈ node_ids (nodes w)).
  { destruct (on_cycle_pred _ _ Hx) as (z & (ts & Hin & Ht) & _).
    by apply (Hvalid z ts). }
  assert (Hlen : (length (x :: node_ids order) ≤ length (node_ids (nodes w)))%nat).
  { apply submseteq_length, NoDup_submseteq.
    - constructor; [done|]. by eapply kahn_order_NoDup.
    - intros y [->|Hy]%elem_of_cons; [done|]. by eapply kahn_order_ids. }
  unfold node_ids in Hlen. simpl in Hlen. rewrite !length_fmap in Hlen.
  rewrite decide_True by lia. done.
Qed.

(** ** The node loop of [run] *)

(** [results[node.id] = handler(...)] for a call that returned. *)
Definition store (results : gmap string (gmap string Value)) (inv : Invocation)
  : gmap string (gmap string Value) :=
  match inv_result inv with
  | Ok out => <[id (inv_node inv) := out]> results
  | Raise _ => results
  end.

(** The payload [run] hands to the handler of [node] when the outputs stored
    so far are [results]. *)
Definition resolve_input (es : odict (list string)) (input_data : gmap string Value)
    (results : gmap string (gmap string Value)) (node : Node) : gmap string Value :=
  let parent_payload := _merge_parent_payloads node es results in
  if decide (parent_payload = ∅) then input_data else parent_payload.

Definition returned (inv : Invocation) : Prop := ∃ out, inv_result inv = Ok out.

(** The call is the one [run] makes for its node: the handler registered
    for the node's type, on the node's parameters. *)
Definition dispatched (registry : NodeRegistry) (inv : Invocation) : Prop :=
  ∃ spec, registry !! type (inv_node inv) = Some spec ∧
          inv_result inv = handler spec (params (inv_node inv)) (inv_input inv).

Lemma run_nodes_spec registry es input_data ordered results log log' r :
  run_nodes registry es input_data ordered results log = (log', r) →
  ∃ new,
    log' = log ++ new ∧
    inv_node <$> new `prefix_of` ordered ∧
    (∀ i inv, new !! i = Some inv →
       inv_input inv =
         resolve_input es input_data (foldl store results (take i new)) (inv_node inv) ∧
       dispatched registry inv ∧
       ((S i < length new)%nat → returned inv)) ∧
    (∀ results', r = Ok results' →
       inv_node <$> new = ordered ∧ results' = foldl store results new ∧
       Forall returned new).
Proof.
  revert results log. induction ordered as [|node rest IH]; simpl; intros results log H.
  - inversion H; subst. exists []. rewrite app_nil_r. split_and!; [done..| |].
    + by intros i inv ?.
    + intros results' [= <-]. by split_and!.
  - change (if decide (_merge_parent_payloads node es results = ∅)
            then input_data else _merge_parent_payloads node es results)
      with (resolve_input es input_data results node) in H.
    unfold registry_get in H.
    destruct (registry !! type node) as [spec|] eqn:Hspec.
    + destruct (handler spec (params node) (resolve_input es input_data results node))
        as [out|e] eqn:Hcall.
      all: match type of H with context [mkInvocation ?n ?p ?r] =>
             set (inv0 := mkInvocation n p r) in * end.
      all: assert (Hdisp : dispatched registry inv0) by (by exists spec).
      * apply IH in H as (new & -> & Hpre & Hall & Hok).
        exists (inv0 :: new). rewrite <- app_assoc. split_and!; [done| | |].
        -- simpl. by apply prefix_cons.
        -- intros [|i] inv Hi; simpl in *.
           ++ inversion Hi; subst inv. split_and!; [done..|]. intros _. by exists out.
           ++ destruct (Hall i inv Hi) as (Hin & Hd & Hret). split_and!; [|done|].
              ** by rewrite Hin.
              ** intros ?. apply Hret. lia.
        -- intros results' Hr. destruct (Hok results' Hr) as (Hnodes & Hres & Hret).
           split_and!.
           ++ simpl. by f_equal.
           ++ by rewrite Hres.
           ++ constructor; [by exists out|done].
      * inversion H; subst. exists [inv0]. split_and!; [done| | |done].
        -- simpl. apply prefix_cons, prefix_nil.
        -- intros [|i] inv Hi; simpl in *; [|done].
           inversion Hi; subst inv. split_and!; [done..|]. simpl. lia.
    + inversion H; subst. exists []. rewrite app_nil_r. split_and!; [done| | |done].
      * apply prefix_nil.
      * by intros i inv ?.
Qed.

Lemma run_nodes_total registry es input_data ordered results log :
  (∀ n, n ∈ ordered → ∃ spec, registry !! type n = Some spec ∧
                              ∀ p, ∃ out, handler spec (params n) p = Ok out) →
  ∃ log' results',
    run_nodes registry es input_data ordered results log = (log', Ok results').
Proof.
  revert results log. induction ordered as [|node rest IH]; simpl; intros results log Htot.
  - by exists log, results.
  - destruct (Htot node) as (spec & Hspec & Hcall); [by left|].
    unfold registry_get. rewrite Hspec.
    destruct (Hcall (if decide (_merge_parent_payloads node es results = ∅)
                     then input_data else _merge_parent_payloads node es results))
      as [out ->].
    apply IH. intros n Hn. apply Htot. by right.
Qed.

(** A stored output is read back until a later call of the same node
    overwrites it. *)
Lemma foldl_store_other results l s :
  s ∉ node_ids (inv_node <$> l) → foldl store results l !! s = results !! s.
Proof.
  revert results. induction l as [|inv l IH]; simpl; intros results Hs; [done|].
  apply not_elem_of_cons in Hs as [Hne Hs]. rewrite IH by done.
  unfold store. destruct (inv_result inv); [|done]. by rewrite lookup_insert_ne.
Qed.

Lemma foldl_store_lookup results l s out :
  foldl store results l !! s = Some out →
  results !! s = Some out ∨
  ∃ j inv, l !! j = Some inv ∧ id (inv_node inv) = s ∧ inv_result inv = Ok out.
Proof.
  revert results. induction l as [|inv l IH]; simpl; intros results H; [by left|].
  apply IH in H as [H|(j & inv' & Hj & Hid & Hres)].
  - unfold store in H. destruct (inv_result inv) as [out0|e] eqn:Hr; [|by left].
    destruct (decide (id (inv_node inv) = s)) as [Heq|Hne].
    + rewrite Heq, lookup_insert_eq in H. inversion H; subst.
      right. by exists 0%nat, inv.
    + rewrite lookup_insert_ne in H by done. by left.
  - right. by exists (S j), inv'.
Qed.

(** ** Merging the outputs of the upstream nodes *)

(** The merge policy in the words of the design: the upstream outputs are
    applied in order, a later one overwriting the fields of the earlier
    ones. *)
Definition shallow_merge (outs : list (gmap string Value)) : gmap string Value :=
  foldl (λ merged out, out ∪ merged) ∅ outs.

(** The value of field [k] after the merge: that of the last output that
    has the field. *)
Fixpoint last_writer (k : string) (outs : list (gmap string Value)) : option Value :=
  match outs with
  | [] => None
  | out :: rest =>
      match last_writer k rest with
      | Some v => Some v
      | None => out !! k
      end
  end.

Lemma foldl_union_lookup (outs : list (gmap string Value)) (acc : gmap string Value) k :
  foldl (λ merged out, out ∪ merged) acc outs !! k =
  match last_writer k outs with
  | Some v => Some v
  | None => acc !! k
  end.
Proof.
  revert acc. induction outs as [|out outs IH]; simpl; intros acc; [done|].
  rewrite IH. destruct (last_writer k outs); [done|].
  rewrite lookup_union. destruct (out !! k) eqn:Hk; simpl.
  - by destruct (acc !! k).
  - by destruct (acc !! k).
Qed.

Lemma shallow_merge_lookup outs k : shallow_merge outs !! k = last_writer k outs.
Proof.
  unfold shallow_merge. rewrite foldl_union_lookup, lookup_empty.
  by destruct (last_writer k outs).
Qed.

Lemma merge_parent_fold node es results :
  _merge_parent_payloads node es results =
  shallow_merge ((λ s, default ∅ (results !! s)) <$> incoming_of (id node) es).
Proof.
  unfold _merge_parent_payloads, shallow_merge.
  assert (Hfold : ∀ l acc,
    foldl (λ merged source, merge_update merged results source) acc l =
    foldl (λ merged out, out ∪ merged) acc ((λ s, default ∅ (results !! s)) <$> l)).
  { induction l as [|s l IH]; simpl; intros acc; [done|]. by rewrite IH. }
  destruct (incoming_of (id node) es) as [|s l] eqn:Hinc; [done|]. apply Hfold.
Qed.

Lemma shallow_merge_all_empty outs : Forall (λ out, out = ∅) outs → shallow_merge outs = ∅.
Proof.
  intros Hall. apply map_eq. intros k. rewrite shallow_merge_lookup, lookup_empty.
  induction Hall as [|out outs -> _ IH]; simpl; [done|]. by rewrite IH.
Qed.

Lemma incoming_of_edge t es s : s ∈ incoming_of t es ↔ edge es s t.
Proof.
  unfold incoming_of, edge. rewrite list_elem_of_fmap. split.
  - intros ([s' ts] & -> & [Ht Hin]%list_elem_of_filter). by exists ts.
  - intros (ts & Hin & Ht). exists (s, ts). split; [done|].
    by apply list_elem_of_filter.
Qed.

(** ** What [run] hands to each handler *)

(** What [run] did when it produced a log with an entry at [i]: the sort
    succeeded, the calls follow the sorted order, the payload handed over is
    resolved from the outputs stored by the earlier calls, and the earlier
    calls all returned. *)
Lemma run_log_entry registry w input_data log r i inv :
  run registry w input_data = Some (log, r) →
  log !! i = Some inv →
  ∃ order,
    _topological_sort (nodes w) (edges w) = Some (Ok order) ∧
    inv_node <$> log `prefix_of` order ∧
    inv_input inv =
      resolve_input (edges w) input_data (foldl store ∅ (take i log)) (inv_node inv) ∧
    dispatched registry inv ∧
    (∀ j inv', (j < i)%nat → log !! j = Some inv' → returned inv').
Proof.
  unfold run. intros Hrun Hi.
  destruct (_topological_sort _ _) as [[order|e]|] eqn:Hsort; [| |done].
  - destruct (run_nodes _ _ _ _ _ _) as [log' r'] eqn:Hnodes.
    assert (log' = log) as ->.
    { destruct r' as [results|e]; [|by inversion Hrun].
      destruct (last order) as [n|]; [|by inversion Hrun].
      destruct (results !! id n); by inversion Hrun. }
    apply run_nodes_spec in Hnodes as (new & Heq & Hpre & Hall & _).
    simpl in Heq. subst new. exists order.
    destruct (Hall i inv Hi) as (Hin & Hd & _). split_and!; [done..|].
    intros j inv' Hlt Hj. destruct (Hall j inv' Hj) as (_ & _ & Hret).
    apply Hret. apply lookup_lt_Some in Hi. lia.
  - inversion Hrun; subst. by rewrite lookup_nil in Hi.
Qed.

(** C9. A node with upstream nodes whose outputs computed so far are all
    the empty mapping gets the original input payload of the run, not the
    empty merge. *)
Theorem run_empty_merge_gets_input (registry : NodeRegistry) (w : Workflow)
    (input_data : gmap string Value) (log : list Invocation)
    (r : outcome (gmap string Value)) (i : nat) (inv : Invocation) :
  run registry w input_data = Some (log, r) →
  log !! i = Some inv →
  incoming_of (id (inv_node inv)) (edges w) ≠ [] →
  (∀ s j inv', s ∈ incoming_of (id (inv_node inv)) (edges w) →
     (j < i)%nat → log !! j = Some inv' → id (inv_node inv') = s →
     inv_result inv' = Ok ∅) →
  inv_input inv = input_data.
Proof.
  intros Hrun Hi _ Hempty.
  destruct (run_log_entry _ _ _ _ _ _ _ Hrun Hi) as (order & _ & _ & -> & _ & _).
  unfold resolve_input. rewrite merge_parent_fold.
  rewrite shallow_merge_all_empty; [by rewrite decide_True|].
  apply Forall_fmap, Forall_forall. intros s Hs. simpl.
  destruct (foldl store ∅ (take i log) !! s) as [out|] eqn:Hout; simpl; [|done].
  apply foldl_store_lookup in Hout as [Hout|(j & inv' & Hj & Hid & Hres)].
  - by rewrite lookup_empty in Hout.
  - apply lookup_take_Some in Hj as [Hj Hlt].
    rewrite (Hempty s j inv' Hs Hlt Hj Hid) in Hres. by inversion Hres.
Qed.

(** The handler of node [s] was called before position [i] of the log and
    returned [out]. *)
Definition computed_before (log : list Invocation) (i : nat) (s : string)
    (out : gmap string Value) : Prop :=
  ∃ j inv', (j < i)%nat ∧ log !! j = Some inv' ∧
            id (inv_node inv') = s ∧ inv_result inv' = Ok out.

(** No node is called twice. *)
Lemma run_log_NoDup registry w input_data log r :
  odict_wf (edges w) →
  run registry w input_data = Some (log, r) →
  NoDup (node_ids (inv_node <$> log)).
Proof.
  intros Hwf Hrun. destruct log as [|inv0 log0] eqn:Hlog; [constructor|].
  rewrite <- Hlog in *. assert (Hi : log !! 0%nat = Some inv0) by (by rewrite Hlog).
  destruct (run_log_entry _ _ _ _ _ _ _ Hrun Hi) as (order & Hsort & [k Hpre] & _).
  destruct (topological_sort_Ok _ _ _ Hwf Hsort) as (Hvalid & indegree & Hinv & _).
  pose proof (kahn_order_NoDup _ _ _ _ Hinv) as Hnd.
  rewrite Hpre in Hnd. unfold node_ids in *. rewrite fmap_app in Hnd.
  by apply NoDup_app in Hnd as [? _].
Qed.

(** When a node is called, each of its upstream nodes has been called and
    has returned, and its output is the one stored. *)
Lemma run_upstream_computed registry w input_data log r i inv s :
  odict_wf (edges w) →
  run registry w input_data = Some (log, r) →
  log !! i = Some inv →
  edge (edges w) s (id (inv_node inv)) →
  ∃ out, computed_before log i s out ∧ foldl store ∅ (take i log) !! s = Some out.
Proof.
  intros Hwf Hrun Hi Hedge.
  pose proof (run_log_NoDup _ _ _ _ _ Hwf Hrun) as Hnd.
  destruct (run_log_entry _ _ _ _ _ _ _ Hrun Hi) as (order & Hsort & [k Hpre] & _ & _ & Hret).
  destruct (topological_sort_Ok _ _ _ Hwf Hsort) as (Hvalid & indegree & Hinv & _).
  pose proof (take_drop_middle log i inv Hi) as Hsplit.
  assert (Hids : node_ids order =
    node_ids (inv_node <$> take i log) ++ id (inv_node inv) ::
      (node_ids (inv_node <$> drop (S i) log) ++ node_ids k)).
  { rewrite Hpre, <- Hsplit at 1. unfold node_ids.
    by rewrite !fmap_app, !fmap_cons, <- app_assoc. }
  pose proof (ki_sorted _ _ _ _ _ Hinv _ _ _ Hids s Hedge) as Hs.
  unfold node_ids in Hs. rewrite <- list_fmap_compose in Hs.
  apply list_elem_of_fmap in Hs as (inv' & Hs & Hin').
  assert (Hid : id (inv_node inv') = s) by done. clear Hs.
  apply list_elem_of_split in Hin' as (a & b & Htake).
  assert (Hj : take i log !! length a = Some inv').
  { rewrite Htake. by apply list_lookup_middle. }
  apply lookup_take_Some in Hj as [Hj Hlt].
  destruct (Hret _ _ Hlt Hj) as [out Hout].
  exists out. split; [by exists (length a), inv'|].
  assert (Hb : s ∉ node_ids (inv_node <$> b)).
  { rewrite <- Hsplit, Htake in Hnd. unfold node_ids in *.
    rewrite !fmap_app, !fmap_cons, <- !app_assoc in Hnd.
    apply NoDup_app in Hnd as (_ & _ & Hnd). simpl in Hnd.
    inversion Hnd as [|?? Hnot _]; subst. intros Hin. apply Hnot.
    apply elem_of_app. by left. }
  rewrite Htake, foldl_app. simpl. rewrite foldl_store_other by done.
  unfold store at 1. rewrite Hout, Hid. apply lookup_insert_eq.
Qed.

(** The input rule as the design states it: the original input without
    upstream nodes, the merge of the upstream outputs otherwise. *)
Definition input_rule_as_stated (registry : NodeRegistry) (w : Workflow)
    (input_data : gmap string Value) : Prop :=
  ∀ log r i inv,
    run registry w input_data = Some (log, r) →
    log !! i = Some inv →
    let ups := incoming_of (id (inv_node inv)) (edges w) in
    (ups = [] → inv_input inv = input_data) ∧
    (ups ≠ [] → ∃ outs, Forall2 (computed_before log i) ups outs ∧
                        inv_input inv = shallow_merge outs).

(** C2, as the code has it. A node without upstream nodes gets the original
    input payload. A node with upstream nodes finds the output of each of
    them computed, and gets these outputs merged in upstream order, a later
    output overwriting the fields of an earlier one, unless that merge is
    the empty mapping: then it gets the original input payload. *)
Theorem run_input_resolution (registry : NodeRegistry) (w : Workflow)
    (input_data : gmap string Value) (log : list Invocation)
    (r : outcome (gmap string Value)) (i : nat) (inv : Invocation) :
  odict_wf (edges w) →
  run registry w input_data = Some (log, r) →
  log !! i = Some inv →
  let ups := incoming_of (id (inv_node inv)) (edges w) in
  (ups = [] → inv_input inv = input_data) ∧
  (ups ≠ [] →
   ∃ outs, Forall2 (computed_before log i) ups outs ∧
           inv_input inv =
             (if decide (shallow_merge outs = ∅) then input_data else shallow_merge outs) ∧
           ∀ k, shallow_merge outs !! k = last_writer k outs).
Proof.
  intros Hwf Hrun Hi ups.
  destruct (run_log_entry _ _ _ _ _ _ _ Hrun Hi) as (order & _ & _ & Hin & _ & _).
  unfold resolve_input in Hin. rewrite merge_parent_fold in Hin. fold ups in Hin.
  split.
  - intros Hups. rewrite Hups in Hin. by rewrite Hin.
  - intros _.
    exists ((λ s, default ∅ (foldl store ∅ (take i log) !! s)) <$> ups).
    split_and!; [|done|apply shallow_merge_lookup].
    apply Forall2_fmap_r, Forall_Forall2_diag, Forall_forall. intros s Hs.
    apply incoming_of_edge in Hs.
    destruct (run_upstream_computed _ _ _ _ _ _ _ _ Hwf Hrun Hi Hs) as (out & Hc & Hout).
    simpl. by rewrite Hout.
Qed.

(** ** Acyclic graphs *)

(** Every node has a registered handler. *)
Definition handlers_registered (registry : NodeRegistry) (ns : list Node) : Prop :=
  ∀ n, n ∈ ns → is_Some (registry !! type n).

(** [s] occurs in [l] and [t] occurs after it. *)
Definition before (l : list string) (s t : string) : Prop :=
  ∃ l1 l2 l3, l = l1 ++ s :: l2 ++ t :: l3.

Lemma NoDup_fmap_elem_inj {A B} (f : A → B) (l : list A) x y :
  NoDup (f <$> l) → x ∈ l → y ∈ l → f x = f y → x = y.
Proof.
  induction l as [|a l IH]; simpl; intros Hnd Hx Hy Heq.
  - by apply elem_of_nil in Hx.
  - inversion Hnd as [|?? Hnot Hnd']; subst.
    apply elem_of_cons in Hx as [->|Hx]; apply elem_of_cons in Hy as [->|Hy].
    + done.
    + exfalso. apply Hnot. rewrite Heq. by apply list_elem_of_fmap_2.
    + exfalso. apply Hnot. rewrite <- Heq. by apply list_elem_of_fmap_2.
    + by apply IH.
Qed.

Lemma kahn_order_nodes ns es indegree order :
  kahn_inv ns es indegree [] order →
  NoDup (node_ids ns) →
  (∀ t, t ∈ node_ids ns → t ∈ node_ids order) →
  order ≡ₚ ns.
Proof.
  intros Hinv Hnd Hall.
  assert (Hsub : ∀ n, n ∈ order → n ∈ ns).
  { intros n Hn. pose proof (ki_map _ _ _ _ _ Hinv) as Hmap.
    rewrite Forall_forall in Hmap. by apply Hmap, node_map_lookup in Hn as [? _]. }
  apply NoDup_Permutation.
  - eapply NoDup_fmap_1, kahn_order_NoDup, Hinv.
  - by eapply NoDup_fmap_1.
  - intros n. split; [apply Hsub|]. intros Hn.
    assert (Hid : id n ∈ node_ids order).
    { apply Hall. by apply list_elem_of_fmap_2. }
    apply list_elem_of_fmap in Hid as (n' & Heq & Hn').
    by rewrite (NoDup_fmap_elem_inj id ns n n' Hnd Hn (Hsub n' Hn') Heq).
Qed.

(** What [run_nodes] raises: the exception of the handler it called last,
    or the registry's error for the first node whose type is unknown. *)
Lemma run_nodes_Raise registry es input_data ordered results log log' e :
  run_nodes registry es input_data ordered results log = (log', Raise e) →
  ∃ new, log' = log ++ new ∧
    ((∃ inv, last new = Some inv ∧ inv_result inv = Raise e) ∨
     (∃ n, n ∈ ordered ∧ registry !! type n = None ∧
           e = KeyError ("Unknown node type: " +:+ type n) ∧ Forall returned new)).
Proof.
  revert results log. induction ordered as [|node rest IH]; simpl; intros results log H;
    [done|].
  unfold registry_get in H.
  destruct (registry !! type node) as [spec|] eqn:Hspec.
  - destruct (handler spec (params node) _) as [out|e'] eqn:Hcall.
    + apply IH in H as (new & -> & Hcases).
      match goal with |- context [log ++ [?i]] => set (inv0 := i) end.
      exists (inv0 :: new). split; [by rewrite <- app_assoc|].
      destruct Hcases as [(inv & Hlast & Hres)|(n & Hn & Hnone & -> & Hret)].
      * left. exists inv. split; [|done]. by destruct new.
      * right. exists n. split_and!; [by right|done..|].
        constructor; [by exists out|done].
    + inversion H; subst.
      match goal with |- context [log ++ [?i]] => set (inv0 := i) end.
      exists [inv0]. split; [done|]. left. by exists inv0.
  - inversion H; subst. exists []. split; [by rewrite app_nil_r|].
    right. exists node. split_and!; [by left|done..].
Qed.

(** C1. On a workflow with distinct node ids whose edge map names only
    existing nodes and has no cycle, and whose nodes have registered
    handlers, [run] finishes, and every call it made is the call of the
    registered handler of a node. When the calls it made all returned,
    [run] returns; the calls are those of the nodes of the workflow, each
    once; for every edge the call of the source comes before the call of
    the target; and the payload returned is the output of the last call
    (the original input if there is no node). Otherwise [run] raises the
    exception of the last call it made. *)
Theorem run_acyclic (registry : NodeRegistry) (w : Workflow)
    (input_data : gmap string Value) :
  odict_wf (edges w) →
  NoDup (node_ids (nodes w)) →
  endpoints_exist (nodes w) (edges w) →
  acyclic (edges w) →
  handlers_registered registry (nodes w) →
  ∃ log r,
    run registry w input_data = Some (log, r) ∧
    Forall (dispatched registry) log ∧
    (Forall returned log →
     ∃ out,
       r = Ok out ∧
       inv_node <$> log ≡ₚ nodes w ∧
       (∀ s t, edge (edges w) s t → before (node_ids (inv_node <$> log)) s t) ∧
       match last log with
       | Some inv => inv_result inv = Ok out
       | None => out = input_data
       end) ∧
    (∀ e, r = Raise e → ∃ inv, last log = Some inv ∧ inv_result inv = Raise e).
Proof.
  intros Hwf Hnd Hvalid Hacyc Hreg.
  destruct (topological_sort_valid _ _ Hwf Hvalid) as (order & indegree & Hinv & Hsort).
  pose proof (kahn_complete _ _ Hvalid _ _ Hinv) as Hall.
  pose proof (kahn_order_nodes _ _ _ _ Hinv Hnd (λ t, Hall t Hacyc)) as Hperm.
  rewrite decide_False in Hsort by (rewrite (Permutation_length Hperm); lia).
  destruct (run_nodes registry (edges w) input_data order ∅ []) as [log rn] eqn:Hnodes.
  pose proof Hnodes as Hspec.
  apply run_nodes_spec in Hspec as (new & Heq & _ & Hcalls & Hok).
  simpl in Heq. subst new.
  assert (Hdisp : Forall (dispatched registry) log).
  { apply Forall_lookup. intros i inv Hi. by destruct (Hcalls i inv Hi) as (_ & ? & _). }
  destruct rn as [results|e].
  - destruct (Hok results eq_refl) as (Horder & Hres & Hreturned).
    assert (Hfinal : ∃ out,
      match last order with
      | Some n => results !! id n = Some out
      | None => out = input_data
      end ∧
      match last log with
      | Some inv => inv_result inv = Ok out
      | None => out = input_data
      end).
    { destruct log as [|inv log _] using rev_ind.
      - simpl in Horder. subst order. by exists input_data.
      - rewrite fmap_app in Horder. simpl in Horder. subst order.
        rewrite !last_snoc. apply Forall_app in Hreturned as [_ Hlast].
        inversion Hlast as [|?? [out Hout] _]; subst. exists out. split; [|done].
        rewrite foldl_app. simpl. unfold store at 1. rewrite Hout.
        apply lookup_insert_eq. }
    destruct Hfinal as (out & Hlast_order & Hlast_log).
    exists log, (Ok out). split_and!; [|done| |done].
    + unfold run. rewrite Hsort, Hnodes.
      destruct (last order) as [n|]; [by rewrite Hlast_order|by subst out].
    + intros _. exists out. split_and!; [done| | |done].
      * by rewrite Horder.
      * intros s t Hedge. rewrite Horder.
        assert (Ht : t ∈ node_ids order).
        { apply Hall; [done|]. destruct Hedge as (ts & Hin & Ht).
          by apply (Hvalid s ts). }
        apply list_elem_of_split in Ht as (l' & l3 & Hsplit).
        pose proof (ki_sorted _ _ _ _ _ Hinv _ _ _ Hsplit s Hedge) as Hs.
        apply list_elem_of_split in Hs as (l1 & l2 & ->).
        exists l1, l2, l3. by rewrite Hsplit, <- app_assoc.
  - assert (Hlast : ∃ inv, last log = Some inv ∧ inv_result inv = Raise e).
    { apply run_nodes_Raise in Hnodes as (new & Heq & [Hraised|(n & Hn & Hnone & _)]).
      - simpl in Heq. by subst new.
      - destruct (Hreg n) as [spec Hspec]; [by rewrite <- Hperm|].
        by rewrite Hspec in Hnone. }
    exists log, (Raise e). split_and!; [|done| |].
    + unfold run. by rewrite Hsort, Hnodes.
    + intros Hret. destruct Hlast as (inv & Hinv_last & Hres).
      apply last_Some in Hinv_last as [log' ->].
      apply Forall_app in Hret as [_ Hret].
      inversion Hret as [|?? [out Hout] _]; subst. by rewrite Hout in Hres.
    + by intros e' [= <-].
Qed.

(** ** Checking the hypotheses on a concrete workflow *)

Lemma endpoints_exist_check ns es :
  Forall (λ e : string * list string,
    e.1 ∈ node_ids ns ∧ Forall (λ t, t ∈ node_ids ns) e.2) es →
  endpoints_exist ns es.
Proof.
  rewrite Forall_forall. intros Hall s ts Hin.
  destruct (Hall (s, ts) Hin) as [Hs Hts]. split; [done|].
  by rewrite Forall_forall in Hts.
Qed.

(** A ranking that every edge climbs rules cycles out. *)
Lemma acyclic_ranked es (rank : string → nat) :
  Forall (λ e : string * list string,
    Forall (λ t, (rank e.1 < rank t)%nat) e.2) es →
  acyclic es.
Proof.
  rewrite Forall_forall. intros Hall.
  assert (Hclimb : ∀ x y, tc (edge es) x y → (rank x < rank y)%nat).
  { induction 1 as [x y (ts & Hin & Ht)|x y z (ts & Hin & Ht) _ IH].
    - specialize (Hall (x, ts) Hin). rewrite Forall_forall in Hall. by apply Hall.
    - specialize (Hall (x, ts) Hin). rewrite Forall_forall in Hall.
      specialize (Hall y Ht). simpl in Hall. lia. }
  intros x Hx. apply Hclimb in Hx. lia.
Qed.

(** ** Workflows to run the engine on *)

(** Settles a decidable proposition about concrete data by evaluation. *)
Ltac by_evaluation := apply (bool_decide_unpack _); vm_compute; exact I.

Module Scenarios.
Import Builtin.

(** A handler an application registers next to the built-in ones: it
    drops its payload. *)
Definition discard_handler : NodeHandler := λ _params _payload, Ok ∅.

Definition registry : NodeRegistry :=
  register (mkNodeSpec "discard" "Returns an empty payload." discard_handler)
    (register (mkNodeSpec "set_fields" "Merges static fields into the input payload."
                 set_fields_handler)
       (register (mkNodeSpec "manual_trigger" "Starts a workflow with provided input data."
                    manual_trigger_handler) ∅)).

Definition trigger (i : string) : Node := mkNode i "manual_trigger" ∅.
Definition discard (i : string) : Node := mkNode i "discard" ∅.
Definition set_field (i k : string) (v : Value) : Node :=
  mkNode i "set_fields" {[ "fields" := VDict {[ k := v ]} ]}.

Definition input : gmap string Value := {[ "x" := VInt 1 ]}.

(** Two sources and a join: [a → c], [b → c]. *)
Definition join : Workflow :=
  mkWorkflow "w1" "join"
    [trigger "c"; set_field "a" "y" (VInt 2); set_field "b" "y" (VInt 3)]
    [("a", ["c"]); ("b", ["c"])] true 0.

(** A two-node cycle. *)
Definition loop : Workflow :=
  mkWorkflow "w2" "loop" [trigger "a"; trigger "b"]
    [("a", ["b"]); ("b", ["a"])] true 0.

(** An edge to a node that does not exist. *)
Definition broken : Workflow :=
  mkWorkflow "w3" "broken" [trigger "a"] [("a", ["ghost"])] true 0.

(** A node downstream of one that returns the empty payload. *)
Definition drained : Workflow :=
  mkWorkflow "w4" "drained" [discard "a"; trigger "b"] [("a", ["b"])] true 0.

Definition drained_log : list Invocation :=
  [mkInvocation (discard "a") input (Ok ∅);
   mkInvocation (trigger "b") input (Ok input)].

Lemma drained_run : run registry drained input = Some (drained_log, Ok input).
Proof. vm_compute. reflexivity. Qed.

Definition join_log : list Invocation :=
  [mkInvocation (set_field "a" "y" (VInt 2)) input (Ok {[ "y" := VInt 2; "x" := VInt 1 ]});
   mkInvocation (set_field "b" "y" (VInt 3)) input (Ok {[ "y" := VInt 3; "x" := VInt 1 ]});
   mkInvocation (trigger "c") {[ "y" := VInt 3; "x" := VInt 1 ]}
     (Ok {[ "y" := VInt 3; "x" := VInt 1 ]})].

Lemma join_run :
  run registry join input = Some (join_log, Ok {[ "y" := VInt 3; "x" := VInt 1 ]}).
Proof. vm_compute. reflexivity. Qed.

Lemma join_wf : odict_wf (edges join).
Proof. unfold odict_wf. by_evaluation. Qed.

Lemma join_ids : NoDup (node_ids (nodes join)).
Proof. by_evaluation. Qed.

Lemma join_endpoints : endpoints_exist (nodes join) (edges join).
Proof. apply endpoints_exist_check. by_evaluation. Qed.

Lemma join_acyclic : acyclic (edges join).
Proof.
  apply (acyclic_ranked _ (λ s, if decide (s = "c") then 1%nat else 0%nat)).
  by_evaluation.
Qed.

Lemma join_registered : handlers_registered registry (nodes join).
Proof.
  intros n Hn. assert (Ht : type n ∈ ["manual_trigger"; "set_fields"]).
  { repeat (apply elem_of_cons in Hn as [->|Hn]); [by_evaluation..|].
    by apply elem_of_nil in Hn. }
  repeat (apply elem_of_cons in Ht as [->|Ht]); [by eexists..|].
  by apply elem_of_nil in Ht.
Qed.

Lemma join_log_returned : Forall returned join_log.
Proof. repeat (constructor; [by eexists|]). constructor. Qed.

Lemma loop_cyclic : cyclic (edges loop).
Proof.
  exists "a". apply tc_l with "b".
  - exists ["b"]. split; [by left|by left].
  - apply tc_once. exists ["a"]. split; [by right; left|by left].
Qed.

Lemma broken_dangling : dangling (nodes broken) (edges broken) "ghost".
Proof.
  split.
  - by_evaluation.
  - exists "a", ["ghost"]. split; [by left|by right; left].
Qed.

End Scenarios.

(** ** The engine on the scenarios *)

Lemma run_acyclic_witness :
  ∃ log out,
    run Scenarios.registry Scenarios.join Scenarios.input = Some (log, Ok out) ∧
    inv_node <$> log ≡ₚ nodes Scenarios.join ∧
    Forall (dispatched Scenarios.registry) log ∧
    (∀ s t, edge (edges Scenarios.join) s t → before (node_ids (inv_node <$> log)) s t) ∧
    match last log with
    | Some inv => inv_result inv = Ok out
    | None => out = Scenarios.input
    end.
Proof.
  destruct (run_acyclic Scenarios.registry Scenarios.join Scenarios.input
              Scenarios.join_wf Scenarios.join_ids Scenarios.join_endpoints
              Scenarios.join_acyclic Scenarios.join_registered)
    as (log & r & Hrun & Hdisp & Hreturned & _).
  assert (log = Scenarios.join_log) as ->.
  { rewrite Scenarios.join_run in Hrun. by inversion Hrun. }
  destruct (Hreturned Scenarios.join_log_returned) as (out & -> & Hperm & Horder & Hlast).
  by exists Scenarios.join_log, out.
Defined.

Lemma run_cyclic_graph_witness :
  ∃ e, CyclicGraph e ∧
       run Scenarios.registry Scenarios.loop Scenarios.input = Some ([], Raise e).
Proof.
  apply (run_cyclic_graph Scenarios.registry Scenarios.loop Scenarios.input).
  - unfold odict_wf. by_evaluation.
  - apply endpoints_exist_check. by_evaluation.
  - exact Scenarios.loop_cyclic.
Defined.

Lemma run_unknown_node_reference_witness :
  ∃ y e, dangling (nodes Scenarios.broken) (edges Scenarios.broken) y ∧
         UnknownNodeReference y e ∧
         run Scenarios.registry Scenarios.broken Scenarios.input = Some ([], Raise e).
Proof.
  apply (run_unknown_node_reference Scenarios.registry Scenarios.broken
           Scenarios.input "ghost").
  exact Scenarios.broken_dangling.
Defined.

Lemma run_empty_merge_gets_input_witness :
  inv_input (mkInvocation (Scenarios.trigger "b") Scenarios.input (Ok Scenarios.input))
  = Scenarios.input.
Proof.
  apply (run_empty_merge_gets_input Scenarios.registry Scenarios.drained Scenarios.input
           Scenarios.drained_log (Ok Scenarios.input) 1).
  - exact Scenarios.drained_run.
  - reflexivity.
  - vm_compute. discriminate.
  - intros s j inv' _ Hlt Hj _.
    destruct j as [|j]; [|lia]. simpl in Hj. by inversion Hj.
Defined.

Lemma run_input_resolution_witness :
  let inv := mkInvocation (Scenarios.trigger "c") {[ "y" := VInt 3; "x" := VInt 1 ]}
               (Ok {[ "y" := VInt 3; "x" := VInt 1 ]}) in
  let ups := incoming_of (id (inv_node inv)) (edges Scenarios.join) in
  (ups = [] → inv_input inv = Scenarios.input) ∧
  (ups ≠ [] →
   ∃ outs, Forall2 (computed_before Scenarios.join_log 2) ups outs ∧
           inv_input inv =
             (if decide (shallow_merge outs = ∅) then Scenarios.input
              else shallow_merge outs) ∧
           ∀ k, shallow_merge outs !! k = last_writer k outs).
Proof.
  apply (run_input_resolution Scenarios.registry Scenarios.join Scenarios.input
           Scenarios.join_log (Ok {[ "y" := VInt 3; "x" := VInt 1 ]}) 2).
  - exact Scenarios.join_wf.
  - exact Scenarios.join_run.
  - reflexivity.
Defined.

(** The input rule as stated fails on [Scenarios.drained]: node [b] has the
    upstream node [a], whose output is the empty mapping, and is handed the
    original input [{x: 1}] where the merge of the upstream outputs is
    empty. *)
Lemma input_rule_as_stated_fails :
  ¬ input_rule_as_stated Scenarios.registry Scenarios.drained Scenarios.input.
Proof.
  intros Hrule.
  destruct (Hrule Scenarios.drained_log (Ok Scenarios.input) 1%nat
              (mkInvocation (Scenarios.trigger "b") Scenarios.input (Ok Scenarios.input))
              Scenarios.drained_run eq_refl) as [_ Hups].
  destruct Hups as (outs & Hall & Hin); [vm_compute; discriminate|].
  assert (Houts : outs = [∅]).
  { change (incoming_of _ _) with ["a"] in Hall.
    apply Forall2_cons_inv_l in Hall as (out & outs' & Hc & Hnil & ->).
    apply Forall2_nil_inv_l in Hnil as ->.
    destruct Hc as (j & inv' & Hlt & Hj & _ & Hres).
    destruct j as [|j]; [|lia]. simpl in Hj. inversion Hj; subst inv'.
    simpl in Hres. by inversion Hres. }
  subst outs. simpl in Hin.
  apply (f_equal (λ m : gmap string Value, m !! "x")) in Hin.
  vm_compute in Hin. discriminate.
Qed.

(** ** Text extraction from the result of a model invocation *)

(** The design's words. The text field of a part that has one, and the
    text fields of the parts of a content, in order. *)
Definition text_field (part : Value) : list string :=
  match part with
  | VDict d =>
      match d !! "text" with
      | Some (VStr text) => [text]
      | _ => []
      end
  | _ => []
  end.

Definition text_fields (parts : list Value) : list string := parts ≫= text_field.

(** Texts joined by newlines. *)
Definition lines (texts : list string) : string :=
  Stdlib.Strings.String.concat nl texts.

(** The extraction rule as the design states it: the content of the last
    message when it is text, the text fields of its parts joined by
    newlines when it is a list of parts, and the stringified result
    otherwise. *)
Definition extract_as_stated (repr : Value → string) (result : gmap string Value)
  : string :=
  match result !! "messages" with
  | Some (VList messages) =>
      match last messages with
      | Some (VObj _ attrs) =>
          match attrs !! "content" with
          | Some (VStr content) => content
          | Some (VList parts) => lines (text_fields parts)
          | _ => repr (VDict result)
          end
      | _ => repr (VDict result)
      end
  | _ => repr (VDict result)
  end.

Lemma part_text_fields parts : omap part_text parts = text_fields parts.
Proof.
  unfold text_fields. induction parts as [|part parts IH]; [done|].
  cbn [omap list_omap mbind list_bind]. rewrite IH.
  destruct part as [| | | | | |d|]; try done. simpl.
  by destruct (d !! "text") as [[]|].
Qed.

Lemma join_lines texts : join nl texts = lines texts.
Proof.
  unfold lines. induction texts as [|text texts IH]; [done|].
  destruct texts as [|text' texts]; [done|].
  change (text +:+ nl +:+ join nl (text' :: texts)
          = text +:+ nl +:+ Stdlib.Strings.String.concat nl (text' :: texts)).
  by rewrite IH.
Qed.

(** C7, as the code has it. With [last] the last message, an object whose
    [content] is text gives that text as it is; one whose [content] is a
    list of parts of which at least one has a text field gives these text
    fields, in order, joined by newlines; one whose [content] is a list of
    parts none of which has a text field gives the stringified last
    message, as does a last message whose [content] is neither text nor a
    list or that has none; and only a result without a non-empty message
    list gives the stringified result. *)
Theorem extract_text_cases (repr : Value → string) (result : gmap string Value) :
  let text := _extract_text_from_agent_result repr result in
  (∀ messages last, result !! "messages" = Some (VList (messages ++ [last])) →
     (∀ cls attrs s,
        last = VObj cls attrs → attrs !! "content" = Some (VStr s) → text = s) ∧
     (∀ cls attrs parts,
        last = VObj cls attrs → attrs !! "content" = Some (VList parts) →
        text_fields parts ≠ [] → text = lines (text_fields parts)) ∧
     (∀ cls attrs parts,
        last = VObj cls attrs → attrs !! "content" = Some (VList parts) →
        text_fields parts = [] → text = repr last) ∧
     ((∀ cls attrs content,
         last = VObj cls attrs → attrs !! "content" = Some content →
         (∀ s, content ≠ VStr s) ∧ (∀ parts, content ≠ VList parts)) →
      (∀ s, last = VStr s → text = s) ∧
      ((∀ s, last ≠ VStr s) → text = repr last))) ∧
  ((∀ messages last, result !! "messages" ≠ Some (VList (messages ++ [last]))) →
     text = repr (VDict result)).
Proof.
  intros text. unfold text, _extract_text_from_agent_result. split.
  - intros messages last' ->. simpl.
    destruct (messages ++ [last']) as [|m ms] eqn:Heq; [by destruct messages|].
    assert (Hlast : last (m :: ms) = Some last') by (by rewrite <- Heq, last_snoc).
    rewrite Hlast. simpl. split_and!.
    + intros cls attrs s -> Hc. simpl. by rewrite Hc.
    + intros cls attrs parts -> Hc Hparts. simpl. rewrite Hc. simpl.
      rewrite part_text_fields.
      destruct (text_fields parts) as [|t ts] eqn:Ht; [done|]. exact (join_lines (t :: ts)).
    + intros cls attrs parts -> Hc Hparts. simpl. rewrite Hc. simpl.
      by rewrite part_text_fields, Hparts.
    + intros Hother. destruct last' as [| | | |s0| | |cls attrs]; simpl.
      1-4,6-7: by split; [intros s [=]|].
      * split; [by intros s [= ->]|]. intros Hs. by destruct (Hs s0).
      * destruct (attrs !! "content") as [content|] eqn:Hc; simpl;
          [|by split; [intros s [=]|]].
        destruct (Hother cls attrs content eq_refl Hc) as [Hs Hl].
        destruct content as [| | | |s| l | |];
          try (by split; [intros ? [=]|]); [by destruct (Hs s)|by destruct (Hl l)].
  - intros Hnone.
    destruct (result !! "messages") as [[| | | | |l| |]|] eqn:Hm; simpl; try done.
    destruct l as [|last' messages _] using rev_ind; [done|].
    by destruct (Hnone messages last').
Qed.

(** ** Agent configurations and backends to run the handler on *)

Module AgentScenarios.

(** The values of [AppConfig.agent_defaults] and
    [AppConfig.agent_tool_settings] without configuration files; the
    temperature is the binary64 nearest to [0.2]. *)
Definition defaults : AgentDefaults :=
  mkAgentDefaults "qwen2.5:1.5b" "You are a helpful workflow agent." "message"
    1024 128 (S754_finite false 7205759403792794 (-55)) ["calculator"; "utc_time"] 6
    [] 5.

(** A stand-in for [str] on values that are not text: it tells a message
    object from the other values. *)
Definition repr (v : Value) : string :=
  match v with
  | VObj cls _ => "<" +:+ cls +:+ ">"
  | _ => "<value>"
  end.

Definition ai_message (content : Value) : Value :=
  VObj "AIMessage" {[ "content" := content ]}.

Definition reply (content : Value) : gmap string Value :=
  {[ "messages" := VList [ai_message (VStr "hello"); ai_message content] ]}.

(** A message whose only part is a tool call. *)
Definition tool_use_reply : gmap string Value :=
  reply (VList [VDict {[ "type" := VStr "tool_use" ]}]).

(** A message of two text parts around a tool call and a part that is no
    object. *)
Definition parts_reply : gmap string Value :=
  reply (VList [VDict {[ "type" := VStr "text"; "text" := VStr "first" ]};
                VDict {[ "type" := VStr "tool_use" ]};
                VStr "loose";
                VDict {[ "type" := VStr "text"; "text" := VStr "second" ]}]).

(** A backend that answers the second call of a handler run with blanks and
    every other call with its number. *)
Definition backend : list ModelCall → ModelCall → outcome (gmap string Value) :=
  λ history _call,
    Ok (reply (VStr (if decide (length history = 1%nat) then "  "
                     else "answer " +:+ pretty (length history)))).

(** The packages are installed and the constructors accept their
    arguments. *)
Definition setup : list ModelCall → ModelCall → outcome unit :=
  λ _history _call, Ok tt.

(** Three steps, the second one named. *)
Definition chain_params : gmap string Value :=
  {[ "agents" := VList [VDict ∅; VDict {[ "name" := VStr "second" ]}; VDict ∅] ]}.

Definition payload : gmap string Value := {[ "message" := VStr "P"; "user" := VStr "u1" ]}.

(** The input field bound to [None]. *)
Definition null_payload : gmap string Value := {[ "message" := VNone; "user" := VStr "u1" ]}.

(** An empty step list next to a temperature no float can hold. *)
Definition overflow_params : gmap string Value :=
  {[ "agents" := VList []; "temperature" := VInt (10 ^ 400) ]}.

End AgentScenarios.

(** The rule as stated fails on a last message whose parts have no text
    field: it gives the empty string, the code the stringified message. *)
Lemma extract_as_stated_fails :
  ¬ ∀ repr result,
      _extract_text_from_agent_result repr result = extract_as_stated repr result.
Proof.
  intros H. specialize (H AgentScenarios.repr AgentScenarios.tool_use_reply).
  vm_compute in H. discriminate.
Qed.

Lemma extract_text_cases_witness :
  _extract_text_from_agent_result AgentScenarios.repr AgentScenarios.tool_use_reply
  = "<AIMessage>" ∧
  _extract_text_from_agent_result AgentScenarios.repr AgentScenarios.parts_reply
  = "first" +:+ nl +:+ "second".
Proof.
  split.
  - destruct (extract_text_cases AgentScenarios.repr AgentScenarios.tool_use_reply)
      as [Hlast _].
    destruct (Hlast [AgentScenarios.ai_message (VStr "hello")]
                (AgentScenarios.ai_message (VList [VDict {[ "type" := VStr "tool_use" ]}]))
                eq_refl) as (_ & _ & Hnotext & _).
    exact (Hnotext _ _ [VDict {[ "type" := VStr "tool_use" ]}] eq_refl eq_refl eq_refl).
  - destruct (extract_text_cases AgentScenarios.repr AgentScenarios.parts_reply)
      as [Hlast _].
    destruct (Hlast [AgentScenarios.ai_message (VStr "hello")] _ eq_refl)
      as (_ & Htexts & _).
    refine (Htexts _ _ _ eq_refl eq_refl _). vm_compute. discriminate.
Defined.

(** ** The input field *)

(** The error for a payload without the input field, which it names. *)
Definition MissingInputField (field : string) (e : exn) : Prop :=
  e = ValueError ("langgraph_agent expected input field '" +:+ field +:+ "' in payload").

Lemma validate_common_settings_Ok model input_field num_ctx num_predict temperature
    max_tool_calls settings :
  _validate_common_settings model input_field num_ctx num_predict temperature
    max_tool_calls = Ok settings →
  model = VStr (cs_model settings) ∧ cs_model settings ≠ "" ∧
  input_field = VStr (cs_input_field settings) ∧ cs_input_field settings ≠ "" ∧
  cs_num_ctx settings = num_ctx ∧ is_int num_ctx = true ∧ 0 < int_value num_ctx ∧
  cs_num_predict settings = num_predict ∧ is_int num_predict = true ∧
  0 < int_value num_predict ∧
  is_number temperature = true ∧ py_float temperature = Ok (cs_temperature settings) ∧
  cs_max_tool_calls settings = max_tool_calls ∧ is_int max_tool_calls = true ∧
  0 < int_value max_tool_calls.
Proof.
  unfold _validate_common_settings. intros H.
  destruct model as [| | | |[|c m]| | |]; try done.
  destruct input_field as [| | | |[|c' f]| | |]; try done.
  destruct (is_int num_ctx) eqn:H1; simpl in H; [|done].
  destruct (int_value num_ctx <=? 0) eqn:H1'; [done|].
  destruct (is_int num_predict) eqn:H2; simpl in H; [|done].
  destruct (int_value num_predict <=? 0) eqn:H2'; [done|].
  destruct (is_number temperature) eqn:H3; simpl in H; [|done].
  destruct (is_int max_tool_calls) eqn:H4; simpl in H; [|done].
  destruct (int_value max_tool_calls <=? 0) eqn:H4'; [done|].
  destruct (py_float temperature) as [f'|e] eqn:Hf; simpl in H; [|done].
  inversion H; subst; simpl. split_and!; try done; lia.
Qed.

(** C10. With a configuration that passes validation, a payload that binds
    the configured input field to [None] makes the handler raise the
    missing-field error naming that field, before any model call, as the
    payload without the field does. *)
Theorem handler_null_input_field (defaults : AgentDefaults) (repr : Value → string)
    (agent_setup : list ModelCall → ModelCall → outcome unit)
    (agent_invoke : list ModelCall → ModelCall → outcome (gmap string Value))
    (params payload : gmap string Value) (cfg : Configured) (field : string) :
  configure defaults params = Ok cfg →
  field = cs_input_field (c_settings cfg) →
  payload !! field = Some VNone →
  default (VStr (default_input_field defaults)) (params !! "input_field") = VStr field ∧
  ∃ e, MissingInputField field e ∧
       langgraph_agent_handler defaults repr agent_setup agent_invoke params payload
         = ([], Raise e) ∧
       langgraph_agent_handler defaults repr agent_setup agent_invoke params
         (delete field payload)
         = ([], Raise e).
Proof.
  intros Hcfg -> Hnull. split.
  - unfold configure in Hcfg.
    destruct (default _ (params !! "system_prompt")) as [| | | |sp| | |]; try done.
    destruct (as_str_list _) as [tools|]; [|done].
    destruct (_validate_common_settings _ _ _ _ _ _) as [settings|e] eqn:Hv; [|done].
    simpl in Hcfg.
    destruct (_normalize_agent_chain _ _ _ _) as [chain|e]; [|done].
    inversion Hcfg; subst; simpl.
    by apply validate_common_settings_Ok in Hv as (_ & _ & ? & _).
  - eexists. split; [reflexivity|].
    unfold langgraph_agent_handler, read_input. rewrite Hcfg.
    by rewrite Hnull, lookup_delete_eq.
Qed.

Lemma handler_null_input_field_witness :
  ∃ e, MissingInputField "message" e ∧
       langgraph_agent_handler AgentScenarios.defaults AgentScenarios.repr
         AgentScenarios.setup AgentScenarios.backend AgentScenarios.chain_params
         AgentScenarios.null_payload
         = ([], Raise e).
Proof.
  destruct (configure AgentScenarios.defaults AgentScenarios.chain_params)
    as [cfg|e] eqn:Hcfg; [|by vm_compute in Hcfg].
  assert (Hfield : "message" = cs_input_field (c_settings cfg)).
  { vm_compute in Hcfg. by inversion Hcfg. }
  destruct (handler_null_input_field AgentScenarios.defaults AgentScenarios.repr
              AgentScenarios.setup AgentScenarios.backend AgentScenarios.chain_params
              AgentScenarios.null_payload cfg "message" Hcfg Hfield eq_refl)
    as (_ & e & He & Hrun & _).
  by exists e.
Defined.

(** ** Chained mode *)

(** The design's words. The fixed template of the steps after the first:
    the original request, the running context and the instruction to
    continue and improve, on lines of their own. *)
Definition template_prompt (original_request running_context : string) : string :=
  lines ["Original user request:"; original_request; "";
         "Current context from previous agents:"; running_context; "";
         "Continue and improve the answer."].

(** The running context after steps whose outputs were [outs], from the
    first to the last: the original input at the start; a step whose output
    is whitespace only leaves it as it is, any other output replaces it. *)
Inductive context_after (original_input : string) : list string → string → Prop :=
| context_start : context_after original_input [] original_input
| context_kept outs ctx out :
    context_after original_input outs ctx → blank out →
    context_after original_input (outs ++ [out]) ctx
| context_replaced outs ctx out :
    context_after original_input outs ctx → ¬ blank out →
    context_after original_input (outs ++ [out]) out.

(** The trace entry of a step: its name, its model, its tools and the
    output it gave, and nothing else. *)
Definition trace_entry_of (step : AgentStep) (output : string) (entry : Value) : Prop :=
  ∃ d, entry = VDict d ∧
       d !! "name" = Some (VStr (step_name step)) ∧
       d !! "model" = Some (VStr (step_model step)) ∧
       d !! "tools" = Some (VList (VStr <$> step_tools step)) ∧
       d !! "output" = Some (VStr output) ∧
       ∀ k, k ∉ ["name"; "model"; "tools"; "output"] → d !! k = None.

(** The update of the running context in the loop of [run_chain]. *)
Definition update_context (running_context output_text : string) : string :=
  match strip output_text with
  | EmptyString => running_context
  | _ => output_text
  end.

Definition running_context (original_input : string) (outs : list string) : string :=
  foldl update_context original_input outs.

Lemma running_context_snoc original_input outs output_text :
  running_context original_input (outs ++ [output_text]) =
  if decide (strip output_text = "") then running_context original_input outs
  else output_text.
Proof.
  unfold running_context. rewrite foldl_app. simpl. unfold update_context.
  by destruct (strip output_text).
Qed.

Lemma running_context_after original_input outs :
  context_after original_input outs (running_context original_input outs).
Proof.
  induction outs as [|out outs IH] using rev_ind; [constructor|].
  rewrite running_context_snoc. destruct (decide (strip out = "")) as [Hs|Hs].
  - apply context_kept; [done|]. by apply strip_empty.
  - apply (context_replaced _ _ (running_context original_input outs)); [done|].
    by rewrite <- strip_empty.
Qed.

(** The running context is determined by the outputs. *)
Lemma context_after_running original_input outs ctx :
  context_after original_input outs ctx → ctx = running_context original_input outs.
Proof.
  induction 1 as [|outs ctx out _ IH Hb|outs ctx out _ IH Hb]; [done|..];
    rewrite running_context_snoc.
  - apply strip_empty in Hb. by rewrite decide_True.
  - rewrite <- strip_empty in Hb. by rewrite decide_False.
Qed.

Lemma continue_prompt_template original_input running_context :
  continue_prompt original_input running_context
  = template_prompt original_input running_context.
Proof. reflexivity. Qed.

(** Reads a field of a payload built by successive assignments. *)
Ltac read_field :=
  repeat first [rewrite lookup_insert_eq | rewrite lookup_insert_ne by done].

Lemma trace_entry_spec step output : trace_entry_of step output (trace_entry step output).
Proof.
  unfold trace_entry. eexists. split; [done|].
  split_and!; try (by read_field).
  intros k Hk. repeat (apply not_elem_of_cons in Hk as [? Hk]).
  rewrite !lookup_insert_ne by done. apply lookup_empty.
Qed.

Section chain.
Variable defaults : AgentDefaults.
Variable repr : Value → string.
Variable agent_setup : list ModelCall → ModelCall → outcome unit.
Variable agent_invoke : list ModelCall → ModelCall → outcome (gmap string Value).
Variable settings : CommonSettings.
Variable original_input : string.

(** The call [run_chain] prepares for [step] at position [idx] with running
    context [ctx]. *)
Definition chain_call (step : AgentStep) (idx : nat) (ctx : string) : ModelCall :=
  single_agent_call defaults (step_model step) (step_system_prompt step)
    match idx with
    | O => ctx
    | S _ => continue_prompt original_input ctx
    end
    (step_tools step) (cs_num_ctx settings) (cs_num_predict settings)
    (cs_temperature settings) (cs_max_tool_calls settings).

(** What the loop did: the calls that reached the model, the outputs of
    those that returned, and where it stopped when it raised: at a call
    that raised, or before the next call, in the imports or constructors. *)
Lemma run_chain_spec steps idx ctx trace history calls r :
  run_chain defaults repr agent_setup agent_invoke settings original_input
    steps idx ctx trace history = (calls, r) →
  ∃ new outs,
    calls = history ++ new ∧
    (length outs ≤ length new)%nat ∧ (length new ≤ length steps)%nat ∧
    (∀ i call, new !! i = Some call →
       ∃ step, steps !! i = Some step ∧
               call = chain_call step (idx + i) (foldl update_context ctx (take i outs)) ∧
               agent_setup (history ++ take i new) call = Ok tt) ∧
    (∀ i out, outs !! i = Some out →
       ∃ call result, new !! i = Some call ∧
                      agent_invoke (history ++ take i new) call = Ok result ∧
                      out = _extract_text_from_agent_result repr result) ∧
    (∀ text trace', r = Ok (text, trace') →
       length outs = length steps ∧ length new = length steps ∧
       text = foldl update_context ctx outs ∧
       trace' = trace ++ zip_with trace_entry steps outs) ∧
    (∀ e, r = Raise e →
       (∃ call, new = take (length outs) new ++ [call] ∧
                agent_invoke (history ++ take (length outs) new) call = Raise e) ∨
       (length new = length outs ∧
        ∃ step, steps !! length outs = Some step ∧
                agent_setup calls
                  (chain_call step (idx + length outs) (foldl update_context ctx outs))
                = Raise e)) ∧
    ((∀ h c, agent_setup h c = Ok tt ∧ ∃ result, agent_invoke h c = Ok result) →
     ∃ x, r = Ok x).
Proof.
  revert idx ctx trace history.
  induction steps as [|step rest IH]; intros idx ctx trace history H.
  - simpl in H. inversion H; subst. exists [], []. rewrite app_nil_r.
    split_and!; try done.
    + intros text trace' [= <- <-]. by rewrite app_nil_r.
    + intros _. by eexists.
  - cbn [run_chain] in H. unfold _run_single_agent in H.
    fold (chain_call step idx ctx) in H.
    destruct (agent_setup history (chain_call step idx ctx)) as [[]|e] eqn:Hsetup.
    + destruct (agent_invoke history (chain_call step idx ctx)) as [result|e] eqn:Hcall;
        simpl in H.
      * fold (update_context ctx (_extract_text_from_agent_result repr result)) in H.
        apply IH in H
          as (new & outs & -> & Hlen1 & Hlen2 & Hcalls & Houts & Hfinal & Hraise & Htotal).
        exists (chain_call step idx ctx :: new),
               (_extract_text_from_agent_result repr result :: outs).
        split_and!.
        -- by rewrite <- app_assoc.
        -- simpl. lia.
        -- simpl. lia.
        -- intros [|i] call Hi; simpl in *.
           ++ inversion Hi; subst. exists step. by rewrite Nat.add_0_r, app_nil_r.
           ++ destruct (Hcalls i call Hi) as (step' & Hstep & -> & Hs). exists step'.
              split_and!; [done| |].
              ** by rewrite Nat.add_succ_r.
              ** by rewrite <- app_assoc in Hs.
        -- intros [|i] out Hi; simpl in *.
           ++ inversion Hi; subst. exists (chain_call step idx ctx), result.
              by rewrite app_nil_r.
           ++ destruct (Houts i out Hi) as (call & result' & Hnew & Hinv & ->).
              exists call, result'. split_and!; [done| |done].
              by rewrite <- app_assoc in Hinv.
        -- intros text trace' Hr. destruct (Hfinal text trace' Hr) as (Hl & Hl' & -> & ->).
           split_and!; [simpl; lia|simpl; lia|done|]. by rewrite <- app_assoc.
        -- intros e He. destruct (Hraise e He) as [(call & Hc & Hinv)|(Hl & step' & Hs & Hset)].
           ++ left. exists call. simpl. split; [by f_equal|].
              by rewrite <- app_assoc in Hinv.
           ++ right. simpl. split; [lia|]. exists step'. split; [done|].
              by rewrite Nat.add_succ_r, <- app_assoc in *.
        -- done.
      * inversion H; subst. exists [chain_call step idx ctx], []. split_and!; try done.
        -- simpl. lia.
        -- simpl. lia.
        -- intros [|i] call Hi; simpl in *; [|done].
           inversion Hi; subst. exists step. by rewrite Nat.add_0_r, app_nil_r.
        -- intros e' [= <-]. left. exists (chain_call step idx ctx). simpl.
           by rewrite app_nil_r.
        -- intros Htot. destruct (Htot history (chain_call step idx ctx)) as [_ [result Hres]].
           by rewrite Hres in Hcall.
    + inversion H; subst. exists [], []. rewrite app_nil_r. split_and!; try done.
      * simpl. lia.
      * intros e' [= <-]. right. split; [done|]. exists step. simpl.
        by rewrite Nat.add_0_r.
      * intros Htot. destruct (Htot calls (chain_call step idx ctx)) as [Hs _].
        by rewrite Hs in Hsetup.
Qed.

End chain.

Section agent_handler.
Variable defaults : AgentDefaults.
Variable repr : Value → string.
Variable agent_setup : list ModelCall → ModelCall → outcome unit.
Variable agent_invoke : list ModelCall → ModelCall → outcome (gmap string Value).

(** The agent stack is there and every call to the model returns. *)
Definition backend_returns : Prop :=
  ∀ history call,
    agent_setup history call = Ok tt ∧ ∃ result, agent_invoke history call = Ok result.

Lemma handler_chained params payload cfg original_input calls r :
  configure defaults params = Ok cfg →
  read_input repr cfg payload = Ok original_input →
  c_agent_chain cfg ≠ [] →
  langgraph_agent_handler defaults repr agent_setup agent_invoke params payload
    = (calls, r) →
  ∃ r0,
    run_chain defaults repr agent_setup agent_invoke (c_settings cfg) original_input
      (c_agent_chain cfg) 0 original_input [] [] = (calls, r0) ∧
    (∀ x, r0 = Ok x → r = Ok (merge_output payload cfg x.1 x.2)) ∧
    (∀ merged, r = Ok merged → ∃ x, r0 = Ok x).
Proof.
  intros Hcfg Hin Hchain. unfold langgraph_agent_handler, execute.
  rewrite Hcfg, Hin.
  destruct (c_agent_chain cfg) as [|step rest] eqn:Hsteps; [done|].
  destruct (run_chain _ _ _ _ _ _ _ _ _ _ _) as [calls0 r0] eqn:Hrun.
  intros H. exists r0.
  destruct r0 as [[text trace]|e].
  - inversion H; subst. split_and!; [done| |by eexists].
    by intros x [= <-].
  - assert (calls0 = calls ∧ ∃ e', r = Raise e') as [-> [e' ->]].
    { destruct e; inversion H; subst; eauto. }
    split_and!; done.
Qed.

(** C5. In chained mode the handler calls the steps in order, each with its
    own model. The first step gets the text of the input field as it is;
    every later step gets the fixed template around that text and the
    running context. The running context starts as the original input; the
    output of a step replaces it unless that output is whitespace only.
    When the handler returns, every step has been called and has an output,
    the text output is the running context after the last step, and the
    trace has an entry for every step, in order, with the step's name, model
    and tools and its output as it was returned, whitespace or not. The
    handler returns when the agent stack does. *)
Theorem chained_mode_protocol (params payload : gmap string Value)
    (cfg : Configured) (original_input : string)
    (calls : list ModelCall) (r : outcome (gmap string Value)) :
  configure defaults params = Ok cfg →
  read_input repr cfg payload = Ok original_input →
  c_agent_chain cfg ≠ [] →
  langgraph_agent_handler defaults repr agent_setup agent_invoke params payload
    = (calls, r) →
  (∀ s, payload !! cs_input_field (c_settings cfg) = Some (VStr s) →
        original_input = s) ∧
  ∃ outs,
    (length outs ≤ length calls)%nat ∧
    (length calls ≤ length (c_agent_chain cfg))%nat ∧
    (∀ i call, calls !! i = Some call →
       ∃ step ctx,
         c_agent_chain cfg !! i = Some step ∧
         call_model call = step_model step ∧
         context_after original_input (take i outs) ctx ∧
         call_user_prompt call =
           match i with
           | O => original_input
           | S _ => template_prompt original_input ctx
           end) ∧
    (∀ i out, outs !! i = Some out →
       ∃ call result, calls !! i = Some call ∧
                      agent_invoke (take i calls) call = Ok result ∧
                      out = _extract_text_from_agent_result repr result) ∧
    (∀ merged, r = Ok merged →
       length outs = length (c_agent_chain cfg) ∧
       length calls = length (c_agent_chain cfg) ∧
       (∃ ctx, context_after original_input outs ctx ∧
               merged !! "agent_output" = Some (VStr ctx)) ∧
       ∃ trace,
         merged !! "agent_trace" = Some (VList trace) ∧
         length trace = length outs ∧
         ∀ i step out, c_agent_chain cfg !! i = Some step → outs !! i = Some out →
           ∃ entry, trace !! i = Some entry ∧ trace_entry_of step out entry) ∧
    (backend_returns → ∃ merged, r = Ok merged).
Proof.
  intros Hcfg Hin Hchain Hrun. split.
  - intros s Hs. unfold read_input in Hin. rewrite Hs in Hin. simpl in Hin.
    by inversion Hin.
  - destruct (handler_chained _ _ _ _ _ _ Hcfg Hin Hchain Hrun) as (r0 & Hloop & Hok & Hback).
    apply run_chain_spec in Hloop
      as (new & outs & Heq & Hlen1 & Hlen2 & Hcalls & Houts & Hfinal & _ & Htotal).
    simpl in Heq. subst new. exists outs. split_and!; [done..| | | |].
    + intros i call Hi. destruct (Hcalls i call Hi) as (step & Hstep & -> & _).
      exists step, (running_context original_input (take i outs)).
      split_and!; [done..|apply running_context_after|].
      simpl. destruct i; [done|]. apply continue_prompt_template.
    + intros i out Hi. destruct (Houts i out Hi) as (call & result & ? & ? & ?).
      by exists call, result.
    + intros merged Hr. destruct (Hback merged Hr) as [[text trace] Hr0].
      destruct (Hfinal text trace Hr0) as (Hlen & Hlen' & -> & ->).
      rewrite (Hok _ Hr0) in Hr. inversion Hr; subst merged. simpl.
      split_and!; [done..| |].
      * exists (running_context original_input outs).
        split; [apply running_context_after|].
        unfold merge_output. by destruct (zip_with _ _ _); read_field.
      * exists (zip_with trace_entry (c_agent_chain cfg) outs).
        assert (Hzl : length (zip_with trace_entry (c_agent_chain cfg) outs)
                      = length outs)
          by (rewrite length_zip_with; lia).
        split_and!; [|done|].
        -- unfold merge_output.
           destruct (zip_with trace_entry (c_agent_chain cfg) outs) as [|entry entries];
             [|by read_field].
           exfalso. simpl in Hzl. destruct (c_agent_chain cfg); [done|].
           simpl in Hlen. lia.
        -- intros i step out Hstep Hout. exists (trace_entry step out).
           split; [|apply trace_entry_spec].
           by rewrite lookup_zip_with, Hstep, Hout.
    + intros Hret. destruct (Htotal Hret) as [x Hx]. rewrite (Hok x Hx). by eexists.
Qed.

End agent_handler.

(** ** What validation establishes *)

Lemma as_str_list_Some v l : as_str_list v = Some l → v = VList (VStr <$> l).
Proof.
  destruct v as [| | | | |items| |]; simpl; try done.
  intros Hm. f_equal. apply mapM_Some in Hm.
  induction Hm as [|x s items l Hx Hrest IH]; simpl; [done|].
  destruct x; simpl in Hx; try done. inversion Hx. by rewrite IH.
Qed.

Lemma normalize_agents_length default_model default_prompt default_tools idx items steps :
  normalize_agents default_model default_prompt default_tools idx items = Ok steps →
  length steps = length items.
Proof.
  revert idx steps. induction items as [|item items IH]; simpl; intros idx steps H.
  - by inversion H.
  - destruct (normalize_agent _ _ _ idx item) as [step|e]; simpl in H; [|done].
    destruct (normalize_agents _ _ _ (S idx) items) as [steps'|e] eqn:Hrest;
      simpl in H; [|done].
    inversion H; subst. simpl. f_equal. by eapply IH.
Qed.

(** The chain is empty exactly when no step list is given. *)
Lemma normalize_agent_chain_Ok raw_agents default_model default_prompt default_tools chain :
  _normalize_agent_chain raw_agents default_model default_prompt default_tools = Ok chain →
  (raw_agents = VNone ∧ chain = []) ∨
  (∃ items, raw_agents = VList items ∧ items ≠ [] ∧ chain ≠ [] ∧
            length chain = length items).
Proof.
  unfold _normalize_agent_chain. intros H.
  destruct raw_agents as [| | | | |[|item items]| |]; try done.
  - left. by inversion H.
  - right. exists (item :: items). apply normalize_agents_length in H.
    split_and!; [done..| |done]. by destruct chain.
Qed.

Section configured.
Variable defaults : AgentDefaults.

Lemma configure_Ok params cfg :
  configure defaults params = Ok cfg →
  default (VStr (default_model defaults)) (params !! "model")
    = VStr (cs_model (c_settings cfg)) ∧
  default (VInt (default_num_ctx defaults)) (params !! "num_ctx")
    = cs_num_ctx (c_settings cfg) ∧
  default (VInt (default_num_predict defaults)) (params !! "num_predict")
    = cs_num_predict (c_settings cfg) ∧
  default (VList (VStr <$> default_tools defaults)) (params !! "tools")
    = VList (VStr <$> c_tools cfg) ∧
  _normalize_agent_chain (default VNone (params !! "agents"))
    (cs_model (c_settings cfg)) (c_system_prompt cfg) (c_tools cfg)
    = Ok (c_agent_chain cfg).
Proof.
  unfold configure. intros H.
  destruct (default _ (params !! "system_prompt")) as [| | | |sp| | |]; try done.
  destruct (as_str_list _) as [tools|] eqn:Htools; [|done].
  destruct (_validate_common_settings _ _ _ _ _ _) as [settings|e] eqn:Hv; [|done].
  simpl in H.
  destruct (_normalize_agent_chain _ _ _ _) as [chain|e] eqn:Hchain; [|done].
  inversion H; subst; simpl.
  apply validate_common_settings_Ok in Hv
    as (Hm & _ & _ & _ & Hc & _ & _ & Hp & _).
  apply as_str_list_Some in Htools. by split_and!.
Qed.

End configured.

(** ** The payload the handler returns *)

(** The fields the handler sets in either mode, and those of chained mode. *)
Definition base_fields : list string :=
  ["agent_output"; "agent_model"; "agent_num_ctx"; "agent_num_predict"; "agent_tools"].

Definition trace_fields : list string := ["agent_trace"; "agent_count"].

Ltac read_other_field Hk :=
  repeat (apply not_elem_of_cons in Hk as [? Hk]);
  repeat first [rewrite lookup_insert_eq
               | rewrite lookup_insert_ne by first [done | congruence]].

Section output_contract.
Variable defaults : AgentDefaults.
Variable repr : Value → string.
Variable agent_setup : list ModelCall → ModelCall → outcome unit.
Variable agent_invoke : list ModelCall → ModelCall → outcome (gmap string Value).

(** C8. The payload the handler returns holds the text output, the model,
    the two generation limits and the tool list as configured. Without a
    step list the text output is the text of the one answer, and nothing
    else is set: the trace and count fields are those of the input payload,
    as is every field other than the five set. With a step list the text
    output is the running context after the last step, the trace has an
    entry for every step, in the order of the steps, with the step's name,
    model and tools and the output it gave, the count is the number of
    steps, and every field other than these seven is that of the input
    payload. *)
Theorem handler_output_contract (params payload : gmap string Value)
    (calls : list ModelCall) (merged : gmap string Value) :
  langgraph_agent_handler defaults repr agent_setup agent_invoke params payload
    = (calls, Ok merged) →
  let agents := default VNone (params !! "agents") in
  (∃ text, merged !! "agent_output" = Some (VStr text)) ∧
  merged !! "agent_model"
    = Some (default (VStr (default_model defaults)) (params !! "model")) ∧
  merged !! "agent_num_ctx"
    = Some (default (VInt (default_num_ctx defaults)) (params !! "num_ctx")) ∧
  merged !! "agent_num_predict"
    = Some (default (VInt (default_num_predict defaults)) (params !! "num_predict")) ∧
  merged !! "agent_tools"
    = Some (default (VList (VStr <$> default_tools defaults)) (params !! "tools")) ∧
  (agents = VNone →
     (∃ call result, calls = [call] ∧ agent_invoke [] call = Ok result ∧
        merged !! "agent_output"
          = Some (VStr (_extract_text_from_agent_result repr result))) ∧
     merged !! "agent_trace" = payload !! "agent_trace" ∧
     merged !! "agent_count" = payload !! "agent_count" ∧
     ∀ k, k ∉ base_fields → merged !! k = payload !! k) ∧
  (agents ≠ VNone →
     ∃ items trace cfg original_input outs ctx,
       agents = VList items ∧ length trace = length items ∧
       length calls = length items ∧
       configure defaults params = Ok cfg ∧
       read_input repr cfg payload = Ok original_input ∧
       length (c_agent_chain cfg) = length items ∧
       length outs = length items ∧
       (∀ i out, outs !! i = Some out →
          ∃ call result, calls !! i = Some call ∧
                         agent_invoke (take i calls) call = Ok result ∧
                         out = _extract_text_from_agent_result repr result) ∧
       context_after original_input outs ctx ∧
       merged !! "agent_output" = Some (VStr ctx) ∧
       merged !! "agent_trace" = Some (VList trace) ∧
       (∀ i entry, trace !! i = Some entry →
          ∃ step out, c_agent_chain cfg !! i = Some step ∧ outs !! i = Some out ∧
                      trace_entry_of step out entry) ∧
       merged !! "agent_count" = Some (VInt (Z.of_nat (length items))) ∧
       ∀ k, k ∉ base_fields ++ trace_fields → merged !! k = payload !! k).
Proof.
  intros Hrun agents.
  destruct (configure defaults params) as [cfg|e] eqn:Hcfg;
    [|by unfold langgraph_agent_handler in Hrun; rewrite Hcfg in Hrun].
  destruct (read_input repr cfg payload) as [original_input|e] eqn:Hin;
    [|by unfold langgraph_agent_handler in Hrun; rewrite Hcfg, Hin in Hrun].
  destruct (configure_Ok _ _ _ Hcfg) as (Hmodel & Hctx & Hpredict & Htools & Hchain).
  rewrite Hmodel, Hctx, Hpredict, Htools.
  apply normalize_agent_chain_Ok in Hchain as [[Hnone Hnil]|(items & Hitems & Hne & Hsteps & Hlen)].
  - (* single-step mode *)
    unfold langgraph_agent_handler, execute in Hrun. rewrite Hcfg, Hin, Hnil in Hrun.
    unfold _run_single_agent in Hrun.
    set (call := single_agent_call _ _ _ _ _ _ _ _ _) in Hrun.
    destruct (agent_setup [] call) as [[]|e] eqn:Hsetup; [|by destruct e].
    destruct (agent_invoke [] call) as [result|e] eqn:Hcall; simpl in Hrun;
      [|by destruct e].
    inversion Hrun; subst calls merged. unfold merge_output.
    split_and!; try (by read_field); try (by eexists; read_field).
    intros _. split_and!; try (by read_field).
    + exists call, result. split_and!; [done..|]. by read_field.
    + intros k Hk. unfold base_fields in Hk. by read_other_field Hk.
  - (* chained mode *)
    destruct (handler_chained _ _ _ _ _ _ _ _ _ _ Hcfg Hin Hsteps Hrun)
      as (r0 & Hloop & Hok & Hback).
    destruct (Hback merged eq_refl) as [[text trace] Hr0].
    specialize (Hok _ Hr0). injection Hok as ->. simpl.
    apply run_chain_spec in Hloop
      as (new & outs & Heq & Hlen1 & Hlen2 & _ & Houts & Hfinal & _).
    simpl in Heq. subst new.
    destruct (Hfinal text trace Hr0) as (Houtl & Hcallsl & -> & Htrace). simpl in Htrace.
    assert (Htl : length trace = length items).
    { rewrite Htrace, length_zip_with, Houtl, Nat.min_id. done. }
    assert (Hentries : ∀ i entry, trace !! i = Some entry →
              ∃ step out, c_agent_chain cfg !! i = Some step ∧ outs !! i = Some out ∧
                          trace_entry_of step out entry).
    { intros i entry Hi. rewrite Htrace, lookup_zip_with in Hi.
      destruct (c_agent_chain cfg !! i) as [step|]; simpl in Hi; [|done].
      destruct (outs !! i) as [out|]; simpl in Hi; [|done].
      inversion Hi; subst entry. exists step, out.
      split_and!; [done..|]. apply trace_entry_spec. }
    unfold merge_output.
    destruct trace as [|entry trace']; [by destruct items|].
    split_and!; try (by read_field); try (by eexists; read_field).
    { intros Hagents. unfold agents in Hagents. by rewrite Hitems in Hagents. }
    intros _.
    exists items, (entry :: trace'), cfg, original_input, outs,
           (running_context original_input outs).
    split_and!; try (by read_field); try done.
    + lia.
    + lia.
    + apply running_context_after.
    + read_field. by rewrite Htl.
    + intros k Hk. unfold base_fields, trace_fields in Hk. simpl in Hk.
      by read_other_field Hk.
Qed.

End output_contract.

(** ** The handler on the scenarios *)

Module AgentRuns.
Import AgentScenarios.

Definition settings : CommonSettings :=
  mkCommonSettings "qwen2.5:1.5b" "message" (VInt 1024) (VInt 128)
    (S754_finite false 7205759403792794 (-55)) (VInt 6).

Definition single_config : Configured :=
  mkConfigured settings "You are a helpful workflow agent." ["calculator"; "utc_time"] [].

Definition chain_config : Configured :=
  mkConfigured settings "You are a helpful workflow agent." ["calculator"; "utc_time"]
    [mkAgentStep "agent_1" "You are a helpful workflow agent." "qwen2.5:1.5b"
       ["calculator"; "utc_time"];
     mkAgentStep "second" "You are a helpful workflow agent." "qwen2.5:1.5b"
       ["calculator"; "utc_time"];
     mkAgentStep "agent_3" "You are a helpful workflow agent." "qwen2.5:1.5b"
       ["calculator"; "utc_time"]].

Lemma configure_single : configure defaults ∅ = Ok single_config.
Proof. vm_compute. reflexivity. Qed.

Lemma configure_chain : configure defaults chain_params = Ok chain_config.
Proof. vm_compute. reflexivity. Qed.

Lemma backend_always_returns : backend_returns setup backend.
Proof. intros history call. split; [done|]. by eexists. Qed.

Definition single_run := langgraph_agent_handler defaults repr setup backend ∅ payload.
Definition chain_run :=
  langgraph_agent_handler defaults repr setup backend chain_params payload.

Definition chain_output : gmap string Value :=
  match chain_run.2 with
  | Ok merged => merged
  | Raise _ => ∅
  end.

Lemma single_run_returns :
  single_run = (single_run.1, Ok (merge_output payload single_config "answer 0" [])).
Proof. vm_compute. reflexivity. Qed.

Lemma chain_run_returns : chain_run = (chain_run.1, Ok chain_output).
Proof. vm_compute. reflexivity. Qed.

End AgentRuns.

Lemma chained_mode_protocol_witness :
  ∃ outs merged ctx,
    AgentRuns.chain_run.2 = Ok merged ∧
    length outs = 3%nat ∧
    context_after "P" outs ctx ∧
    merged !! "agent_output" = Some (VStr ctx).
Proof.
  destruct (chained_mode_protocol AgentScenarios.defaults AgentScenarios.repr
              AgentScenarios.setup AgentScenarios.backend AgentScenarios.chain_params
              AgentScenarios.payload AgentRuns.chain_config "P"
              AgentRuns.chain_run.1 AgentRuns.chain_run.2)
    as (_ & outs & _ & _ & _ & _ & Hfinal & Htotal).
  - exact AgentRuns.configure_chain.
  - reflexivity.
  - discriminate.
  - apply surjective_pairing.
  - destruct (Htotal AgentRuns.backend_always_returns) as [merged Hmerged].
    destruct (Hfinal merged Hmerged) as (Hlen & _ & (ctx & Hctx & Hout) & _).
    exists outs, merged, ctx. by split_and!.
Defined.

Lemma handler_output_contract_witness :
  (let merged :=
     merge_output AgentScenarios.payload AgentRuns.single_config "answer 0" [] in
   merged !! "agent_trace" = None ∧ merged !! "user" = Some (VStr "u1")) ∧
  ∃ trace,
    AgentRuns.chain_output !! "agent_trace" = Some (VList trace) ∧
    length trace = 3%nat ∧
    AgentRuns.chain_output !! "agent_count" = Some (VInt 3) ∧
    AgentRuns.chain_output !! "user" = Some (VStr "u1").
Proof.
  split.
  - intros merged.
    destruct (handler_output_contract AgentScenarios.defaults AgentScenarios.repr
                AgentScenarios.setup AgentScenarios.backend ∅ AgentScenarios.payload
                AgentRuns.single_run.1 merged AgentRuns.single_run_returns)
      as (_ & _ & _ & _ & _ & Hsingle & _).
    destruct (Hsingle eq_refl) as (_ & Htrace & _ & Hframe).
    split.
    + by rewrite Htrace.
    + rewrite Hframe; [done|]. unfold base_fields. by_evaluation.
  - destruct (handler_output_contract AgentScenarios.defaults AgentScenarios.repr
                AgentScenarios.setup AgentScenarios.backend AgentScenarios.chain_params
                AgentScenarios.payload AgentRuns.chain_run.1 AgentRuns.chain_output
                AgentRuns.chain_run_returns)
      as (_ & _ & _ & _ & _ & _ & Hchain).
    destruct Hchain
      as (items & trace & _ & _ & _ & _ & Hitems & Hlen & _ & _ & _ & _ & _ & _ & _ & _ &
          Htrace & _ & Hcount & Hframe); [discriminate|].
    assert (items = [VDict ∅; VDict {[ "name" := VStr "second" ]}; VDict ∅]) as ->
      by (by inversion Hitems).
    exists trace. split_and!; [done..|].
    rewrite Hframe; [done|]. unfold base_fields, trace_fields. by_evaluation.
Defined.

(** ** Invalid configurations *)

(** The messages of the configuration errors; the code raises [ValueError]
    for each. *)
Definition config_messages : list string :=
  ["langgraph_agent.system_prompt must be a string";
   "langgraph_agent.tools must be a list of tool names";
   "agent.model must be a non-empty string";
   "agent.input_field must be a non-empty string";
   "agent.num_ctx must be a positive integer";
   "agent.num_predict must be a positive integer";
   "agent.temperature must be a number";
   "agent.max_tool_calls must be a positive integer";
   "langgraph_agent.agents must be a non-empty list";
   "langgraph_agent.agents entries must be objects";
   "Each langgraph_agent.agents[].model must be a non-empty string";
   "Each langgraph_agent.agents[].system_prompt must be a string";
   "Each langgraph_agent.agents[].tools must be a list of strings"].

Definition InvalidAgentConfig (e : exn) : Prop :=
  ∃ msg, msg ∈ config_messages ∧ e = ValueError msg.

Definition nonempty_text (v : Value) : Prop := ∃ s, v = VStr s ∧ s ≠ "".

(** An [int] instance above zero. *)
Definition positive_integer (v : Value) : Prop := is_int v = true ∧ 0 < int_value v.

(** A step entry as the design wants it: an object whose model, its own or
    the inherited one, is non-empty text, whose system prompt, if given, is
    text, and whose tool list, if given, is a list of text names. *)
Definition valid_step (model : Value) (item : Value) : Prop :=
  ∃ d, item = VDict d ∧
       nonempty_text (default model (d !! "model")) ∧
       (∀ v, d !! "system_prompt" = Some v → v = VNone ∨ is_str v = true) ∧
       (∀ v, d !! "tools" = Some v → is_Some (as_str_list v)).

(** The invalid configurations the design lists. *)
Definition invalid_config (defaults : AgentDefaults) (params : gmap string Value)
  : Prop :=
  let model := default (VStr (default_model defaults)) (params !! "model") in
  let input_field :=
    default (VStr (default_input_field defaults)) (params !! "input_field") in
  let num_ctx := default (VInt (default_num_ctx defaults)) (params !! "num_ctx") in
  let num_predict :=
    default (VInt (default_num_predict defaults)) (params !! "num_predict") in
  let temperature :=
    default (VFloat (default_temperature defaults)) (params !! "temperature") in
  let tools := default (VList (VStr <$> default_tools defaults)) (params !! "tools") in
  let max_tool_calls :=
    default (VInt (default_max_tool_calls defaults)) (params !! "max_tool_calls") in
  let agents := default VNone (params !! "agents") in
  ¬ nonempty_text model ∨
  input_field = VStr "" ∨
  ¬ positive_integer num_ctx ∨
  ¬ positive_integer num_predict ∨
  is_number temperature = false ∨
  ¬ positive_integer max_tool_calls ∨
  is_list tools = false ∨
  agents = VList [] ∨
  ∃ items item, agents = VList items ∧ item ∈ items ∧ ¬ valid_step model item.

(** [float(temperature)] does not overflow. *)
Definition temperature_converts (defaults : AgentDefaults) (params : gmap string Value)
  : Prop :=
  ∀ n, default (VFloat (default_temperature defaults)) (params !! "temperature") = VInt n →
       ∃ f, float_of_int n = Ok f.

Lemma config_error msg :
  bool_decide (msg ∈ config_messages) = true → InvalidAgentConfig (ValueError msg).
Proof. intros H. exists msg. split; [by apply bool_decide_eq_true in H|done]. Qed.

Lemma validate_common_settings_Raise model input_field num_ctx num_predict temperature
    max_tool_calls e :
  _validate_common_settings model input_field num_ctx num_predict temperature
    max_tool_calls = Raise e →
  InvalidAgentConfig e ∨ ∃ n, temperature = VInt n ∧ float_of_int n = Raise e.
Proof.
  unfold _validate_common_settings. intros H.
  destruct model as [| | | |[|c m]| | |];
    try (inversion H; subst; left; by apply config_error).
  destruct input_field as [| | | |[|c' f]| | |];
    try (inversion H; subst; left; by apply config_error).
  destruct (negb (is_int num_ctx) || (int_value num_ctx <=? 0));
    [inversion H; subst; left; by apply config_error|].
  destruct (negb (is_int num_predict) || (int_value num_predict <=? 0));
    [inversion H; subst; left; by apply config_error|].
  destruct (negb (is_number temperature)) eqn:Hnum;
    [inversion H; subst; left; by apply config_error|].
  destruct (negb (is_int max_tool_calls) || (int_value max_tool_calls <=? 0));
    [inversion H; subst; left; by apply config_error|].
  destruct temperature as [|[|]|n|f0| | | |]; simpl in Hnum; try done.
  right. exists n. split; [done|].
  unfold py_float, int_value in H.
  destruct (float_of_int n) as [f1|e1]; simpl in H; [done|]. by inversion H.
Qed.

Lemma normalize_agent_Raise default_model default_prompt default_tools idx item e :
  normalize_agent default_model default_prompt default_tools idx item = Raise e →
  InvalidAgentConfig e.
Proof.
  unfold normalize_agent. intros H.
  destruct item as [| | | | | |d|]; try (inversion H; subst; by apply config_error).
  destruct (default (VStr default_model) (d !! "model")) as [| | | |[|c m]| | |];
    try (inversion H; subst; by apply config_error).
  destruct (default VNone (d !! "system_prompt")) as [| | | |sp| | |];
    try (inversion H; subst; by apply config_error).
  - by destruct (as_str_list _); inversion H; subst; apply config_error.
  - by destruct (as_str_list _); inversion H; subst; apply config_error.
Qed.

Lemma normalize_agents_Raise default_model default_prompt default_tools idx items e :
  normalize_agents default_model default_prompt default_tools idx items = Raise e →
  InvalidAgentConfig e.
Proof.
  revert idx. induction items as [|item items IH]; simpl; intros idx H; [done|].
  destruct (normalize_agent _ _ _ idx item) as [step|e'] eqn:Hstep; simpl in H.
  - destruct (normalize_agents _ _ _ (S idx) items) as [steps|e''] eqn:Hrest;
      simpl in H; [done|].
    inversion H; subst. by eapply IH.
  - inversion H; subst. by eapply normalize_agent_Raise.
Qed.

Lemma normalize_agent_chain_Raise raw_agents default_model default_prompt default_tools e :
  _normalize_agent_chain raw_agents default_model default_prompt default_tools = Raise e →
  InvalidAgentConfig e.
Proof.
  unfold _normalize_agent_chain. intros H.
  destruct raw_agents as [| | | | |[|item items]| |];
    try (inversion H; subst; by apply config_error).
  by eapply normalize_agents_Raise.
Qed.

Lemma configure_Raise defaults params e :
  configure defaults params = Raise e →
  InvalidAgentConfig e ∨
  ∃ n, default (VFloat (default_temperature defaults)) (params !! "temperature") = VInt n ∧
       float_of_int n = Raise e.
Proof.
  unfold configure. intros H.
  destruct (default _ (params !! "system_prompt")) as [| | | |sp| | |];
    try (inversion H; subst; left; by apply config_error).
  destruct (as_str_list _) as [tools|];
    [|inversion H; subst; left; by apply config_error].
  destruct (_validate_common_settings _ _ _ _ _ _) as [settings|e'] eqn:Hv; simpl in H.
  - destruct (_normalize_agent_chain _ _ _ _) as [chain|e''] eqn:Hchain; simpl in H;
      [done|].
    inversion H; subst. left. by eapply normalize_agent_chain_Raise.
  - inversion H; subst. by eapply validate_common_settings_Raise.
Qed.

Lemma normalize_agent_Ok default_model default_prompt default_tools idx item step :
  normalize_agent default_model default_prompt default_tools idx item = Ok step →
  valid_step (VStr default_model) item.
Proof.
  unfold normalize_agent. intros H.
  destruct item as [| | | | | |d|]; try done. exists d. split; [done|].
  destruct (default (VStr default_model) (d !! "model")) as [| | | |[|c m]| | |];
    try done.
  split_and!.
  - by exists (String c m).
  - intros v Hv. rewrite Hv in H. simpl in H.
    destruct v; try done; [by left|by right].
  - intros v Hv. rewrite Hv in H. simpl in H.
    destruct (as_str_list v); [done|].
    destruct (default VNone (d !! "system_prompt")); done.
Qed.

Lemma normalize_agents_Ok default_model default_prompt default_tools idx items steps :
  normalize_agents default_model default_prompt default_tools idx items = Ok steps →
  Forall (valid_step (VStr default_model)) items.
Proof.
  revert idx steps. induction items as [|item items IH]; simpl; intros idx steps H;
    [constructor|].
  destruct (normalize_agent _ _ _ idx item) as [step|e] eqn:Hstep; simpl in H; [|done].
  destruct (normalize_agents _ _ _ (S idx) items) as [steps'|e] eqn:Hrest;
    simpl in H; [|done].
  constructor; [by eapply normalize_agent_Ok|by eapply IH].
Qed.

(** A configuration that passes validation is none of the invalid ones. *)
Lemma configure_Ok_valid defaults params cfg :
  configure defaults params = Ok cfg → ¬ invalid_config defaults params.
Proof.
  unfold configure, invalid_config. intros H Hinv.
  destruct (default _ (params !! "system_prompt")) as [| | | |sp| | |]; try done.
  destruct (as_str_list _) as [tools|] eqn:Htools; [|done].
  destruct (_validate_common_settings _ _ _ _ _ _) as [settings|e] eqn:Hv; [|done].
  simpl in H.
  destruct (_normalize_agent_chain _ _ _ _) as [chain|e] eqn:Hchain; [|done].
  apply validate_common_settings_Ok in Hv
    as (Hm & Hmne & Hf & Hfne & _ & Hci & Hcp & _ & Hpi & Hpp & Hnum & _ & _ & Hti & Htp).
  apply as_str_list_Some in Htools.
  destruct Hinv as [Hi|[Hi|[Hi|[Hi|[Hi|[Hi|[Hi|[Hi|(items & item & Hitems & Hin & Hi)]]]]]]]].
  - apply Hi. by eexists.
  - rewrite Hf in Hi. by inversion Hi.
  - by apply Hi.
  - by apply Hi.
  - by rewrite Hnum in Hi.
  - by apply Hi.
  - by rewrite Htools in Hi.
  - by rewrite Hi in Hchain.
  - rewrite Hitems in Hchain. unfold _normalize_agent_chain in Hchain.
    destruct items as [|item0 items0]; [done|].
    apply normalize_agents_Ok in Hchain. rewrite Forall_forall in Hchain.
    apply Hi. rewrite Hm. by apply Hchain.
Qed.

(** The configurations the design lists as invalid raise a configuration
    error before any model call, as long as [float(temperature)] does not
    overflow. *)
Lemma handler_invalid_config (defaults : AgentDefaults) (repr : Value → string)
    (agent_setup : list ModelCall → ModelCall → outcome unit)
    (agent_invoke : list ModelCall → ModelCall → outcome (gmap string Value))
    (params payload : gmap string Value) :
  invalid_config defaults params →
  temperature_converts defaults params →
  ∃ e, InvalidAgentConfig e ∧
       langgraph_agent_handler defaults repr agent_setup agent_invoke params payload
         = ([], Raise e).
Proof.
  intros Hinv Hconv. unfold langgraph_agent_handler.
  destruct (configure defaults params) as [cfg|e] eqn:Hcfg.
  - by destruct (configure_Ok_valid _ _ _ Hcfg).
  - exists e. split; [|done].
    apply configure_Raise in Hcfg as [He|(n & Ht & Hover)]; [done|].
    destruct (Hconv n Ht) as [f Hf]. by rewrite Hf in Hover.
Qed.

(** C6 fails on [AgentScenarios.overflow_params]: the step list is empty,
    which the design lists as invalid, and the handler raises the
    [OverflowError] of [float(temperature)], which is no configuration
    error; it makes no model call. *)
Theorem handler_overflow_before_step_list :
  invalid_config AgentScenarios.defaults AgentScenarios.overflow_params ∧
  ¬ InvalidAgentConfig (OverflowError "int too large to convert to float") ∧
  ∀ repr agent_setup agent_invoke payload,
    langgraph_agent_handler AgentScenarios.defaults repr agent_setup agent_invoke
      AgentScenarios.overflow_params payload
    = ([], Raise (OverflowError "int too large to convert to float")).
Proof.
  split_and!.
  - unfold invalid_config. do 7 right. left. reflexivity.
  - by intros (msg & _ & ?).
  - intros repr agent_setup agent_invoke payload. vm_compute. reflexivity.
Qed.

(** * Further properties of the engine *)

(** ** How [run] ends *)

Lemma topological_sort_order_length ns es order :
  odict_wf es → _topological_sort ns es = Some (Ok order) → length order = length ns.
Proof.
  intros Hwf Hsort. by destruct (topological_sort_Ok _ _ _ Hwf Hsort) as (_ & ? & _ & ?).
Qed.

(** X1. Whatever the workflow, [run] finishes, and it calls at most one
    handler per node: every call is the call of a node of the workflow, no
    node id is called twice, and so there are no more calls than nodes. The
    bound on the queue loop is never reached. *)
Theorem run_finishes (registry : NodeRegistry) (w : Workflow)
    (input_data : gmap string Value) :
  odict_wf (edges w) →
  ∃ log r, run registry w input_data = Some (log, r) ∧
           NoDup (node_ids (inv_node <$> log)) ∧
           (∀ inv, inv ∈ log → inv_node inv ∈ nodes w) ∧
           (length log ≤ length (nodes w))%nat.
Proof.
  intros Hwf. destruct (run_total registry w input_data Hwf) as [[log r] Hrun].
  exists log, r. split_and!; [done|by eapply run_log_NoDup| |].
  - intros inv [i Hi]%list_elem_of_lookup.
    destruct (run_log_entry _ _ _ _ _ _ _ Hrun Hi) as (order & Hsort & [k Hpre] & _).
    destruct (topological_sort_Ok _ _ _ Hwf Hsort) as (_ & indegree & Hinv & _).
    pose proof (ki_map _ _ _ _ _ Hinv) as Hmap. rewrite Forall_forall in Hmap.
    assert (Hin : inv_node inv ∈ order).
    { rewrite Hpre. apply elem_of_app. left.
      apply list_elem_of_fmap. exists inv. split; [done|].
      by eapply list_elem_of_lookup_2. }
    by apply Hmap, node_map_lookup in Hin as [? _].
  - destruct log as [|inv0 log0] eqn:Hlog; [simpl; lia|]. rewrite <- Hlog in *.
    assert (Hi : log !! 0%nat = Some inv0) by (by rewrite Hlog).
    destruct (run_log_entry _ _ _ _ _ _ _ Hrun Hi) as (order & Hsort & Hpre & _).
    pose proof (topological_sort_order_length _ _ _ Hwf Hsort) as Hlen.
    apply prefix_length in Hpre. rewrite length_fmap in Hpre. lia.
Qed.

Lemma run_finishes_witness :
  ∃ log r, run Scenarios.registry Scenarios.drained Scenarios.input = Some (log, r) ∧
           NoDup (node_ids (inv_node <$> log)) ∧
           (∀ inv, inv ∈ log → inv_node inv ∈ nodes Scenarios.drained) ∧
           (length log ≤ length (nodes Scenarios.drained))%nat.
Proof.
  apply (run_finishes Scenarios.registry Scenarios.drained Scenarios.input).
  unfold odict_wf. by_evaluation.
Defined.

(** X2. A workflow without nodes returns the input payload as it is when
    it has no edges either, and raises the unknown-source error for the
    first source of its edge map otherwise; no handler is called. *)
Theorem run_no_nodes (registry : NodeRegistry) (w : Workflow)
    (input_data : gmap string Value) :
  nodes w = [] →
  run registry w input_data =
    Some ([], match edges w with
              | [] => Ok input_data
              | (source, _) :: _ =>
                  Raise (ValueError ("Unknown source node in edges: " +:+ source))
              end).
Proof.
  intros Hnodes. unfold run, _topological_sort. rewrite Hnodes.
  destruct (edges w) as [|[source targets] rest]; simpl; [done|].
  unfold node_map_of. simpl. by rewrite lookup_empty.
Qed.

Lemma run_no_nodes_witness :
  run Scenarios.registry (mkWorkflow "w0" "empty" [] [] false 0) Scenarios.input
  = Some ([], Ok Scenarios.input).
Proof.
  exact (run_no_nodes Scenarios.registry (mkWorkflow "w0" "empty" [] [] false 0)
           Scenarios.input eq_refl).
Defined.

Lemma remove_dups_length {A} `{EqDecision A} (l : list A) :
  (length (remove_dups l) ≤ length l)%nat ∧
  (¬ NoDup l → (length (remove_dups l) < length l)%nat).
Proof.
  induction l as [|x l [IHle IHlt]]; simpl.
  - split; [lia|]. intros H. destruct H. constructor.
  - destruct (decide_rel elem_of x l) as [Hin|Hnotin]; simpl.
    + split; [lia|]. intros _. lia.
    + split; [lia|]. intros Hnd.
      assert (¬ NoDup l) as Hl by (intros ?; apply Hnd; by constructor).
      specialize (IHlt Hl). lia.
Qed.

(** X3. Two nodes with the same id make [run] raise the cycle error, with
    or without a cycle, before any handler is called. *)
Theorem run_duplicate_ids (registry : NodeRegistry) (w : Workflow)
    (input_data : gmap string Value) :
  odict_wf (edges w) →
  endpoints_exist (nodes w) (edges w) →
  ¬ NoDup (node_ids (nodes w)) →
  run registry w input_data = Some ([], Raise cycle_error).
Proof.
  intros Hwf Hvalid Hdup.
  destruct (topological_sort_valid _ _ Hwf Hvalid) as (order & indegree & Hinv & Hsort).
  unfold run. rewrite Hsort.
  assert (Hlen : (length (node_ids order) ≤ length (remove_dups (node_ids (nodes w))))%nat).
  { apply submseteq_length, NoDup_submseteq; [by eapply kahn_order_NoDup|].
    intros x Hx. apply elem_of_remove_dups. by eapply kahn_order_ids. }
  destruct (remove_dups_length (node_ids (nodes w))) as [_ Hlt]. specialize (Hlt Hdup).
  unfold node_ids in *. rewrite !length_fmap in *.
  rewrite decide_True by lia. done.
Qed.

Lemma run_duplicate_ids_witness :
  run Scenarios.registry
    (mkWorkflow "w5" "twins" [Scenarios.trigger "a"; Scenarios.trigger "a"] [] false 0)
    Scenarios.input
  = Some ([], Raise cycle_error).
Proof.
  apply run_duplicate_ids.
  - unfold odict_wf. by_evaluation.
  - apply endpoints_exist_check. by_evaluation.
  - by_evaluation.
Defined.

(** ** Failures of [run] *)

Lemma topological_sort_Raise ns es e :
  odict_wf es → _topological_sort ns es = Some (Raise e) →
  (∃ x, dangling ns es x ∧ UnknownNodeReference x e) ∨
  (endpoints_exist ns es ∧ CyclicGraph e ∧ ¬ (acyclic es ∧ NoDup (node_ids ns))).
Proof.
  intros Hwf Hsort.
  destruct (count_edges (node_map_of ns) es (indegree_init ns)) as [d|e'] eqn:Hcount.
  - right. pose proof (count_edges_valid _ _ _ _ Hcount) as Hvalid.
    destruct (topological_sort_valid _ _ Hwf Hvalid) as (order & indegree & Hinv & Heq).
    rewrite Heq in Hsort. destruct (decide _) as [Hlen|]; [|done].
    inversion Hsort; subst. split_and!; [done..|]. intros [Hacyc Hnd].
    pose proof (kahn_complete _ _ Hvalid _ _ Hinv) as Hall.
    pose proof (kahn_order_nodes _ _ _ _ Hinv Hnd (λ t, Hall t Hacyc)) as Hperm.
    by rewrite (Permutation_length Hperm) in Hlen.
  - left. unfold _topological_sort in Hsort. rewrite Hcount in Hsort.
    inversion Hsort; subst.
    apply count_edges_Raise in Hcount as (x & Hx & Hnone & Hmention).
    exists x. split; [|done]. split; [by apply node_map_None|done].
Qed.

(** X4. [run] raises in three ways only: an error of the graph (an unknown
    node reference, or the cycle error, which needs a cycle or a repeated
    node id), raised before any handler call; the exception of the handler
    it called last; or the registry's [KeyError] for a node whose type has
    no handler, after calls that all returned. *)
Theorem run_failure_cases (registry : NodeRegistry) (w : Workflow)
    (input_data : gmap string Value) (log : list Invocation) (e : exn) :
  odict_wf (edges w) →
  run registry w input_data = Some (log, Raise e) →
  (log = [] ∧
   ((∃ x, dangling (nodes w) (edges w) x ∧ UnknownNodeReference x e) ∨
    (endpoints_exist (nodes w) (edges w) ∧ CyclicGraph e ∧
     ¬ (acyclic (edges w) ∧ NoDup (node_ids (nodes w)))))) ∨
  (∃ inv, last log = Some inv ∧ inv_result inv = Raise e) ∨
  (∃ n, n ∈ nodes w ∧ registry !! type n = None ∧
        e = KeyError ("Unknown node type: " +:+ type n) ∧ Forall returned log).
Proof.
  intros Hwf Hrun. unfold run in Hrun.
  destruct (_topological_sort _ _) as [[order|e']|] eqn:Hsort; [| |done].
  - destruct (topological_sort_Ok _ _ _ Hwf Hsort) as (Hvalid & indegree & Hinv & _).
    destruct (run_nodes _ _ _ _ _ _) as [log' [results|e'']] eqn:Hnodes.
    + exfalso. apply run_nodes_spec in Hnodes as (new & Heq & _ & _ & Hok).
      simpl in Heq. subst new.
      destruct (Hok results eq_refl) as (Horder & Hres & Hret).
      destruct log' as [|inv log0 _] using rev_ind.
      * simpl in Horder. subst order. simpl in Hrun. done.
      * rewrite fmap_app in Horder. simpl in Horder. subst order.
        rewrite last_snoc in Hrun. apply Forall_app in Hret as [_ Hlast].
        inversion Hlast as [|?? [out Hout] _]; subst.
        rewrite foldl_app in Hrun. simpl in Hrun. unfold store at 1 in Hrun.
        rewrite Hout, lookup_insert_eq in Hrun. done.
    + inversion Hrun; subst. right.
      apply run_nodes_Raise in Hnodes as (new & Heq & Hcases). simpl in Heq. subst new.
      destruct Hcases as [Hlast|(n & Hn & Hrest)]; [by left|]. right.
      exists n. split; [|done].
      pose proof (ki_map _ _ _ _ _ Hinv) as Hmap. rewrite Forall_forall in Hmap.
      by apply Hmap, node_map_lookup in Hn as [? _].
  - inversion Hrun; subst. left. split; [done|].
    by apply topological_sort_Raise.
Qed.

Lemma run_failure_cases_witness :
  ([] : list Invocation) = [] ∧
  ((∃ x, dangling (nodes Scenarios.loop) (edges Scenarios.loop) x ∧
         UnknownNodeReference x cycle_error) ∨
   (endpoints_exist (nodes Scenarios.loop) (edges Scenarios.loop) ∧
    CyclicGraph cycle_error ∧
    ¬ (acyclic (edges Scenarios.loop) ∧ NoDup (node_ids (nodes Scenarios.loop))))).
Proof.
  destruct (run_failure_cases Scenarios.registry Scenarios.loop Scenarios.input []
              cycle_error) as [H|[(inv & Hlast & _)|(n & _ & _ & Hkey & _)]].
  - unfold odict_wf. by_evaluation.
  - vm_compute. reflexivity.
  - exact H.
  - discriminate.
  - discriminate.
Defined.

(** X5. A handler that raises is the last one [run] calls, and its
    exception is the one [run] raises. *)
Theorem run_stops_at_first_failure (registry : NodeRegistry) (w : Workflow)
    (input_data : gmap string Value) (log : list Invocation)
    (r : outcome (gmap string Value)) (i : nat) (inv : Invocation) (e : exn) :
  run registry w input_data = Some (log, r) →
  log !! i = Some inv →
  inv_result inv = Raise e →
  r = Raise e ∧ S i = length log.
Proof.
  intros Hrun Hi Hres. unfold run in Hrun.
  destruct (_topological_sort _ _) as [[order|e']|] eqn:Hsort; [| |done].
  - destruct (run_nodes _ _ _ _ _ _) as [log' r'] eqn:Hnodes.
    assert (log' = log) as ->.
    { destruct r' as [results|e']; [|by inversion Hrun].
      destruct (last order) as [n|]; [|by inversion Hrun].
      destruct (results !! id n); by inversion Hrun. }
    pose proof Hnodes as Hspec.
    apply run_nodes_spec in Hspec as (new & Heq & _ & Hall & Hok).
    simpl in Heq. subst new.
    assert (Hlast : S i = length log).
    { destruct (Hall i inv Hi) as (_ & _ & Hret).
      apply lookup_lt_Some in Hi.
      destruct (decide (S i < length log)%nat) as [Hlt|]; [|lia].
      destruct (Hret Hlt) as [out Hout]. by rewrite Hout in Hres. }
    split; [|done].
    destruct r' as [results|e'].
    + exfalso. destruct (Hok results eq_refl) as (_ & _ & Hret).
      rewrite Forall_forall in Hret. destruct (Hret inv) as [out Hout].
      * by eapply list_elem_of_lookup_2.
      * by rewrite Hout in Hres.
    + inversion Hrun; subst r.
      apply run_nodes_Raise in Hnodes as (new & Heq & Hcases). simpl in Heq. subst new.
      destruct Hcases as [(inv' & Hlast' & Hres')|(n & _ & _ & _ & Hret)].
      * apply last_Some in Hlast' as [l' ->].
        rewrite length_app in Hlast. simpl in Hlast.
        rewrite lookup_app_r in Hi by lia.
        replace (i - length l')%nat with 0%nat in Hi by lia.
        inversion Hi; subst. by rewrite Hres in Hres'; inversion Hres'.
      * exfalso. rewrite Forall_forall in Hret. destruct (Hret inv) as [out Hout].
        -- by eapply list_elem_of_lookup_2.
        -- by rewrite Hout in Hres.
  - inversion Hrun; subst. by rewrite lookup_nil in Hi.
Qed.

Module FailingScenario.
Import Builtin.

(** A [set_fields] node whose [fields] parameter is no dictionary, before a
    trigger. *)
Definition bad_fields : Node := mkNode "a" "set_fields" {[ "fields" := VInt 1 ]}.

Definition workflow : Workflow :=
  mkWorkflow "w6" "failing" [bad_fields; Scenarios.trigger "b"] [("a", ["b"])] true 0.

Definition failure : exn := ValueError "set_fields.fields must be a dictionary".

Definition log : list Invocation :=
  [mkInvocation bad_fields Scenarios.input (Raise failure)].

Lemma runs : run Scenarios.registry workflow Scenarios.input = Some (log, Raise failure).
Proof. vm_compute. reflexivity. Qed.

End FailingScenario.

Lemma run_stops_at_first_failure_witness :
  (Raise FailingScenario.failure : outcome (gmap string Value))
    = Raise FailingScenario.failure ∧
  1%nat = length FailingScenario.log.
Proof.
  apply (run_stops_at_first_failure Scenarios.registry FailingScenario.workflow
           Scenarios.input FailingScenario.log (Raise FailingScenario.failure) 0
           (mkInvocation FailingScenario.bad_fields Scenarios.input
              (Raise FailingScenario.failure))).
  - exact FailingScenario.runs.
  - reflexivity.
  - reflexivity.
Defined.

(** ** Workflows without edges *)

Lemma odict_set_fresh {V} (k : string) (v : V) (d : odict V) :
  k ∉ d.*1 → odict_set k v d = d ++ [(k, v)].
Proof.
  induction d as [|[k' v'] d IH]; simpl; intros Hk; [done|].
  apply not_elem_of_cons in Hk as [Hne Hk].
  rewrite decide_False by done. by rewrite IH.
Qed.

Lemma indegree_init_distinct ns :
  NoDup (node_ids ns) → indegree_init ns = (λ n, (id n, 0)) <$> ns.
Proof.
  unfold indegree_init.
  assert (Hgen : ∀ (d : odict Z),
    NoDup (d.*1 ++ node_ids ns) →
    foldl (λ d n, odict_set (id n) 0 d) d ns = d ++ ((λ n, (id n, 0)) <$> ns)).
  { induction ns as [|n ns IH]; simpl; intros d Hnd; [by rewrite app_nil_r|].
    assert (Hfresh : id n ∉ d.*1).
    { apply NoDup_app in Hnd as (_ & Hdisj & _). intros Hin.
      apply (Hdisj _ Hin). by left. }
    rewrite odict_set_fresh by done. rewrite IH.
    - by rewrite <- app_assoc.
    - rewrite fmap_app. simpl. by rewrite <- app_assoc. }
  intros Hnd. by apply (Hgen []).
Qed.

Lemma zero_indegree_all ns : zero_indegree ((λ n, (id n, 0)) <$> ns) = node_ids ns.
Proof.
  unfold zero_indegree, node_ids. induction ns as [|n ns IH]; [done|].
  cbn. rewrite decide_True by done. cbn. by f_equal.
Qed.

Lemma kahn_loop_no_edges nm queue fuel indegree order :
  (length queue ≤ fuel)%nat →
  Forall (λ n, nm !! id n = Some n) queue →
  kahn_loop fuel nm [] indegree (node_ids queue) order = Some (Ok (order ++ queue)).
Proof.
  revert fuel order. induction queue as [|n queue IH]; intros fuel order Hfuel Hall.
  - destruct fuel; simpl; by rewrite app_nil_r.
  - inversion Hall as [|?? Hn Hrest]; subst.
    destruct fuel as [|fuel]; [simpl in Hfuel; lia|].
    cbn [kahn_loop node_ids fmap list_fmap]. rewrite Hn. simpl.
    change (id <$> queue) with (node_ids queue).
    rewrite IH; [|simpl in Hfuel; lia|done]. by rewrite <- app_assoc.
Qed.

Lemma node_map_lookup_distinct ns n :
  NoDup (node_ids ns) → n ∈ ns → node_map_of ns !! id n = Some n.
Proof.
  intros Hnd Hn.
  destruct (proj2 (node_map_is_Some ns (id n))) as [n' Hn'].
  { by apply list_elem_of_fmap_2. }
  rewrite Hn'. f_equal. apply node_map_lookup in Hn' as [Hin Hid].
  by apply (NoDup_fmap_elem_inj id ns).
Qed.

Lemma topological_sort_no_edges ns :
  NoDup (node_ids ns) → _topological_sort ns [] = Some (Ok ns).
Proof.
  intros Hnd. unfold _topological_sort. simpl.
  rewrite indegree_init_distinct, zero_indegree_all by done.
  rewrite kahn_loop_no_edges.
  - simpl. by rewrite decide_False by lia.
  - done.
  - apply Forall_forall. intros n Hn. by apply node_map_lookup_distinct.
Qed.

(** X6. Without edges (and with distinct node ids) the handlers are called
    in the order the nodes are declared, each on the original input
    payload; when [run] returns, every node has been called. *)
Theorem run_no_edges (registry : NodeRegistry) (w : Workflow)
    (input_data : gmap string Value) (log : list Invocation)
    (r : outcome (gmap string Value)) :
  edges w = [] →
  NoDup (node_ids (nodes w)) →
  run registry w input_data = Some (log, r) →
  inv_node <$> log `prefix_of` nodes w ∧
  Forall (λ inv, inv_input inv = input_data) log ∧
  (∀ out, r = Ok out → inv_node <$> log = nodes w).
Proof.
  intros Hedges Hnd Hrun. unfold run in Hrun.
  rewrite Hedges, topological_sort_no_edges in Hrun by done.
  destruct (run_nodes _ _ _ _ _ _) as [log' r'] eqn:Hnodes.
  assert (log' = log ∧ (∀ out, r = Ok out → ∃ results, r' = Ok results)) as [-> Hr].
  { destruct r' as [results|e]; [|by inversion Hrun].
    destruct (last (nodes w)) as [n|]; [|inversion Hrun; eauto].
    destruct (results !! id n); inversion Hrun; eauto. }
  apply run_nodes_spec in Hnodes as (new & Heq & Hpre & Hall & Hok).
  simpl in Heq. subst new. split_and!.
  - done.
  - apply Forall_lookup. intros i inv Hi. by destruct (Hall i inv Hi) as (-> & _).
  - intros out Hout. destruct (Hr out Hout) as [results ->].
    by destruct (Hok results eq_refl).
Qed.

Lemma run_no_edges_witness :
  let w := mkWorkflow "w7" "loose" [Scenarios.trigger "b"; Scenarios.trigger "a"] []
             false 0 in
  let log := [mkInvocation (Scenarios.trigger "b") Scenarios.input (Ok Scenarios.input);
              mkInvocation (Scenarios.trigger "a") Scenarios.input (Ok Scenarios.input)] in
  inv_node <$> log `prefix_of` nodes w ∧
  Forall (λ inv, inv_input inv = Scenarios.input) log ∧
  (∀ out, Ok Scenarios.input = Ok out → inv_node <$> log = nodes w).
Proof.
  intros w log.
  apply (run_no_edges Scenarios.registry w Scenarios.input log (Ok Scenarios.input)).
  - reflexivity.
  - by_evaluation.
  - vm_compute. reflexivity.
Defined.

(** * [bot/nodes/base.py]: the introspection of the registry *)

Module Registry.

(** [sorted(self._nodes)]: the registered type names in ascending order
    (strings compare character by character on their codes). *)
Definition list_types (r : NodeRegistry) : list string :=
  merge_sort String.le (map_to_list r).*1.

(** [list_specs]: for each name in that order, the type name and the
    description of the spec stored under it. *)
Definition list_specs (r : NodeRegistry) : list (gmap string string) :=
  omap (λ key, spec ← r !! key;
               Some {[ "type" := type_name spec; "description" := description spec ]})
       (list_types r).

(** Every spec is stored under its own type name, as [register] does. *)
Definition keyed (r : NodeRegistry) : Prop :=
  ∀ t spec, r !! t = Some spec → type_name spec = t.

End Registry.
Export Registry.

Section registry_facts.
Implicit Types (r : NodeRegistry) (spec : NodeSpec) (t : string).

Lemma registry_keys r t : t ∈ (map_to_list r).*1 ↔ is_Some (r !! t).
Proof.
  rewrite list_elem_of_fmap. split.
  - intros ([t' spec] & -> & Hin). apply elem_of_map_to_list in Hin. by exists spec.
  - intros [spec Hspec]. exists (t, spec). split; [done|]. by apply elem_of_map_to_list.
Qed.

Lemma list_types_elem r t : t ∈ list_types r ↔ is_Some (r !! t).
Proof. unfold list_types. by rewrite merge_sort_Permutation, registry_keys. Qed.

Lemma list_types_NoDup r : NoDup (list_types r).
Proof.
  unfold list_types. rewrite merge_sort_Permutation. apply NoDup_fst_map_to_list.
Qed.

Lemma list_types_sorted r : StronglySorted String.le (list_types r).
Proof. unfold list_types. apply StronglySorted_merge_sort; apply _. Qed.

(** X7. [list_types] gives exactly the type names that [get] resolves,
    each once, in ascending order. *)
Theorem list_types_spec r :
  StronglySorted String.le (list_types r) ∧
  NoDup (list_types r) ∧
  ∀ t, t ∈ list_types r ↔ ∃ spec, registry_get r t = Ok spec.
Proof.
  split_and!; [apply list_types_sorted|apply list_types_NoDup|].
  intros t. rewrite list_types_elem. unfold registry_get. split.
  - intros [spec ->]. by exists spec.
  - intros [spec Hget]. destruct (r !! t); [done|by inversion Hget].
Qed.

Lemma keyed_empty : keyed (∅ : gmap string NodeSpec).
Proof. intros t spec H. unfold NodeRegistry in H. by rewrite lookup_empty in H. Qed.

Lemma keyed_register spec r : keyed r → keyed (register spec r).
Proof.
  intros Hr t spec' H. unfold register, NodeRegistry in *.
  destruct (decide (type_name spec = t)) as [<-|Hne].
  - rewrite lookup_insert_eq in H. by inversion H.
  - rewrite lookup_insert_ne in H by done. by apply Hr.
Qed.

(** X8. [list_specs] has one entry per registered type, in the order of
    [list_types]; the entry at a position describes the spec registered
    under the name at that position, and names that very type when the
    registry was filled by [register]. *)
Theorem list_specs_spec r :
  length (list_specs r) = length (list_types r) ∧
  ∀ i t, list_types r !! i = Some t →
    ∃ spec, registry_get r t = Ok spec ∧
            list_specs r !! i =
              Some {[ "type" := type_name spec; "description" := description spec ]} ∧
            (keyed r → type_name spec = t).
Proof.
  unfold list_specs.
  assert (Hgen : ∀ l, (∀ t, t ∈ l → is_Some (r !! t)) →
    let f := λ key, spec ← r !! key;
                    Some ({[ "type" := type_name spec;
                             "description" := description spec ]} : gmap string string) in
    length (omap f l) = length l ∧
    ∀ i t, l !! i = Some t →
      ∃ spec, r !! t = Some spec ∧
              omap f l !! i =
                Some {[ "type" := type_name spec; "description" := description spec ]}).
  { induction l as [|t l IH]; intros Hl f.
    - split; [done|]. by intros i t ?.
    - destruct (Hl t) as [spec Hspec]; [by left|].
      destruct IH as [IHlen IHall]; [intros t' Ht'; apply Hl; by right|].
      assert (Hf : f t = Some {[ "type" := type_name spec;
                                 "description" := description spec ]}).
      { unfold f. by rewrite Hspec. }
      cbn [omap list_omap]. rewrite Hf. split; [simpl; by f_equal|].
      intros [|i] t' Hi; simpl in Hi.
      + inversion Hi; subst. by exists spec.
      + by apply IHall. }
  destruct (Hgen (list_types r)) as [Hlen Hall].
  { intros t Ht. by apply list_types_elem. }
  split; [done|]. intros i t Hi. destruct (Hall i t Hi) as (spec & Hspec & Hentry).
  exists spec. split_and!; [|done|].
  - unfold registry_get. by rewrite Hspec.
  - intros Hkeyed. by apply Hkeyed.
Qed.

(** X9. Registering under a name already taken replaces the handler that
    name resolves to and leaves the list of type names as it was; the other
    names resolve as before. *)
Theorem register_overwrites spec r :
  is_Some (r !! type_name spec) →
  registry_get (register spec r) (type_name spec) = Ok spec ∧
  list_types (register spec r) = list_types r ∧
  ∀ t, t ≠ type_name spec → registry_get (register spec r) t = registry_get r t.
Proof.
  intros Htaken. unfold registry_get, register. split_and!.
  all: unfold NodeRegistry in *.
  - by rewrite lookup_insert_eq.
  - apply (StronglySorted_unique String.le);
      [apply list_types_sorted|apply list_types_sorted|].
    apply NoDup_Permutation; [apply list_types_NoDup|apply list_types_NoDup|].
    intros t. rewrite !list_types_elem. unfold NodeRegistry in *.
    destruct (decide (type_name spec = t)) as [<-|Hne].
    + rewrite lookup_insert_eq. split; [done|by eauto].
    + by rewrite lookup_insert_ne.
  - intros t Hne. by rewrite lookup_insert_ne.
Qed.

End registry_facts.

Lemma list_specs_spec_witness :
  ∃ spec, registry_get Scenarios.registry "discard" = Ok spec ∧
          list_specs Scenarios.registry !! 0%nat =
            Some {[ "type" := type_name spec; "description" := description spec ]} ∧
          (keyed Scenarios.registry → type_name spec = "discard").
Proof.
  destruct (list_specs_spec Scenarios.registry) as [_ Hall].
  apply (Hall 0%nat "discard"). vm_compute. reflexivity.
Defined.

Lemma register_overwrites_witness :
  let spec := mkNodeSpec "discard" "Passes the payload on." Builtin.manual_trigger_handler in
  registry_get (register spec Scenarios.registry) "discard" = Ok spec ∧
  list_types (register spec Scenarios.registry) = list_types Scenarios.registry ∧
  ∀ t, t ≠ "discard" →
       registry_get (register spec Scenarios.registry) t = registry_get Scenarios.registry t.
Proof.
  intros spec. apply (register_overwrites spec Scenarios.registry).
  vm_compute. by eexists.
Defined.

(** * [bot/nodes/builtin.py] *)

(** ** [set_fields] *)

(** X10. [set_fields] returns the payload with the configured fields laid
    over it: a field of [fields] has the configured value, any other field
    the value of the payload. Without a [fields] parameter the payload comes
    back as it is, and a [fields] parameter that is no dictionary raises. *)
Theorem set_fields_cases (params payload : gmap string Value) :
  match params !! "fields" with
  | None => Builtin.set_fields_handler params payload = Ok payload
  | Some (VDict fields) =>
      ∃ out, Builtin.set_fields_handler params payload = Ok out ∧
             ∀ k, out !! k = match fields !! k with
                             | Some v => Some v
                             | None => payload !! k
                             end
  | Some _ =>
      Builtin.set_fields_handler params payload
      = Raise (ValueError "set_fields.fields must be a dictionary")
  end.
Proof.
  unfold Builtin.set_fields_handler.
  destruct (params !! "fields") as [[| | | | | |fields|]|]; simpl; try done.
  - exists (fields ∪ payload). split; [done|]. intros k. rewrite lookup_union.
    destruct (fields !! k), (payload !! k); done.
  - by rewrite (left_id_L ∅ (∪)).
Qed.

(** X11. Running [set_fields] again with the same parameters on its own
    output changes nothing. *)
Theorem set_fields_idempotent (params payload out : gmap string Value) :
  Builtin.set_fields_handler params payload = Ok out →
  Builtin.set_fields_handler params out = Ok out.
Proof.
  unfold Builtin.set_fields_handler.
  destruct (default (VDict ∅) (params !! "fields")) as [| | | | | |fields|]; try done.
  intros [= <-]. f_equal. apply map_eq. intros k. rewrite !lookup_union.
  destruct (fields !! k), (payload !! k); done.
Qed.

Lemma set_fields_idempotent_witness :
  Builtin.set_fields_handler {[ "fields" := VDict {[ "y" := VInt 2 ]} ]}
    {[ "y" := VInt 2; "x" := VInt 1 ]}
  = Ok {[ "y" := VInt 2; "x" := VInt 1 ]}.
Proof.
  apply (set_fields_idempotent _ Scenarios.input). vm_compute. reflexivity.
Defined.

(** ** [template] *)

Module Template.

(** [old in s], for a non-empty [old]. *)
Fixpoint contains (old s : string) : bool :=
  String.prefix old s ||
  match s with
  | EmptyString => false
  | String _ s' => contains old s'
  end.

(** [s.replace(old, new)] for a non-empty [old]: the occurrences of [old]
    are replaced from the left, an occurrence starting only where the one
    before it has ended. [skip] counts the characters of the occurrence
    being replaced that are still to pass. *)
Fixpoint replace_from (old new : string) (skip : nat) (s : string) : string :=
  match s with
  | EmptyString => EmptyString
  | String c s' =>
      match skip with
      | S skip' => replace_from old new skip' s'
      | O =>
          if String.prefix old s
          then new +:+ replace_from old new (String.length old - 1) s'
          else String c (replace_from old new 0 s')
      end
  end.

Definition str_replace (old new s : string) : string := replace_from old new 0 s.

Section template.

(** [json.dumps(payload, ensure_ascii=True)]; it raises on a value that has
    no JSON form. *)
Variable json_dumps : gmap string Value → outcome string.

Definition template_handler : NodeHandler :=
  λ params payload,
    match default (VStr "") (params !! "template") with
    | VStr template =>
        dumped ← json_dumps payload;
        Ok (<["payload" := VDict payload]>
              (<["text" := VStr (str_replace "{{json}}" dumped template)]> ∅))
    | _ => Raise (ValueError "template.template must be a string")
    end.

End template.

End Template.
Export Template.

Lemma replace_from_absent old new s :
  contains old s = false → replace_from old new 0 s = s.
Proof.
  induction s as [|c s IH]; [done|]. cbn [contains replace_from].
  intros [Hprefix Hrest]%orb_false_iff. rewrite Hprefix. f_equal. by apply IH.
Qed.

(** X12. [template] fails on a template that is not text, and on a payload
    [json.dumps] rejects (whether or not the template has the placeholder);
    otherwise it returns exactly two fields: the payload under [payload] and
    the text under [text], which is the template itself when it does not
    contain the placeholder. *)
Theorem template_handler_cases (json_dumps : gmap string Value → outcome string)
    (params payload : gmap string Value) :
  let template := default (VStr "") (params !! "template") in
  (is_str template = false →
     template_handler json_dumps params payload
     = Raise (ValueError "template.template must be a string")) ∧
  (∀ t e, template = VStr t → json_dumps payload = Raise e →
     template_handler json_dumps params payload = Raise e) ∧
  (∀ t dumped, template = VStr t → json_dumps payload = Ok dumped →
     ∃ out text,
       template_handler json_dumps params payload = Ok out ∧
       out !! "payload" = Some (VDict payload) ∧
       out !! "text" = Some (VStr text) ∧
       (∀ k, k ≠ "payload" → k ≠ "text" → out !! k = None) ∧
       (contains "{{json}}" t = false → text = t) ∧
       (t = "{{json}}" → text = dumped)).
Proof.
  intros template. unfold template_handler. fold template. split_and!.
  - intros Hstr. by destruct template.
  - intros t e -> He. by rewrite He.
  - intros t dumped -> Hd. rewrite Hd. simpl.
    eexists _, _. split; [done|]. split_and!.
    + by rewrite lookup_insert_eq.
    + rewrite lookup_insert_ne by done. by rewrite lookup_insert_eq.
    + intros k Hp Ht. rewrite !lookup_insert_ne by done. apply lookup_empty.
    + intros Habsent. by apply replace_from_absent.
    + intros ->. unfold str_replace. simpl. apply string_app_empty.
Qed.

Lemma template_handler_cases_witness :
  ∃ out text,
    template_handler (λ _, Ok "{}") {[ "template" := VStr "Payload: none" ]} ∅ = Ok out ∧
    out !! "text" = Some (VStr text) ∧ text = "Payload: none".
Proof.
  destruct (template_handler_cases (λ _, Ok "{}")
              {[ "template" := VStr "Payload: none" ]} ∅) as (_ & _ & Hok).
  destruct (Hok "Payload: none" "{}" eq_refl eq_refl)
    as (out & text & Hrun & _ & Htext & _ & Habsent & _).
  exists out, text. split_and!; [done..|]. apply Habsent. reflexivity.
Defined.

(** * A workflow of one node *)

(** X13. On a workflow of one node and no edge, [run] is one dispatch: the
    registry's [KeyError] when the node's type has no handler, and
    otherwise one call of the handler on the node's parameters and the
    original input, whose outcome is the outcome of [run]. *)
Theorem run_single_node (registry : NodeRegistry) (w : Workflow)
    (input_data : gmap string Value) (n : Node) :
  nodes w = [n] →
  edges w = [] →
  run registry w input_data =
    match registry_get registry (type n) with
    | Raise e => Some ([], Raise e)
    | Ok spec =>
        let r := handler spec (params n) input_data in
        Some ([mkInvocation n input_data r], r)
    end.
Proof.
  intros Hn He. unfold run. rewrite Hn, He.
  rewrite topological_sort_no_edges by (apply NoDup_singleton).
  cbn [run_nodes]. unfold _merge_parent_payloads, incoming_of. cbn [filter list_filter fmap list_fmap].
  rewrite decide_True by done.
  destruct (registry_get registry (type n)) as [spec|e]; [|done].
  cbn zeta. destruct (handler spec (params n) input_data) as [out|e]; [|done].
  cbn [run_nodes app last]. by rewrite lookup_insert_eq.
Qed.

Lemma run_single_node_witness :
  run Scenarios.registry
    (mkWorkflow "w8" "single" [Scenarios.trigger "a"] [] false 0) Scenarios.input
  = Some ([mkInvocation (Scenarios.trigger "a") Scenarios.input (Ok Scenarios.input)],
          Ok Scenarios.input).
Proof.
  exact (run_single_node Scenarios.registry
           (mkWorkflow "w8" "single" [Scenarios.trigger "a"] [] false 0)
           Scenarios.input (Scenarios.trigger "a") eq_refl eq_refl).
Defined.

(** * Further properties of the agent handler *)

Section agent_runs.
Variable defaults : AgentDefaults.
Variable repr : Value → string.
Variable agent_setup : list ModelCall → ModelCall → outcome unit.
Variable agent_invoke : list ModelCall → ModelCall → outcome (gmap string Value).

(** What the [except ImportError] clause makes of an exception. *)
Definition surfaced (e : exn) : exn :=
  match e with
  | ImportError _ => RuntimeError missing_dependencies
  | _ => e
  end.

(** The call of single-step mode. *)
Definition single_call (cfg : Configured) (original_input : string) : ModelCall :=
  single_agent_call defaults (cs_model (c_settings cfg)) (c_system_prompt cfg)
    original_input (c_tools cfg) (cs_num_ctx (c_settings cfg))
    (cs_num_predict (c_settings cfg)) (cs_temperature (c_settings cfg))
    (cs_max_tool_calls (c_settings cfg)).

Lemma execute_single cfg original_input :
  c_agent_chain cfg = [] →
  execute defaults repr agent_setup agent_invoke cfg original_input =
    match agent_setup [] (single_call cfg original_input) with
    | Raise e => ([], Raise (surfaced e))
    | Ok _ =>
        ([single_call cfg original_input],
         match agent_invoke [] (single_call cfg original_input) with
         | Ok result => Ok (_extract_text_from_agent_result repr result, [])
         | Raise e => Raise (surfaced e)
         end)
    end.
Proof.
  intros Hchain. unfold execute, _run_single_agent. rewrite Hchain.
  fold (single_call cfg original_input).
  destruct (agent_setup [] _) as [[]|e]; [|by destruct e].
  destruct (agent_invoke [] _) as [result|e]; simpl; [done|]. by destruct e.
Qed.

Lemma execute_chain cfg original_input :
  c_agent_chain cfg ≠ [] →
  ∃ calls r0,
    run_chain defaults repr agent_setup agent_invoke (c_settings cfg) original_input
      (c_agent_chain cfg) 0 original_input [] [] = (calls, r0) ∧
    execute defaults repr agent_setup agent_invoke cfg original_input =
      (calls, match r0 with Ok x => Ok x | Raise e => Raise (surfaced e) end).
Proof.
  intros Hchain. unfold execute.
  destruct (c_agent_chain cfg) as [|step rest] eqn:Hsteps; [done|].
  destruct (run_chain _ _ _ _ _ _ _ _ _ _ _) as [calls r0] eqn:Hrun.
  exists calls, r0. split; [done|]. destruct r0 as [x|e]; [done|]. by destruct e.
Qed.

Lemma handler_cases params payload :
  langgraph_agent_handler defaults repr agent_setup agent_invoke params payload =
    match configure defaults params with
    | Raise e => ([], Raise e)
    | Ok cfg =>
        match read_input repr cfg payload with
        | Raise e => ([], Raise e)
        | Ok original_input =>
            let '(calls, r) :=
              execute defaults repr agent_setup agent_invoke cfg original_input in
            (calls, x ← r; Ok (merge_output payload cfg x.1 x.2))
        end
    end.
Proof.
  unfold langgraph_agent_handler.
  destruct (configure defaults params) as [cfg|e]; [|done].
  destruct (read_input repr cfg payload) as [original_input|e]; [|done].
  by destruct (execute _ _ _ _ _ _) as [calls [[text trace]|e]].
Qed.


(** X15. When the handler raises although the configuration passed
    validation and the payload has the input field, the exception comes
    from the agent stack: from the last call that reached the model, or
    from the imports and constructors before the call that would have come
    next. An [ImportError] comes out as the [RuntimeError] about the
    missing dependencies, any other exception as it is. *)
Theorem handler_backend_failure (params payload : gmap string Value)
    (cfg : Configured) (original_input : string)
    (calls : list ModelCall) (e : exn) :
  configure defaults params = Ok cfg →
  read_input repr cfg payload = Ok original_input →
  langgraph_agent_handler defaults repr agent_setup agent_invoke params payload
    = (calls, Raise e) →
  ∃ e0,
    ((∃ earlier call, calls = earlier ++ [call] ∧
                      agent_invoke earlier call = Raise e0) ∨
     (∃ call, agent_setup calls call = Raise e0)) ∧
    (∀ msg, e0 = ImportError msg →
       e = RuntimeError
             "Missing agent dependencies. Install with: uv add langgraph langchain-ollama") ∧
    ((∀ msg, e0 ≠ ImportError msg) → e = e0).
Proof.
  intros Hcfg Hin. rewrite handler_cases, Hcfg, Hin. intros H.
  assert (Hsurf : ∀ e0, e = surfaced e0 →
            (∀ msg, e0 = ImportError msg →
               e = RuntimeError
                     "Missing agent dependencies. Install with: uv add langgraph langchain-ollama") ∧
            ((∀ msg, e0 ≠ ImportError msg) → e = e0)).
  { intros e0 ->. split; [by intros msg ->|]. intros Hno. destruct e0; try done.
    by destruct (Hno msg). }
  destruct (c_agent_chain cfg) as [|step rest] eqn:Hchain.
  - rewrite execute_single in H by done.
    destruct (agent_setup [] _) as [[]|e0] eqn:Hsetup; simpl in H.
    + destruct (agent_invoke [] _) as [result|e0] eqn:Hcall; simpl in H; [done|].
      inversion H; subst. exists e0. split; [|by apply Hsurf].
      left. by exists [], (single_call cfg original_input).
    + inversion H; subst. exists e0. split; [|by apply Hsurf].
      right. by exists (single_call cfg original_input).
  - destruct (execute_chain cfg original_input) as (calls0 & r0 & Hrun & Hexec);
      [by rewrite Hchain|].
    rewrite Hexec in H. destruct r0 as [x|e0]; simpl in H; [done|].
    injection H as Hc He. subst calls0. symmetry in He.
    exists e0. split; [|by apply Hsurf].
    apply run_chain_spec in Hrun as (new & outs & Heq & _ & _ & _ & _ & _ & Hraise & _).
    simpl in Heq. subst new.
    destruct (Hraise e0 eq_refl) as [(call & Hlast & Hinv)|(_ & step' & _ & Hset)].
    + left. by exists (take (length outs) calls), call.
    + right. by eexists.
Qed.

End agent_runs.

Module BackendDown.

(** The packages of the agent stack are not installed. *)
Definition setup : list ModelCall → ModelCall → outcome unit :=
  λ _history _call, Raise (ImportError "No module named 'langchain_ollama'").

Definition run :=
  langgraph_agent_handler AgentScenarios.defaults AgentScenarios.repr setup
    AgentScenarios.backend ∅ AgentScenarios.payload.

Lemma raises : run = ([], Raise (RuntimeError missing_dependencies)).
Proof. vm_compute. reflexivity. Qed.

End BackendDown.


Lemma handler_backend_failure_witness :
  ∃ e0,
    ((∃ earlier call, ([] : list ModelCall) = earlier ++ [call] ∧
                      AgentScenarios.backend earlier call = Raise e0) ∨
     (∃ call, BackendDown.setup [] call = Raise e0)) ∧
    (∀ msg, e0 = ImportError msg →
       RuntimeError missing_dependencies
       = RuntimeError
           "Missing agent dependencies. Install with: uv add langgraph langchain-ollama") ∧
    ((∀ msg, e0 ≠ ImportError msg) → RuntimeError missing_dependencies = e0).
Proof.
  apply (handler_backend_failure AgentScenarios.defaults AgentScenarios.repr
           BackendDown.setup AgentScenarios.backend ∅ AgentScenarios.payload
           AgentRuns.single_config "P").
  - exact AgentRuns.configure_single.
  - reflexivity.
  - exact BackendDown.raises.
Defined.

(** ** The tools a call is given *)

(** The names the catalog lists. *)
Definition catalog_names : list string := omap (.!! "name") tool_catalog.

Lemma tool_registry_lookup allow_http_domains tavily_max_results name :
  match tool_registry allow_http_domains tavily_max_results !! name with
  | Some tool => tool_name tool = name ∧ name ∈ catalog_names
  | None => name ∉ catalog_names
  end.
Proof.
  change catalog_names with ["calculator"; "utc_time"; "http_get"; "tavily_search"].
  unfold tool_registry.
  destruct (decide (name = "calculator")) as [->|H1]; [split; [done|set_solver]|].
  destruct (decide (name = "utc_time")) as [->|H2]; [split; [done|set_solver]|].
  destruct (decide (name = "http_get")) as [->|H3]; [split; [done|set_solver]|].
  destruct (decide (name = "tavily_search")) as [->|H4]; [split; [done|set_solver]|].
  rewrite !lookup_insert_ne, lookup_singleton_ne by done. set_solver.
Qed.

Section agent_calls.
Variable defaults : AgentDefaults.
Variable repr : Value → string.
Variable agent_setup : list ModelCall → ModelCall → outcome unit.
Variable agent_invoke : list ModelCall → ModelCall → outcome (gmap string Value).

Lemma configure_settings params cfg :
  configure defaults params = Ok cfg →
  default (VStr (default_system_prompt defaults)) (params !! "system_prompt")
    = VStr (c_system_prompt cfg) ∧
  default (VInt (default_max_tool_calls defaults)) (params !! "max_tool_calls")
    = cs_max_tool_calls (c_settings cfg) ∧
  0 < int_value (cs_max_tool_calls (c_settings cfg)).
Proof.
  unfold configure. intros H.
  destruct (default _ (params !! "system_prompt")) as [| | | |sp| | |]; try done.
  destruct (as_str_list _) as [tools|] eqn:Htools; [|done].
  destruct (_validate_common_settings _ _ _ _ _ _) as [settings|e] eqn:Hv; [|done].
  simpl in H.
  destruct (_normalize_agent_chain _ _ _ _) as [chain|e] eqn:Hchain; [|done].
  inversion H; subst; simpl.
  apply validate_common_settings_Ok in Hv
    as (_ & _ & _ & _ & _ & _ & _ & _ & _ & _ & _ & _ & Hb & _ & Hpos).
  rewrite Hb. by split_and!.
Qed.

(** The calls of a handler run, whatever its outcome. *)
Lemma handler_calls params payload call :
  call ∈ (langgraph_agent_handler defaults repr agent_setup agent_invoke params payload).1 →
  ∃ cfg original_input,
    configure defaults params = Ok cfg ∧
    read_input repr cfg payload = Ok original_input ∧
    ((c_agent_chain cfg = [] ∧ call = single_call defaults cfg original_input) ∨
     (∃ step idx ctx, step ∈ c_agent_chain cfg ∧
                      call = chain_call defaults (c_settings cfg) original_input
                               step idx ctx)).
Proof.
  rewrite handler_cases.
  destruct (configure defaults params) as [cfg|e] eqn:Hcfg;
    [|by intros ?%elem_of_nil].
  destruct (read_input repr cfg payload) as [original_input|e] eqn:Hin;
    [|by intros ?%elem_of_nil].
  intros Hcall. exists cfg, original_input. split_and!; [done..|].
  destruct (c_agent_chain cfg) as [|step rest] eqn:Hchain.
  - left. rewrite execute_single in Hcall by done.
    destruct (agent_setup [] _) as [[]|e]; simpl in Hcall;
      [|by apply elem_of_nil in Hcall].
    by apply list_elem_of_singleton in Hcall.
  - right. destruct (execute_chain defaults repr agent_setup agent_invoke cfg original_input)
      as (calls & r0 & Hrun & Hexec); [by rewrite Hchain|].
    rewrite Hexec in Hcall. simpl in Hcall.
    apply run_chain_spec in Hrun as (new & outs & Heq & _ & _ & Hcalls & _).
    simpl in Heq. subst new.
    apply list_elem_of_lookup in Hcall as [i Hi].
    destruct (Hcalls i call Hi) as (step' & Hstep & -> & _).
    exists step', (0 + i)%nat, (foldl update_context original_input (take i outs)).
    split; [|done]. rewrite <- Hchain. by eapply list_elem_of_lookup_2.
Qed.

(** X16. Every model call of a handler run, in single-step and in chained
    mode alike, carries the node's context window and generation limit, and
    a recursion limit of [max(8, 2 * budget + 2)] for the node's tool-call
    budget, which is positive. *)
Theorem handler_call_settings (params payload : gmap string Value) (call : ModelCall) :
  call ∈ (langgraph_agent_handler defaults repr agent_setup agent_invoke params payload).1 →
  let budget :=
    int_value (default (VInt (default_max_tool_calls defaults))
                 (params !! "max_tool_calls")) in
  call_num_ctx call
    = default (VInt (default_num_ctx defaults)) (params !! "num_ctx") ∧
  call_num_predict call
    = default (VInt (default_num_predict defaults)) (params !! "num_predict") ∧
  0 < budget ∧
  call_recursion_limit call = Z.max 8 (budget * 2 + 2).
Proof.
  intros Hcall budget.
  destruct (handler_calls _ _ _ Hcall) as (cfg & original_input & Hcfg & _ & Hshape).
  destruct (configure_Ok _ _ _ Hcfg) as (_ & Hctx & Hpredict & _).
  destruct (configure_settings _ _ Hcfg) as (_ & Hb & Hpos).
  unfold budget. rewrite Hctx, Hpredict, Hb.
  by destruct Hshape as [[_ ->]|(step & idx & ctx & _ & ->)].
Qed.

(** X17. Without a step list the handler makes at most one call, and
    exactly one when the imports and constructors before it do not raise:
    to the node's model, with the text of the input field as the user
    prompt, with the tools of those names of the node's tool list that the
    catalog lists (in order, repetitions kept), and with the node's system
    prompt, followed by a newline and the fixed tool-preference instruction
    exactly when [tavily_search] is in the node's tool list. *)
Theorem single_step_call (params payload : gmap string Value)
    (cfg : Configured) (original_input : string) :
  configure defaults params = Ok cfg →
  read_input repr cfg payload = Ok original_input →
  default VNone (params !! "agents") = VNone →
  let calls :=
    (langgraph_agent_handler defaults repr agent_setup agent_invoke params payload).1 in
  ∃ call tools system_prompt,
    default (VList (VStr <$> default_tools defaults)) (params !! "tools")
      = VList (VStr <$> tools) ∧
    default (VStr (default_system_prompt defaults)) (params !! "system_prompt")
      = VStr system_prompt ∧
    match agent_setup [] call with
    | Ok _ => calls = [call]
    | Raise _ => calls = []
    end ∧
    VStr (call_model call)
      = default (VStr (default_model defaults)) (params !! "model") ∧
    call_user_prompt call = original_input ∧
    tool_name <$> call_tools call = filter (.∈ catalog_names) tools ∧
    call_prompt call =
      if decide ("tavily_search" ∈ tools)
      then system_prompt +:+ nl +:+
           "When asked for factual, financial, company, or current-event information, " +:+
           "use available tools before answering. If a tool fails, say that clearly."
      else system_prompt.
Proof.
  intros Hcfg Hin Hagents calls.
  destruct (configure_Ok _ _ _ Hcfg) as (Hmodel & _ & _ & Htools & Hchain).
  destruct (configure_settings _ _ Hcfg) as (Hsp & _).
  rewrite Hagents in Hchain. simpl in Hchain. injection Hchain as Hnil.
  exists (single_call defaults cfg original_input), (c_tools cfg), (c_system_prompt cfg).
  split_and!; [done..| | | | |].
  - unfold calls. rewrite handler_cases, Hcfg, Hin.
    rewrite execute_single by done. by destruct (agent_setup [] _) as [[]|e].
  - by rewrite Hmodel.
  - done.
  - unfold single_call, single_agent_call. cbn [call_tools].
    clear Htools. induction (c_tools cfg) as [|name rest IH]; [done|].
    cbn [build_agent_tools].
    pose proof (tool_registry_lookup (tool_allow_http_domains defaults)
                  (tool_tavily_max_results defaults) name) as H.
    destruct (tool_registry _ _ !! name) as [tool|].
    + destruct H as [Hname Hin']. rewrite filter_cons_True by done.
      by rewrite fmap_cons, Hname, IH.
    + by rewrite filter_cons_False.
  - simpl. by destruct (decide _).
Qed.

End agent_calls.

Lemma handler_call_settings_witness :
  ∃ call, AgentRuns.chain_run.1 !! 2%nat = Some call ∧
          call_recursion_limit call = 14.
Proof.
  assert (∃ call, AgentRuns.chain_run.1 !! 2%nat = Some call) as [call Hcall]
    by (vm_compute; eauto).
  exists call. split; [exact Hcall|].
  destruct (handler_call_settings AgentScenarios.defaults AgentScenarios.repr
              AgentScenarios.setup AgentScenarios.backend AgentScenarios.chain_params
              AgentScenarios.payload
              call (list_elem_of_lookup_2 _ _ _ Hcall)) as (_ & _ & _ & Hlimit).
  exact Hlimit.
Defined.

(** A tool list with a name the catalog does not list. *)
Definition bogus_tools : gmap string Value :=
  {[ "tools" := VList [VStr "utc_time"; VStr "bogus"; VStr "tavily_search"] ]}.

Lemma single_step_call_witness :
  ∃ call,
    (langgraph_agent_handler AgentScenarios.defaults AgentScenarios.repr
       AgentScenarios.setup AgentScenarios.backend bogus_tools AgentScenarios.payload).1
      = [call] ∧
    call_user_prompt call = "P" ∧
    tool_name <$> call_tools call = ["utc_time"; "tavily_search"].
Proof.
  destruct (configure AgentScenarios.defaults bogus_tools) as [cfg|e] eqn:Hcfg;
    [|by vm_compute in Hcfg].
  destruct (single_step_call AgentScenarios.defaults AgentScenarios.repr
              AgentScenarios.setup AgentScenarios.backend bogus_tools
              AgentScenarios.payload cfg "P" Hcfg)
    as (call & tools & sp & Htools & _ & Hcalls & _ & Hprompt & Hnames & _).
  - vm_compute in Hcfg. by inversion Hcfg.
  - reflexivity.
  - exists call. split_and!; [done..|].
    rewrite Hnames. assert (tools = ["utc_time"; "bogus"; "tavily_search"]) as ->.
    { vm_compute in Htools. inversion Htools as [Heq]. clear -Heq.
      destruct tools as [|t1 [|t2 [|t3 [|t4 tools]]]]; try discriminate Heq.
      by inversion Heq. }
    by_evaluation.
Defined.

(** ** The normalised chain *)

(** What a step inherits and what it sets, for the entry at position
    [idx]. *)
Definition step_of (default_model default_prompt : string) (default_tools : list string)
    (idx : nat) (d : gmap string Value) (step : AgentStep) : Prop :=
  step_name step =
    match d !! "name" with
    | Some (VStr (String c s)) => String c s
    | _ => "agent_" +:+ pretty (S idx)
    end ∧
  VStr (step_model step) = default (VStr default_model) (d !! "model") ∧
  step_model step ≠ "" ∧
  step_system_prompt step =
    match d !! "system_prompt" with
    | Some (VStr p) => p
    | _ => default_prompt
    end ∧
  VList (VStr <$> step_tools step) = default (VList (VStr <$> default_tools)) (d !! "tools").

Lemma normalize_agent_step default_model default_prompt default_tools idx item step :
  normalize_agent default_model default_prompt default_tools idx item = Ok step →
  ∃ d, item = VDict d ∧ step_of default_model default_prompt default_tools idx d step.
Proof.
  unfold normalize_agent. intros H.
  destruct item as [| | | | | |d|]; try done. exists d. split; [done|].
  destruct (default (VStr default_model) (d !! "model")) as [| | | |[|c m]| | |] eqn:Hm;
    try done.
  destruct (as_str_list (default _ (d !! "tools"))) as [tools|] eqn:Ht.
  2: { by destruct (default VNone (d !! "system_prompt")). }
  apply as_str_list_Some in Ht.
  assert (∃ p, step = mkAgentStep
      match default VNone (d !! "name") with
      | VStr (String _ _ as name') => name'
      | _ => "agent_" +:+ pretty (S idx)
      end p (String c m) tools ∧
      p = match d !! "system_prompt" with Some (VStr p) => p | _ => default_prompt end)
    as (p & -> & ->).
  { destruct (d !! "system_prompt") as [[| | | |p| | |]|]; simpl in H; try done;
      inversion H; subst; eexists; split; reflexivity. }
  unfold step_of. simpl. split_and!; try done.
  by destruct (d !! "name") as [[| | | |[|]| | |]|].
Qed.

Lemma normalize_agents_steps default_model default_prompt default_tools idx items steps :
  normalize_agents default_model default_prompt default_tools idx items = Ok steps →
  ∀ i step, steps !! i = Some step →
    ∃ d, items !! i = Some (VDict d) ∧
         step_of default_model default_prompt default_tools (idx + i) d step.
Proof.
  revert idx steps. induction items as [|item items IH]; simpl; intros idx steps H.
  - inversion H; subst. by intros i step ?.
  - destruct (normalize_agent _ _ _ idx item) as [step0|e] eqn:Hstep; simpl in H; [|done].
    destruct (normalize_agents _ _ _ (S idx) items) as [steps'|e] eqn:Hrest;
      simpl in H; [|done].
    inversion H; subst. intros [|i] step Hi; simpl in Hi.
    + inversion Hi; subst. apply normalize_agent_step in Hstep as (d & -> & Hd).
      exists d. by rewrite Nat.add_0_r.
    + destruct (IH _ _ Hrest i step Hi) as (d & Hitem & Hd).
      exists d. split; [done|]. by rewrite Nat.add_succ_r.
Qed.

(** X18. When a step list is accepted, the chain has one step per entry,
    in order. The step at position [i] (from [0]) bears the entry's name if
    that is non-empty text and [agent_<i+1>] otherwise; its model, prompt
    and tools are the entry's own, or the node's where the entry has none;
    and its model is not empty. *)
Theorem normalized_steps (items : list Value) (default_model default_prompt : string)
    (default_tools : list string) (steps : list AgentStep) :
  _normalize_agent_chain (VList items) default_model default_prompt default_tools
    = Ok steps →
  length steps = length items ∧
  ∀ i step, steps !! i = Some step →
    ∃ d, items !! i = Some (VDict d) ∧
         step_of default_model default_prompt default_tools i d step.
Proof.
  unfold _normalize_agent_chain. intros H. destruct items as [|item items]; [done|].
  split; [by eapply normalize_agents_length|].
  intros i step Hi. by apply (normalize_agents_steps _ _ _ 0 _ _ H).
Qed.

Lemma normalized_steps_witness :
  length (c_agent_chain AgentRuns.chain_config) = 3%nat ∧
  ∀ i step, c_agent_chain AgentRuns.chain_config !! i = Some step →
    ∃ d, [VDict ∅; VDict {[ "name" := VStr "second" ]}; VDict ∅] !! i = Some (VDict d) ∧
         step_of "qwen2.5:1.5b" "You are a helpful workflow agent."
           ["calculator"; "utc_time"] i d step.
Proof.
  apply (normalized_steps [VDict ∅; VDict {[ "name" := VStr "second" ]}; VDict ∅]).
  vm_compute. reflexivity.
Defined.

(** X19. In a step entry an explicit [None] for the system prompt counts
    as no system prompt, while an explicit [None] for the model or for the
    tools is rejected. *)
Theorem step_null_fields (default_model default_prompt : string)
    (default_tools : list string) (idx : nat) (d : gmap string Value) :
  (d !! "system_prompt" = Some VNone →
     normalize_agent default_model default_prompt default_tools idx (VDict d) =
     normalize_agent default_model default_prompt default_tools idx
       (VDict (delete "system_prompt" d))) ∧
  (d !! "model" = Some VNone →
     normalize_agent default_model default_prompt default_tools idx (VDict d) =
     Raise (ValueError "Each langgraph_agent.agents[].model must be a non-empty string")) ∧
  (d !! "tools" = Some VNone →
     ∃ e, normalize_agent default_model default_prompt default_tools idx (VDict d)
          = Raise e).
Proof.
  unfold normalize_agent. split_and!.
  - intros Hp. rewrite Hp, lookup_delete_eq, !lookup_delete_ne by done. done.
  - intros Hm. by rewrite Hm.
  - intros Ht. rewrite Ht. simpl.
    destruct (default (VStr default_model) (d !! "model")) as [| | | |[|c m]| | |];
      try by eexists.
    destruct (default VNone (d !! "system_prompt")); by eexists.
Qed.

Lemma step_null_fields_witness :
  normalize_agent "m" "p" [] 0 (VDict {[ "system_prompt" := VNone ]}) =
  normalize_agent "m" "p" [] 0 (VDict (delete "system_prompt" {[ "system_prompt" := VNone ]})).
Proof.
  destruct (step_null_fields "m" "p" [] 0 {[ "system_prompt" := VNone ]}) as (H & _).
  apply H. reflexivity.
Defined.

(** ** Extraction looks at the last message only *)

(** X20. Two results whose message lists end with the same message give
    the same text, whatever comes before that message and whatever else the
    results hold. *)
Theorem extract_text_last_message (repr : Value → string)
    (result result' : gmap string Value) (messages messages' : list Value)
    (last_message : Value) :
  result !! "messages" = Some (VList (messages ++ [last_message])) →
  result' !! "messages" = Some (VList (messages' ++ [last_message])) →
  _extract_text_from_agent_result repr result
  = _extract_text_from_agent_result repr result'.
Proof.
  intros H H'. unfold _extract_text_from_agent_result. rewrite H, H'. simpl.
  destruct (messages ++ [last_message]) as [|m ms] eqn:Heq; [by destruct messages|].
  destruct (messages' ++ [last_message]) as [|m' ms'] eqn:Heq'; [by destruct messages'|].
  assert (last (m :: ms) = Some last_message) as -> by (by rewrite <- Heq, last_snoc).
  assert (last (m' :: ms') = Some last_message) as -> by (by rewrite <- Heq', last_snoc).
  done.
Qed.

Lemma extract_text_last_message_witness :
  _extract_text_from_agent_result AgentScenarios.repr
    (AgentScenarios.reply (VStr "done"))
  = _extract_text_from_agent_result AgentScenarios.repr
      {[ "messages" := VList [AgentScenarios.ai_message (VStr "done")] ]}.
Proof.
  apply (extract_text_last_message AgentScenarios.repr _ _
           [AgentScenarios.ai_message (VStr "hello")] []
           (AgentScenarios.ai_message (VStr "done"))); reflexivity.
Defined.

(** ** Whitespace-only outputs *)

Lemma foldl_update_context_blank ctx outs :
  Forall blank outs → foldl update_context ctx outs = ctx.
Proof.
  induction 1 as [|out outs Hout _ IH]; simpl; [done|].
  unfold update_context at 2. apply strip_empty in Hout. by rewrite Hout.
Qed.

Section blank_outputs.
Variable defaults : AgentDefaults.
Variable repr : Value → string.
Variable agent_setup : list ModelCall → ModelCall → outcome unit.
Variable agent_invoke : list ModelCall → ModelCall → outcome (gmap string Value).

(** X21. When every answer of the model gives a text of whitespace only
    (the empty text included), a chained run that returns has called every
    step, each step after the first with the fixed template holding the
    original input both as the request and as the running context, and its
    text output is the original input. *)
Theorem blank_outputs_keep_context (params payload : gmap string Value)
    (cfg : Configured) (original_input : string)
    (calls : list ModelCall) (merged : gmap string Value) :
  configure defaults params = Ok cfg →
  read_input repr cfg payload = Ok original_input →
  c_agent_chain cfg ≠ [] →
  (∀ history call result, agent_invoke history call = Ok result →
     blank (_extract_text_from_agent_result repr result)) →
  langgraph_agent_handler defaults repr agent_setup agent_invoke params payload
    = (calls, Ok merged) →
  merged !! "agent_output" = Some (VStr original_input) ∧
  length calls = length (c_agent_chain cfg) ∧
  ∀ i call, calls !! S i = Some call →
    call_user_prompt call =
      lines ["Original user request:"; original_input; "";
             "Current context from previous agents:"; original_input; "";
             "Continue and improve the answer."].
Proof.
  intros Hcfg Hin Hchain Hblank Hrun.
  destruct (handler_chained _ _ _ _ _ _ _ _ _ _ Hcfg Hin Hchain Hrun)
    as (r0 & Hloop & Hok & Hback).
  apply run_chain_spec in Hloop
    as (new & outs & Heq & Hlen1 & Hlen2 & Hcalls & Houts & Hfinal & _).
  simpl in Heq. subst new.
  assert (Hall : Forall blank outs).
  { apply Forall_lookup. intros i out Hi.
    destruct (Houts i out Hi) as (call & result & _ & Hres & ->).
    by apply (Hblank _ _ _ Hres). }
  destruct (Hback merged eq_refl) as [[text trace] Hr0].
  destruct (Hfinal text trace Hr0) as (Hlen & Hlen' & Htext & Htrace).
  rewrite (foldl_update_context_blank _ _ Hall) in Htext. subst text.
  split_and!.
  - specialize (Hok _ Hr0). inversion Hok; subst merged. simpl.
    unfold merge_output. destruct trace; by read_field.
  - done.
  - intros i call Hi. destruct (Hcalls _ _ Hi) as (step & _ & -> & _). simpl.
    rewrite foldl_update_context_blank by by apply Forall_take.
    apply continue_prompt_template.
Qed.

End blank_outputs.

Module BlankBackend.
Import AgentScenarios.

(** A model all of whose answers are whitespace: a space, an em space
    (U+2003) and a line feed. *)
Definition backend : list ModelCall → ModelCall → outcome (gmap string Value) :=
  λ _history _call, Ok (reply (VStr (" " +:+ utf8 [226; 128; 131] +:+ nl))).

Definition run := langgraph_agent_handler defaults repr setup backend chain_params payload.

Definition output : gmap string Value :=
  match run.2 with
  | Ok out => out
  | Raise _ => ∅
  end.

Lemma returns : run = (run.1, Ok output).
Proof. vm_compute. reflexivity. Qed.

Lemma answers_blank : blank (" " +:+ utf8 [226; 128; 131] +:+ nl).
Proof. apply strip_empty. vm_compute. reflexivity. Qed.

End BlankBackend.

Lemma blank_outputs_keep_context_witness :
  BlankBackend.output !! "agent_output" = Some (VStr "P") ∧
  length BlankBackend.run.1 = 3%nat ∧
  ∀ i call, BlankBackend.run.1 !! S i = Some call →
    call_user_prompt call =
      lines ["Original user request:"; "P"; "";
             "Current context from previous agents:"; "P"; "";
             "Continue and improve the answer."].
Proof.
  apply (blank_outputs_keep_context AgentScenarios.defaults AgentScenarios.repr
           AgentScenarios.setup BlankBackend.backend AgentScenarios.chain_params
           AgentScenarios.payload AgentRuns.chain_config "P").
  - exact AgentRuns.configure_chain.
  - reflexivity.
  - done.
  - intros history call result [= <-]. exact BlankBackend.answers_blank.
  - exact BlankBackend.returns.
Defined.

(** ** Booleans where an integer is expected *)

Definition with_num_ctx (num_ctx : Value) (cfg : Configured) : Configured :=
  mkConfigured
    (mkCommonSettings (cs_model (c_settings cfg)) (cs_input_field (c_settings cfg))
       num_ctx (cs_num_predict (c_settings cfg)) (cs_temperature (c_settings cfg))
       (cs_max_tool_calls (c_settings cfg)))
    (c_system_prompt cfg) (c_tools cfg) (c_agent_chain cfg).

(** X22. Where a configuration passes validation, it still does with
    [True] as the context window ([bool] is an [int] for [isinstance], and
    [True] is above zero), and [True] is what the model is then called with;
    with [False] it is rejected. *)
Theorem bool_context_window (defaults : AgentDefaults) (params : gmap string Value)
    (cfg : Configured) :
  configure defaults params = Ok cfg →
  configure defaults (<["num_ctx" := VBool true]> params)
    = Ok (with_num_ctx (VBool true) cfg) ∧
  configure defaults (<["num_ctx" := VBool false]> params)
    = Raise (ValueError "agent.num_ctx must be a positive integer").
Proof.
  unfold configure. intros H.
  rewrite !lookup_insert_eq, !lookup_insert_ne by done.
  cbn [default from_option Datatypes.id].
  destruct (default _ (params !! "system_prompt")) as [| | | |sp| | |]; try done.
  destruct (as_str_list _) as [tools|]; [|done].
  unfold _validate_common_settings in *.
  destruct (default _ (params !! "model")) as [| | | |[|c m]| | |]; try done.
  destruct (default _ (params !! "input_field")) as [| | | |[|c' f]| | |]; try done.
  destruct (negb (is_int (default _ (params !! "num_ctx"))) || _); [done|].
  cbn [is_int negb int_value orb Z.leb Z.compare].
  destruct (negb (is_int (default _ (params !! "num_predict"))) || _); [done|].
  destruct (negb (is_number _)); [done|].
  destruct (negb (is_int (default _ (params !! "max_tool_calls"))) || _); [done|].
  split; [|done].
  destruct (py_float _) as [temperature|e]; [|done]. cbn [mbind outcome_bind] in *.
  cbn [cs_model] in *.
  destruct (_normalize_agent_chain _ _ _ _) as [chain|e]; [|done].
  by inversion H.
Qed.

Lemma bool_context_window_witness :
  configure AgentScenarios.defaults (<["num_ctx" := VBool true]> ∅)
  = Ok (with_num_ctx (VBool true) AgentRuns.single_config).
Proof.
  apply (bool_context_window AgentScenarios.defaults ∅ AgentRuns.single_config).
  exact AgentRuns.configure_single.
Defined.

(** * [multi_agent_handler], the legacy alias *)

Module MultiAgent.

(** [app_config.multi_agent_defaults()]; [agents] is a list of objects. *)
Record MultiAgentDefaults := mkMultiAgentDefaults {
  multi_model : string;
  multi_input_field : string;
  multi_num_ctx : Z;
  multi_num_predict : Z;
  multi_temperature : spec_float;
  multi_max_tool_calls : Z;
  multi_agents : list (gmap string Value);
}.

(** [d.setdefault(key, value)]: a key that is present, even bound to
    [None], keeps its value. *)
Definition setdefault (key : string) (value : Value) (d : gmap string Value)
  : gmap string Value :=
  match d !! key with
  | Some _ => d
  | None => <[key := value]> d
  end.

Section multi.
Variable defaults : AgentDefaults.
Variable multi_defaults : MultiAgentDefaults.
Variable repr : Value → string.
Variable agent_setup : list ModelCall → ModelCall → outcome unit.
Variable agent_invoke : list ModelCall → ModelCall → outcome (gmap string Value).

Definition proxy_params (params : gmap string Value) : gmap string Value :=
  let proxy_params := params in
  let proxy_params := setdefault "model" (VStr (multi_model multi_defaults)) proxy_params in
  let proxy_params :=
    setdefault "input_field" (VStr (multi_input_field multi_defaults)) proxy_params in
  let proxy_params := setdefault "num_ctx" (VInt (multi_num_ctx multi_defaults)) proxy_params in
  let proxy_params :=
    setdefault "num_predict" (VInt (multi_num_predict multi_defaults)) proxy_params in
  let proxy_params :=
    setdefault "temperature" (VFloat (multi_temperature multi_defaults)) proxy_params in
  let proxy_params :=
    setdefault "max_tool_calls" (VInt (multi_max_tool_calls multi_defaults)) proxy_params in
  setdefault "agents" (VList (VDict <$> multi_agents multi_defaults)) proxy_params.

Definition multi_agent_handler (params payload : gmap string Value)
  : list ModelCall * outcome (gmap string Value) :=
  match langgraph_agent_handler defaults repr agent_setup agent_invoke (proxy_params params) payload with
  | (calls, Raise e) => (calls, Raise e)
  | (calls, Ok merged) =>
      let merged :=
        <["multi_agent_output" := default VNone (merged !! "agent_output")]> merged in
      (calls,
       Ok match merged !! "agent_trace" with
          | Some agent_trace =>
              <["multi_agent_count" := default (VInt 0) (merged !! "agent_count")]>
                (<["multi_agent_trace" := agent_trace]> merged)
          | None => merged
          end)
  end.

End multi.

End MultiAgent.
Export MultiAgent.

Section multi_facts.
Variable defaults : AgentDefaults.
Variable multi_defaults : MultiAgentDefaults.
Variable repr : Value → string.
Variable agent_setup : list ModelCall → ModelCall → outcome unit.
Variable agent_invoke : list ModelCall → ModelCall → outcome (gmap string Value).

Lemma setdefault_lookup key value (d : gmap string Value) k :
  setdefault key value d !! k =
  if decide (k = key) then Some (default value (d !! key)) else d !! k.
Proof.
  unfold setdefault. destruct (d !! key) as [v|] eqn:Hkey; simpl.
  - destruct (decide (k = key)) as [->|]; done.
  - destruct (decide (k = key)) as [->|].
    + by rewrite lookup_insert_eq.
    + by rewrite lookup_insert_ne.
Qed.

Lemma proxy_params_agents params :
  proxy_params multi_defaults params !! "agents" =
  Some (default (VList (VDict <$> multi_agents multi_defaults)) (params !! "agents")).
Proof.
  unfold proxy_params. rewrite setdefault_lookup, decide_True by done.
  by rewrite !setdefault_lookup, !decide_False by done.
Qed.

Lemma handler_Ok_inv params payload calls merged :
  langgraph_agent_handler defaults repr agent_setup agent_invoke params payload = (calls, Ok merged) →
  ∃ cfg original_input text trace,
    configure defaults params = Ok cfg ∧
    read_input repr cfg payload = Ok original_input ∧
    execute defaults repr agent_setup agent_invoke cfg original_input = (calls, Ok (text, trace)) ∧
    merged = merge_output payload cfg text trace.
Proof.
  rewrite handler_cases. intros H.
  destruct (configure defaults params) as [cfg|e] eqn:Hcfg; [|done].
  destruct (read_input repr cfg payload) as [original_input|e] eqn:Hin; [|done].
  destruct (execute _ _ _ _) as [calls' [[text trace]|e]] eqn:Hexec; [|done].
  inversion H; subst. by exists cfg, original_input, text, trace.
Qed.

Lemma merge_output_text payload cfg text trace :
  merge_output payload cfg text trace !! "agent_output" = Some (VStr text).
Proof. unfold merge_output. destruct trace; by read_field. Qed.

Lemma merge_output_trace payload cfg text trace :
  merge_output payload cfg text trace !! "agent_trace" =
  match trace with
  | [] => payload !! "agent_trace"
  | _ => Some (VList trace)
  end.
Proof. unfold merge_output. destruct trace; by read_field. Qed.

Lemma merge_output_legacy_fields payload cfg text trace k :
  k = "multi_agent_output" ∨ k = "multi_agent_trace" ∨ k = "multi_agent_count" →
  merge_output payload cfg text trace !! k = payload !! k.
Proof.
  unfold merge_output. intros [->|[->| ->]]; destruct trace; by read_field.
Qed.

(** X23. When the legacy handler returns, [multi_agent_output] holds the
    text output, the same as [agent_output]. If the payload then has an
    [agent_trace], [multi_agent_trace] is that trace and
    [multi_agent_count] the [agent_count] (or [0] if there is none); if it
    has none, the two fields are those of the input payload. *)
Theorem multi_agent_output_fields (params payload : gmap string Value)
    (calls : list ModelCall) (out : gmap string Value) :
  multi_agent_handler defaults multi_defaults repr agent_setup agent_invoke params payload
    = (calls, Ok out) →
  (∃ text, out !! "multi_agent_output" = Some (VStr text) ∧
           out !! "agent_output" = Some (VStr text)) ∧
  (∀ agent_trace, out !! "agent_trace" = Some agent_trace →
     out !! "multi_agent_trace" = Some agent_trace ∧
     out !! "multi_agent_count" = Some (default (VInt 0) (out !! "agent_count"))) ∧
  (out !! "agent_trace" = None →
     out !! "multi_agent_trace" = payload !! "multi_agent_trace" ∧
     out !! "multi_agent_count" = payload !! "multi_agent_count").
Proof.
  unfold multi_agent_handler.
  destruct (langgraph_agent_handler _ _ _ _ _) as [calls' [merged|e]] eqn:Hrun; [|done].
  intros [= -> <-].
  apply handler_Ok_inv in Hrun as (cfg & original_input & text & trace & _ & _ & _ & ->).
  set (merged := merge_output payload cfg text trace).
  assert (Htext : merged !! "agent_output" = Some (VStr text))
    by apply merge_output_text.
  rewrite Htext. simpl. rewrite lookup_insert_ne by done.
  destruct (merged !! "agent_trace") as [agent_trace|] eqn:Htrace.
  - split_and!.
    + exists text. split; by read_field.
    + intros agent_trace'. read_field. intros [= <-]. split; [done|]. by read_field.
    + read_field. by rewrite Htrace.
  - split_and!.
    + exists text. split; by read_field.
    + intros agent_trace'. read_field. by rewrite Htrace.
    + intros _. read_field. unfold merged.
      by rewrite !merge_output_legacy_fields by eauto.
Qed.

(** X24. With an empty default step list and no [agents] parameter, the
    legacy handler raises without calling the model. *)
Theorem multi_agent_without_agents (params payload : gmap string Value) :
  params !! "agents" = None →
  multi_agents multi_defaults = [] →
  ∃ e, multi_agent_handler defaults multi_defaults repr agent_setup agent_invoke params payload
       = ([], Raise e).
Proof.
  intros Hnone Hempty. unfold multi_agent_handler.
  rewrite handler_cases.
  destruct (configure defaults (proxy_params multi_defaults params)) as [cfg|e] eqn:Hcfg;
    [|by eexists].
  exfalso. apply configure_Ok_valid in Hcfg. apply Hcfg. unfold invalid_config.
  do 7 right. left. by rewrite proxy_params_agents, Hnone, Hempty.
Qed.

(** X25. An [agents] parameter bound to [None] is kept by the legacy
    handler: it runs in single-step mode, with one model call and no trace
    added, whatever the default step list. *)
Theorem multi_agent_null_agents (params payload : gmap string Value)
    (calls : list ModelCall) (out : gmap string Value) :
  params !! "agents" = Some VNone →
  multi_agent_handler defaults multi_defaults repr agent_setup agent_invoke params payload
    = (calls, Ok out) →
  length calls = 1%nat ∧ out !! "agent_trace" = payload !! "agent_trace".
Proof.
  intros Hnull. unfold multi_agent_handler.
  destruct (langgraph_agent_handler _ _ _ _ _) as [calls' [merged|e]] eqn:Hrun; [|done].
  intros [= -> <-].
  apply handler_Ok_inv in Hrun
    as (cfg & original_input & text & trace & Hcfg & _ & Hexec & ->).
  destruct (configure_Ok _ _ _ Hcfg) as (_ & _ & _ & _ & Hchain).
  rewrite proxy_params_agents, Hnull in Hchain. simpl in Hchain.
  injection Hchain as Hnil. rewrite execute_single in Hexec by done.
  destruct (agent_setup [] _) as [[]|e]; [|done].
  destruct (agent_invoke [] _) as [result|e]; [|done].
  inversion Hexec; subst calls text trace. split; [done|].
  rewrite merge_output_text. simpl. read_field.
  destruct (payload !! "agent_trace") as [agent_trace|] eqn:Htrace; by read_field.
Qed.

End multi_facts.

Module MultiScenarios.

(** The defaults of [AppConfig.multi_agent_defaults] without configuration
    files. *)
Definition multi_defaults : MultiAgentDefaults :=
  mkMultiAgentDefaults "qwen2.5:1.5b" "message" 1024 128
    (S754_finite false 7205759403792794 (-55)) 4
    [ {[ "name" := VStr "researcher";
         "system_prompt" := VStr "Find facts and references. Prefer tool usage.";
         "tools" := VList [VStr "tavily_search"] ]};
      {[ "name" := VStr "synthesizer";
         "system_prompt" := VStr "Create a concise final answer from prior agent outputs.";
         "tools" := VList [VStr "calculator"; VStr "utc_time"] ]} ].

(** The same with an empty step list, as [agents_json = []] gives. *)
Definition no_agents : MultiAgentDefaults :=
  mkMultiAgentDefaults "qwen2.5:1.5b" "message" 1024 128
    (S754_finite false 7205759403792794 (-55)) 4 [].

Definition run (params : gmap string Value) :=
  multi_agent_handler AgentScenarios.defaults multi_defaults AgentScenarios.repr
    AgentScenarios.setup AgentScenarios.backend params AgentScenarios.payload.

Definition output (params : gmap string Value) : gmap string Value :=
  match (run params).2 with
  | Ok out => out
  | Raise _ => ∅
  end.

Lemma returns_chained : run ∅ = ((run ∅).1, Ok (output ∅)).
Proof. vm_compute. reflexivity. Qed.

Lemma returns_single :
  run {[ "agents" := VNone ]} = ((run {[ "agents" := VNone ]}).1,
                                 Ok (output {[ "agents" := VNone ]})).
Proof. vm_compute. reflexivity. Qed.

End MultiScenarios.

Lemma multi_agent_output_fields_witness :
  ∃ text, MultiScenarios.output ∅ !! "multi_agent_output" = Some (VStr text) ∧
          MultiScenarios.output ∅ !! "agent_output" = Some (VStr text).
Proof.
  destruct (multi_agent_output_fields AgentScenarios.defaults
              MultiScenarios.multi_defaults AgentScenarios.repr AgentScenarios.setup AgentScenarios.backend
              ∅ AgentScenarios.payload _ _ MultiScenarios.returns_chained) as [H _].
  exact H.
Defined.

Lemma multi_agent_without_agents_witness :
  ∃ e, multi_agent_handler AgentScenarios.defaults MultiScenarios.no_agents
         AgentScenarios.repr AgentScenarios.setup AgentScenarios.backend ∅ AgentScenarios.payload
       = ([], Raise e).
Proof.
  apply multi_agent_without_agents; reflexivity.
Defined.

Lemma multi_agent_null_agents_witness :
  length (MultiScenarios.run {[ "agents" := VNone ]}).1 = 1%nat ∧
  MultiScenarios.output {[ "agents" := VNone ]} !! "agent_trace"
  = AgentScenarios.payload !! "agent_trace".
Proof.
  apply (multi_agent_null_agents AgentScenarios.defaults MultiScenarios.multi_defaults
           AgentScenarios.repr AgentScenarios.setup AgentScenarios.backend {[ "agents" := VNone ]}).
  - reflexivity.
  - exact MultiScenarios.returns_single.
Defined.

(** * Configuration lists

    [AppConfig._get_csv] of [config.py]: the tool list and the list of
    allowed domains are written in the configuration file as one line of
    comma-separated names. *)

Module Config.

(** [s.split(sep)] for a separator of one character. *)
Fixpoint split_on (sep : ascii) (s : string) : list string :=
  match s with
  | EmptyString => [""]
  | String c s' =>
      if decide (c = sep) then "" :: split_on sep s'
      else match split_on sep s' with
           | part :: parts => String c part :: parts
           | [] => [String c ""]
           end
  end.

(** [_get_csv]; [value] is what the parser has for the key, the empty text
    when the key is absent. *)
Definition _get_csv (value : string) (fallback : list string) : list string :=
  if decide (value = "") then fallback
  else strip <$> filter (λ part, strip part ≠ "") (split_on "," value).

End Config.

Import Config.

(** The character occurs in the text. *)
Fixpoint has_char (c : ascii) (s : string) : bool :=
  match s with
  | EmptyString => false
  | String c' s' => bool_decide (c' = c) || has_char c s'
  end.

(** A text of commas and whitespace characters only. *)
Inductive separators_only : string → Prop :=
| separators_empty : separators_only ""
| separators_comma s : separators_only s → separators_only (String "," s)
| separators_space w s :
    w ∈ whitespace → separators_only s → separators_only (w +:+ s).

(** An entry of a list read from a line: a non-empty name without
    whitespace at either end and without a comma. *)
Definition csv_entry (name : string) : Prop :=
  name ≠ "" ∧ trimmed name ∧ has_char "," name = false.

Lemma split_on_nonempty sep s : split_on sep s ≠ [].
Proof.
  induction s as [|c s IH]; simpl; [done|].
  destruct (decide (c = sep)); [done|]. by destruct (split_on sep s).
Qed.

Lemma split_on_parts sep s part :
  part ∈ split_on sep s → has_char sep part = false.
Proof.
  revert part. induction s as [|c s IH]; simpl; intros part.
  - by intros ->%list_elem_of_singleton.
  - destruct (decide (c = sep)) as [->|Hc].
    + intros [->|Hin]%elem_of_cons; [done|]. by apply IH.
    + destruct (split_on sep s) as [|p ps]; [by intros ->%list_elem_of_singleton; simpl;
        rewrite bool_decide_eq_false_2|].
      intros [->|Hin]%elem_of_cons.
      * simpl. rewrite bool_decide_eq_false_2 by done. apply IH. left.
      * apply IH. by right.
Qed.

Lemma has_char_app c s t : has_char c (s +:+ t) = has_char c s || has_char c t.
Proof.
  induction s as [|c' s IH]; [done|].
  change (String c' s +:+ t) with (String c' (s +:+ t)). simpl.
  by rewrite IH, orb_assoc.
Qed.

Lemma has_char_strip c s : has_char c s = false → has_char c (strip s) = false.
Proof.
  destruct (strip_spec s) as (p & q & _ & _ & Heq). rewrite Heq at 1.
  rewrite !has_char_app. by intros [_ [? _]%orb_false_iff]%orb_false_iff.
Qed.

Lemma whitespace_no_comma w : w ∈ whitespace → has_char "," w = false.
Proof. intros Hw. each_whitespace Hw; reflexivity. Qed.

Lemma blank_no_comma p : blank p → has_char "," p = false.
Proof.
  induction 1 as [|w p Hw _ IH]; [done|].
  by rewrite has_char_app, whitespace_no_comma, IH.
Qed.

Lemma split_on_prefix sep w x :
  has_char sep w = false →
  split_on sep (w +:+ x)
  = (w +:+ hd "" (split_on sep x)) :: tl (split_on sep x).
Proof.
  induction w as [|c w IH]; intros Hw.
  - change ("" +:+ x) with x. pose proof (split_on_nonempty sep x).
    by destruct (split_on sep x).
  - simpl in Hw. apply orb_false_iff in Hw as [Hc%bool_decide_eq_false Hw].
    change (String c w +:+ x) with (String c (w +:+ x)).
    cbn [split_on]. rewrite decide_False by done. by rewrite (IH Hw).
Qed.

Lemma split_on_sep sep x : split_on sep (String sep x) = "" :: split_on sep x.
Proof. simpl. by rewrite decide_True. Qed.

(** Splitting at the commas and joining with commas gives the text back. *)
Lemma join_split_on sep s : join (String sep "") (split_on sep s) = s.
Proof.
  induction s as [|c s IH]; [done|]. cbn [split_on].
  pose proof (split_on_nonempty sep s) as Hne.
  destruct (decide (c = sep)) as [->|Hc].
  - destruct (split_on sep s) as [|p ps]; [done|].
    change (String sep (join (String sep "") (p :: ps)) = String sep s). by rewrite IH.
  - destruct (split_on sep s) as [|p ps]; [done|]. rewrite <- IH.
    by destruct ps.
Qed.

Lemma separators_only_blank p : blank p → separators_only p.
Proof. induction 1; by constructor. Qed.

Lemma separators_only_app s t :
  separators_only s → separators_only t → separators_only (s +:+ t).
Proof.
  induction 1 as [|s _ IH|w s Hw _ IH]; intros Ht; [done|..].
  - change (String "," s +:+ t) with (String "," (s +:+ t)). constructor. by apply IH.
  - rewrite string_app_assoc. constructor; [done|]. by apply IH.
Qed.

Lemma split_on_blank s : Forall blank (split_on "," s) ↔ separators_only s.
Proof.
  split.
  - intros Hall. rewrite <- (join_split_on "," s).
    induction Hall as [|p ps Hp _ IH]; [constructor|].
    destruct ps as [|q ps]; [by apply separators_only_blank|].
    change (separators_only (p +:+ String "," (join "," (q :: ps)))).
    apply separators_only_app; [by apply separators_only_blank|]. by constructor.
  - induction 1 as [|s _ IH|w s Hw _ IH].
    + repeat constructor.
    + rewrite split_on_sep. constructor; [constructor|done].
    + rewrite split_on_prefix by by apply whitespace_no_comma.
      pose proof (split_on_nonempty "," s) as Hne.
      destruct (split_on "," s) as [|p ps]; [done|].
      apply Forall_cons in IH as [Hp Hps]. constructor; [|done]. by constructor.
Qed.

Lemma filter_blank_nil (parts : list string) :
  filter (λ part, strip part ≠ "") parts = [] ↔ Forall blank parts.
Proof.
  induction parts as [|p ps IH]; [done|].
  rewrite Forall_cons, <- IH, <- strip_empty.
  destruct (decide (strip p = "")) as [Hp|Hp].
  - rewrite filter_cons_False by (intros H; by apply H). naive_solver.
  - rewrite filter_cons_True by done. naive_solver.
Qed.

(** X26. A key that is absent or empty gives the fallback list.  Otherwise
    every entry of the list read is a non-empty name without a comma and
    without a whitespace character at either end, and the list is empty
    (the fallback is not used) exactly when the value holds only commas and
    whitespace characters. *)
Theorem get_csv_entries (value : string) (fallback : list string) :
  (value = "" → _get_csv value fallback = fallback) ∧
  (value ≠ "" →
     Forall csv_entry (_get_csv value fallback) ∧
     (_get_csv value fallback = [] ↔ separators_only value)).
Proof.
  unfold _get_csv. split; intros Hv.
  - by rewrite decide_True.
  - rewrite decide_False by done. split.
    + apply Forall_fmap, Forall_forall. intros part [Hne Hin]%list_elem_of_filter.
      split_and!; [done|apply strip_trimmed|].
      by apply has_char_strip, (split_on_parts _ value).
    + rewrite <- split_on_blank, <- filter_blank_nil.
      split; [apply fmap_nil_inv|by intros ->].
Qed.

(** A line with an em space (U+2003) after the first name. *)
Definition tools_line : string :=
  Eval cbv in " calculator" +:+ utf8 [226; 128; 131] +:+ ",, utc_time,".

Lemma get_csv_entries_witness :
  Forall csv_entry (_get_csv tools_line ["http_get"]) ∧
  (_get_csv tools_line ["http_get"] = [] ↔ separators_only tools_line).
Proof.
  apply (get_csv_entries tools_line ["http_get"]). done.
Defined.

Lemma csv_entry_check name :
  name ≠ "" → strip name = name → has_char "," name = false → csv_entry name.
Proof. intros Hne Hs Hc. split_and!; [done| |done]. rewrite <- Hs. apply strip_trimmed. Qed.

Lemma split_on_join ws name names :
  blank ws →
  Forall (λ name, has_char "," name = false) (name :: names) →
  split_on "," (join (String "," ws) (name :: names))
  = name :: (String.append ws <$> names).
Proof.
  intros Hws. revert name. induction names as [|name' names IH]; intros name Hfree.
  - apply Forall_cons in Hfree as [Hname _]. simpl.
    rewrite <- (string_app_empty name) at 1.
    rewrite (split_on_prefix _ _ _ Hname). simpl. by rewrite string_app_empty.
  - apply Forall_cons in Hfree as [Hname Hfree].
    change (join (String "," ws) (name :: name' :: names))
      with (name +:+ String "," (ws +:+ join (String "," ws) (name' :: names))).
    rewrite (split_on_prefix _ _ _ Hname), split_on_sep. cbn [hd tl].
    rewrite string_app_empty.
    rewrite (split_on_prefix _ _ _ (blank_no_comma _ Hws)), (IH _ Hfree). done.
Qed.

(** X27. Writing a list of names on one line, separated by a comma and any
    whitespace characters, and reading the line back gives the list again;
    the names are non-empty, without a comma and without a whitespace
    character at either end, and there is at least one. *)
Theorem get_csv_round_trip (ws : string) (names fallback : list string) :
  blank ws →
  names ≠ [] →
  Forall csv_entry names →
  _get_csv (join (String "," ws) names) fallback = names.
Proof.
  intros Hws Hne Hall. destruct names as [|name names]; [done|].
  assert (Hfree : Forall (λ name, has_char "," name = false) (name :: names)).
  { eapply Forall_impl; [exact Hall|]. by intros ? (_ & _ & ?). }
  unfold _get_csv. rewrite decide_False.
  2:{ apply Forall_cons in Hall as [(Hname & _) _].
      destruct name as [|c name]; [done|]. by destruct names. }
  rewrite (split_on_join _ _ _ Hws Hfree).
  assert (Hstrip : ∀ l, Forall csv_entry l →
            strip <$> filter (λ part, strip part ≠ "") (String.append ws <$> l) = l).
  { induction l as [|p l IH]; [done|]. intros [(Hp & Hs%strip_fixed & _) Hl]%Forall_cons.
    rewrite fmap_cons, filter_cons_True by (by rewrite strip_blank_app, Hs).
    by rewrite fmap_cons, strip_blank_app, Hs, IH. }
  apply Forall_cons in Hall as [(Hname & Hs%strip_fixed & _) Hall].
  rewrite filter_cons_True by (by rewrite Hs).
  by rewrite fmap_cons, Hs, Hstrip.
Qed.

Lemma get_csv_round_trip_witness :
  _get_csv (join ("," +:+ utf8 [10; 226; 128; 131]) ["calculator"; "utc_time"; "http_get"])
    []
  = ["calculator"; "utc_time"; "http_get"].
Proof.
  apply (get_csv_round_trip (utf8 [10; 226; 128; 131])); [|done|].
  - apply strip_empty. vm_compute. reflexivity.
  - repeat (apply Forall_cons_2;
              [apply csv_entry_check; [done|by vm_compute|done]|]).
    apply Forall_nil_2.
Defined.

(** * The tools of an agent *)

(** X28. [build_agent_tools] gives the tools of exactly those selected
    names that [tool_catalog] lists, in the order of the selection and as
    often as they are selected; a name the catalog does not list is left
    out without an error. *)
Theorem build_agent_tools_names allow_http_domains tavily_max_results
    (selected : list string) :
  tool_name <$> build_agent_tools allow_http_domains tavily_max_results selected
  = filter (.∈ catalog_names) selected.
Proof.
  induction selected as [|name rest IH]; [done|]. cbn [build_agent_tools].
  pose proof (tool_registry_lookup allow_http_domains tavily_max_results name) as H.
  destruct (tool_registry _ _ !! name) as [tool|].
  - destruct H as [Hname Hin]. rewrite filter_cons_True by done.
    by rewrite fmap_cons, Hname, IH.
  - by rewrite filter_cons_False.
Qed.
